(** * zfs3backup: the multipart uploader and the snapshot-chain manager

    A shallow embedding of [zfs3backup/pput.py] and [zfs3backup/snap.py],
    and the properties of the specification that are checked against it. *)

From Stdlib Require Import ZArith List Bool Lia Strings.String Strings.Ascii Strings.Byte.
From Stdlib Require Import Floats.SpecFloat Sorting.Sorted Sorting.Permutation.
From stdpp Require Import gmap strings list fin_maps pretty.

Local Open Scope Z_scope.
Local Open Scope list_scope.

(** ** Python text

    The methods of [bytes] and [str] that the two programs parse their
    input with. A [bytes] value is a string of 8-bit characters; so is a
    [str] value, which stands for ASCII text here: on characters above 127
    the methods of [str] go by Unicode tables that are left out, and the
    functions below that take a [str] say so with [None]. *)

Module Text.

Inductive Error :=
| IndexError
| ValueError.

(** the ASCII whitespace of [bytes.split], [bytes.strip] and [int] on
    [bytes] *)
Definition is_space (c : ascii) : bool :=
  let n := N_of_ascii c in ((9 <=? n) && (n <=? 13))%N || (n =? 32)%N.

(** the whitespace of [str.strip], below 128: the separators 28 to 31
    count too *)
Definition is_unicode_space (c : ascii) : bool :=
  let n := N_of_ascii c in is_space c || ((28 <=? n) && (n <=? 31))%N.

Definition is_ascii (c : ascii) : bool := (N_of_ascii c <? 128)%N.

Fixpoint all_ascii (s : string) : bool :=
  match s with
  | EmptyString => true
  | String c r => is_ascii c && all_ascii r
  end.

Section Strip.
Variable space : ascii -> bool.

Fixpoint lstrip (s : string) : string :=
  match s with
  | EmptyString => EmptyString
  | String c r => if space c then lstrip r else s
  end.

Fixpoint rstrip (s : string) : string :=
  match s with
  | EmptyString => EmptyString
  | String c r =>
    match rstrip r with
    | EmptyString => if space c then EmptyString else String c EmptyString
    | r' => String c r'
    end
  end.

(** [s.strip()] *)
Definition strip (s : string) : string := lstrip (rstrip s).

End Strip.

Definition digit_value (c : ascii) : option Z :=
  let n := N_of_ascii c in
  if ((48 <=? n) && (n <=? 57))%N then Some (Z.of_N n - 48) else None.

(** the digits of a decimal literal: at least one digit, and single
    underscores between digits only; [after_digit] is whether the character
    before was a digit, [acc] the value of the digits read so far *)
Fixpoint int_digits (s : string) (acc : Z) (after_digit : bool) : option Z :=
  match s with
  | EmptyString => if after_digit then Some acc else None
  | String c r =>
    match digit_value c with
    | Some d => int_digits r (acc * 10 + d) true
    | None => if Ascii.eqb c "_" && after_digit then int_digits r acc false else None
    end
  end.

(** [int(s)] in base 10, of [bytes] or of ASCII text: ASCII whitespace
    around the literal is dropped, then comes an optional sign and the
    digits; [None] is [ValueError]. (The limit some interpreters put on the
    number of digits, 4300 unless configured, is left out.) *)
Definition int (s : string) : option Z :=
  match strip is_space s with
  | EmptyString => None
  | String c r =>
    if Ascii.eqb c "+" then int_digits r 0 false
    else if Ascii.eqb c "-" then Z.opp <$> int_digits r 0 false
    else int_digits (String c r) 0 false
  end.

(** [bytes.upper()], and [str.upper()] on ASCII text *)
Definition upper_char (c : ascii) : ascii :=
  let n := N_of_ascii c in
  if ((97 <=? n) && (n <=? 122))%N then ascii_of_N (n - 32) else c.

Fixpoint upper (s : string) : string :=
  match s with
  | EmptyString => EmptyString
  | String c r => String (upper_char c) (upper r)
  end.

(** [bytes.lower()] *)
Definition lower_char (c : ascii) : ascii :=
  let n := N_of_ascii c in
  if ((65 <=? n) && (n <=? 90))%N then ascii_of_N (n + 32) else c.

Fixpoint lower (s : string) : string :=
  match s with
  | EmptyString => EmptyString
  | String c r => String (lower_char c) (lower r)
  end.

(** [s[-1]] and [s[:-1]] of a string that is not empty *)
Fixpoint last_char (s : string) : option (string * ascii) :=
  match s with
  | EmptyString => None
  | String c r =>
    match last_char r with
    | None => Some (EmptyString, c)
    | Some (front, l) => Some (String c front, l)
    end
  end.

(** [bytes.splitlines()]: the lines end at [\n], [\r] and [\r\n]; [line]
    is the line being read *)
Fixpoint splitlines_from (s : string) (line : string) : list string :=
  match s with
  | EmptyString => if String.eqb line EmptyString then [] else [line]
  | String c r =>
    if Ascii.eqb c "010" then line :: splitlines_from r EmptyString
    else if Ascii.eqb c "013"
    then line :: splitlines_from
                   match r with
                   | String c' r' => if Ascii.eqb c' "010" then r' else r
                   | EmptyString => r
                   end EmptyString
    else splitlines_from r (line ++ String c EmptyString)
  end.

Definition splitlines (s : string) : list string := splitlines_from s EmptyString.

(** [bytes.split()]: the words between runs of whitespace; [word] is the
    word being read *)
Fixpoint split_from (s : string) (word : string) : list string :=
  match s with
  | EmptyString => if String.eqb word EmptyString then [] else [word]
  | String c r =>
    if is_space c
    then (if String.eqb word EmptyString then split_from r EmptyString
          else word :: split_from r EmptyString)
    else split_from r (word ++ String c EmptyString)
  end.

Definition split (s : string) : list string := split_from s EmptyString.

(** *** To state what the helpers do *)

(** a string of decimal digits *)
Definition digits (s : string) : Prop :=
  Forall (fun c => is_Some (digit_value c)) (list_ascii_of_string s).

(** a string with no character of a kind in it *)
Definition free_of (kind : ascii -> bool) (s : string) : Prop :=
  Forall (fun c => kind c = false) (list_ascii_of_string s).

(** the characters that end a line for [splitlines] *)
Definition is_break (c : ascii) : bool := Ascii.eqb c "010" || Ascii.eqb c "013".

End Text.

(** ** pput.py *)

Module Pput.

(** Python [bytes]. *)
Abbreviation bytes := (list byte).

(** *** The input stream

    [pput] reads [sys.stdin.buffer] (or a file descriptor). The stream is
    the data still to come, together with an oracle for short reads: a read
    of [size > 0] bytes may return fewer bytes than asked for, but returns
    the empty string only at end of stream. The n-th entry [c] of
    [short_reads] caps the n-th read at [c + 1] bytes; when the oracle is
    used up every read is served in full. [read(0)] returns the empty
    string and a negative size reads up to end of stream, as in Python. *)

Record InputStream := mkInput {
  data : bytes;
  short_reads : list nat
}.

Definition read (s : InputStream) (size : Z) : bytes * InputStream :=
  if size <? 0 then (data s, mkInput [] (tail (short_reads s)))
  else
    let want := Z.to_nat size in
    let served := match short_reads s with
                  | [] => want
                  | c :: _ => Nat.min want (S c)
                  end in
    (firstn served (data s), mkInput (skipn served (data s)) (tail (short_reads s))).

(** *** StreamHandler *)

Record StreamHandler := mkStreamHandler {
  input_stream : InputStream;
  chunk_size : Z;
  _partial_chunk : bytes;
  _eof_reached : bool
}.

(** [StreamHandler.__init__] *)
Definition StreamHandler_init (input : InputStream) (size : Z) : StreamHandler :=
  mkStreamHandler input size [] false.

Definition len (b : bytes) : Z := Z.of_nat (length b).

(** [StreamHandler.finished] *)
Definition finished (sh : StreamHandler) : bool :=
  _eof_reached sh && (len (_partial_chunk sh) =? 0).

(** [StreamHandler.get_chunk]: the [while not self._eof_reached] loop. Every
    turn that does not return consumes at least one byte of the stream, so
    the loop is run on a bound [fuel] on the number of turns; [None] is
    "bound reached", [Some (None, _)] is Python's [None] (the loop was not
    entered), [Some (Some chunk, _)] the [return chunk]. *)
Fixpoint get_chunk_loop (fuel : nat) (sh : StreamHandler)
  : option (option bytes * StreamHandler) :=
  match fuel with
  | O => None
  | S fuel' =>
    if _eof_reached sh then Some (None, sh)
    else
      let '(rd, input') := read (input_stream sh) (chunk_size sh - len (_partial_chunk sh)) in
      let eof := if len rd =? 0 then true else _eof_reached sh in
      let partial := _partial_chunk sh ++ rd in
      if (len partial =? chunk_size sh) || eof
      then Some (Some partial, mkStreamHandler input' (chunk_size sh) [] eof)
      else get_chunk_loop fuel' (mkStreamHandler input' (chunk_size sh) partial eof)
  end.

(** One turn more than there are bytes left always suffices
    ([get_chunk_loop_total] below). *)
Definition get_chunk_fuel (sh : StreamHandler) : nat :=
  S (length (data (input_stream sh))).

Definition get_chunk (sh : StreamHandler) : option bytes * StreamHandler :=
  match get_chunk_loop (get_chunk_fuel sh) sh with
  | Some r => r
  | None => (None, sh)
  end.

(** [n] successive calls of [get_chunk], with what each returned. *)
Fixpoint get_chunks (n : nat) (sh : StreamHandler) : list (option bytes) * StreamHandler :=
  match n with
  | O => ([], sh)
  | S n' =>
    let '(c, sh') := get_chunk sh in
    let '(cs, sh'') := get_chunks n' sh' in
    (c :: cs, sh'')
  end.

(** *** Hex text: [hashlib]'s [hexdigest] and [binascii.a2b_hex] *)

Definition hex_digit (n : N) : ascii :=
  if (n <? 10)%N then ascii_of_N (48 + n) else ascii_of_N (87 + n).

Definition hexlify_byte (b : byte) (rest : string) : string :=
  let n := Byte.to_N b in
  String (hex_digit (n / 16)%N) (String (hex_digit (n mod 16)%N) rest).

(** lower-case hex text of a byte string, two digits a byte *)
Definition hexlify (b : bytes) : string := fold_right hexlify_byte EmptyString b.

Definition hex_value (c : ascii) : option N :=
  let n := N_of_ascii c in
  if ((48 <=? n) && (n <=? 57))%N then Some (n - 48)%N
  else if ((97 <=? n) && (n <=? 102))%N then Some (n - 87)%N
  else if ((65 <=? n) && (n <=? 70))%N then Some (n - 55)%N
  else None.

(** [binascii.a2b_hex], its decoding of ASCII text, two characters a
    byte; [None] is [binascii.Error] (odd length, or a character that is no
    hex digit). *)
Fixpoint a2b_hex_ascii (s : string) : option bytes :=
  match s with
  | EmptyString => Some []
  | String _ EmptyString => None
  | String c1 (String c2 rest) =>
    match hex_value c1, hex_value c2, a2b_hex_ascii rest with
    | Some h, Some l, Some r =>
      match Byte.of_N (16 * h + l) with
      | Some b => Some (b :: r)
      | None => None
      end
    | _, _, _ => None
    end
  end.

(** *** [hashlib.md5]

    MD5 (RFC 1321) on 32-bit words held in [N]. The properties of the
    uploader below hold for any digest function; this one is what the code
    runs with. *)

Module MD5.
Local Open Scope N_scope.

Definition mask (x : N) : N := x mod 4294967296.

Definition rotl (x : N) (c : N) : N :=
  mask (N.lor (N.shiftl x c) (N.shiftr x (32 - c))).

Definition lnot32 (x : N) : N := 4294967295 - x.

(** the per-round shift amounts *)
Definition shifts : list N :=
[7; 12; 17; 22; 7; 12; 17; 22;
 7; 12; 17; 22; 7; 12; 17; 22;
 5; 9; 14; 20; 5; 9; 14; 20;
 5; 9; 14; 20; 5; 9; 14; 20;
 4; 11; 16; 23; 4; 11; 16; 23;
 4; 11; 16; 23; 4; 11; 16; 23;
 6; 10; 15; 21; 6; 10; 15; 21;
 6; 10; 15; 21; 6; 10; 15; 21].

(** [floor(2^32 * abs(sin(i + 1)))] *)
Definition sines : list N :=
[3614090360; 3905402710; 606105819; 3250441966; 4118548399; 1200080426; 2821735955; 4249261313;
 1770035416; 2336552879; 4294925233; 2304563134; 1804603682; 4254626195; 2792965006; 1236535329;
 4129170786; 3225465664; 643717713; 3921069994; 3593408605; 38016083; 3634488961; 3889429448;
 568446438; 3275163606; 4107603335; 1163531501; 2850285829; 4243563512; 1735328473; 2368359562;
 4294588738; 2272392833; 1839030562; 4259657740; 2763975236; 1272893353; 4139469664; 3200236656;
 681279174; 3936430074; 3572445317; 76029189; 3654602809; 3873151461; 530742520; 3299628645;
 4096336452; 1126891415; 2878612391; 4237533241; 1700485571; 2399980690; 4293915773; 2240044497;
 1873313359; 4264355552; 2734768916; 1309151649; 4149444226; 3174756917; 718787259; 3951481745].

(** the padded message: a [0x80] byte, zeros up to 56 modulo 64, and the
    length in bits as 64 bits, least significant byte first *)
Fixpoint le_bytes (n : nat) (x : N) : list N :=
  match n with
  | O => []
  | S n' => x mod 256 :: le_bytes n' (x / 256)
  end.

Definition padding (len : nat) : list N :=
  let zeros := ((119 - len mod 64) mod 64)%nat in
  128 :: repeat 0 zeros ++ le_bytes 8 (8 * N.of_nat len).

(** 32-bit words, least significant byte first *)
Fixpoint words (b : list N) : list N :=
  match b with
  | b0 :: b1 :: b2 :: b3 :: rest =>
    (b0 + 256 * (b1 + 256 * (b2 + 256 * b3))) :: words rest
  | _ => []
  end.

Definition round (M : list N) (st : N * N * N * N) (i : nat) : N * N * N * N :=
  let '(A, B, C, D) := st in
  let '(F, g) :=
    if (i <? 16)%nat then (N.lor (N.land B C) (N.land (lnot32 B) D), i)
    else if (i <? 32)%nat then (N.lor (N.land D B) (N.land (lnot32 D) C), (5 * i + 1) mod 16)%nat
    else if (i <? 48)%nat then (N.lxor (N.lxor B C) D, (3 * i + 5) mod 16)%nat
    else (N.lxor C (N.lor B (lnot32 D)), (7 * i) mod 16)%nat in
  let F := mask (F + A + nth i sines 0 + nth g M 0) in
  (D, mask (B + rotl F (nth i shifts 0)), B, C).

Definition block (st : N * N * N * N) (M : list N) : N * N * N * N :=
  let '(a0, b0, c0, d0) := st in
  let '(A, B, C, D) := fold_left (round M) (seq 0 64) st in
  (mask (a0 + A), mask (b0 + B), mask (c0 + C), mask (d0 + D)).

Fixpoint blocks (n : nat) (w : list N) (st : N * N * N * N) : N * N * N * N :=
  match n with
  | O => st
  | S n' => blocks n' (skipn 16 w) (block st (firstn 16 w))
  end.

Definition to_byte (x : N) : byte :=
  match Byte.of_N x with Some b => b | None => "000"%byte end.

Definition digest (message : list byte) : list byte :=
  let padded := map Byte.to_N message ++ padding (length message) in
  let w := words padded in
  let '(a, b, c, d) :=
    blocks (length w / 16) w (1732584193, 4023233417, 2562383102, 271733878) in
  map to_byte (le_bytes 4 a ++ le_bytes 4 b ++ le_bytes 4 c ++ le_bytes 4 d).
End MD5.

(** *** Exceptions, results, requests to the store *)

Inductive Exception :=
| WorkerCrashed
| UploadException (msg : string)
| AssertionError (msg : string)
| ClientError            (* the store refused a request *)
| BinasciiError          (* [a2b_hex] on ASCII text that is not hex *)
| OverflowError          (* an int too large for a float, [int] of an infinity *)
| ValueError.            (* [int] of a NaN, [a2b_hex] on text that is not ASCII *)

(** [binascii.a2b_hex] on a [str]: text with a character above 127 is
    refused with a plain [ValueError] before anything is decoded; ASCII
    text is decoded, with [binascii.Error] for an odd length or a character
    that is no hex digit. *)
Definition a2b_hex (s : string) : Exception + bytes :=
  if negb (Text.all_ascii s) then inl ValueError
  else match a2b_hex_ascii s with
       | Some raw => inr raw
       | None => inl BinasciiError
       end.

(** [Result = namedtuple('Result', ['success', 'traceback', 'index', 'md5', 'etag'])] *)
Record Result := mkResult {
  success : bool;
  traceback : option Exception;
  index : nat;
  md5 : string;
  etag : string
}.

(** The requests on the multipart upload that the store has served. *)
Inductive S3Call :=
| InitiateMultipartUpload (key : string)
| CompleteMultipartUpload (parts : list (nat * string))
| AbortMultipartUpload.

(** What the worker threads do between two turns of the supervisor: the
    job [(index, chunk)] was uploaded and the store answered with [etag], or
    [upload_part] raised on its last attempt and the thread is dead. *)
Inductive WorkerEvent :=
| PartUploaded (index : nat) (etag : string)
| WorkerDied (index : nat).

(** *** Python's stable sort, by [<] alone *)

Section Sorted.
Context {A : Type} (lt : A -> A -> bool).

Fixpoint insert_sorted (x : A) (l : list A) : list A :=
  match l with
  | [] => [x]
  | y :: l' => if lt y x then y :: insert_sorted x l' else x :: y :: l'
  end.

(** an element goes before the first one that is not smaller, so equal
    elements keep their order *)
Definition sorted (l : list A) : list A := fold_right insert_sorted [] l.
End Sorted.

(** [<] on the tuples [(index, md5, etag)] of [self.results] *)
Definition tuple_lt (a b : nat * string * string) : bool :=
  let '(i1, m1, e1) := a in
  let '(i2, m2, e2) := b in
  (i1 <? i2)%nat
  || ((i1 =? i2)%nat && (String.ltb m1 m2 || (String.eqb m1 m2 && String.ltb e1 e2))).

(** [key = lambda x: x['PartNumber']] on [{'PartNumber': _, 'ETag': _}] *)
Definition part_number_lt (a b : nat * string) : bool := (fst a <? fst b)%nat.

(** *** [parse_metadata] *)

(** [meta.split('=', 1)] with exactly two parts: what is before the first
    [=] and what is after it; [None] when there is no [=] *)
Fixpoint split_key_value (meta : string) : option (string * string) :=
  match meta with
  | EmptyString => None
  | String c rest =>
    if Ascii.eqb c "=" then Some (EmptyString, rest)
    else match split_key_value rest with
         | Some (key, val) => Some (String c key, val)
         | None => None
         end
  end.

(** the loop of [parse_metadata]; [None] is the [sys.exit(1)] on malformed
    metadata *)
Fixpoint parse_metadata_loop (metadata : list string) (headers : gmap string string)
  : option (gmap string string) :=
  match metadata with
  | [] => Some headers
  | meta :: metadata' =>
    match split_key_value meta with
    | Some (key, val) => parse_metadata_loop metadata' (<[key := val]> headers)
    | None => None
    end
  end.

Definition parse_metadata (metadata : list string) : option (gmap string string) :=
  parse_metadata_loop metadata ∅.

(** how a call ends: it returned, it raised, or it is still in its loop
    when the schedule of worker events is used up *)
Inductive Outcome (A : Type) :=
| Returned (value : A)
| Raised (e : Exception)
| Running.
Arguments Returned {A} value.
Arguments Raised {A} e.
Arguments Running {A}.

Section Upload.

(** [hashlib.md5(_).digest()] *)
Variable hashlib_md5 : bytes -> bytes.

(** [hashlib.md5(_).hexdigest()] *)
Definition hexdigest (b : bytes) : string := hexlify (hashlib_md5 b).

(** [multipart_etag]: the loop over [digests] feeds the md5 object [etag]
    (here the bytes it was fed so far) and counts. *)
Fixpoint multipart_etag_loop (digests : list string) (etag : bytes) (count : nat)
  : Exception + (bytes * nat) :=
  match digests with
  | [] => inr (etag, count)
  | dig :: digests' =>
    match a2b_hex dig with
    | inr raw => multipart_etag_loop digests' (etag ++ raw) (S count)
    | inl e => inl e
    end
  end.

Definition multipart_etag (digests : list string) : Exception + string :=
  match multipart_etag_loop digests [] O with
  | inl e => inl e
  | inr (etag, count) => inr ("'" +:+ hexdigest etag +:+ "-" +:+ pretty count +:+ "'")
  end.

(** *** UploadSupervisor

    [outbox] holds the jobs handed to the workers and not finished yet
    (queued or being uploaded), [inbox] the result queue, [_workers] what
    [is_alive] answers for each worker, [s3_calls] the requests on the
    multipart upload in the order they were made. *)
Record UploadSupervisor := mkSupervisor {
  stream_handler : StreamHandler;
  name : string;
  inbox : list Result;
  outbox : list (nat * bytes);
  multipart : option string;
  results : list (nat * string * string);
  _pending_chunks : Z;
  _workers : list bool;
  s3_calls : list S3Call
}.

(** [UploadSupervisor.__init__] *)
Definition UploadSupervisor_init (sh : StreamHandler) (key : string) : UploadSupervisor :=
  mkSupervisor sh key [] [] None [] 0 [] [].

Definition set_stream (sup : UploadSupervisor) (sh : StreamHandler) : UploadSupervisor :=
  mkSupervisor sh (name sup) (inbox sup) (outbox sup) (multipart sup) (results sup)
               (_pending_chunks sup) (_workers sup) (s3_calls sup).

Definition set_queues (sup : UploadSupervisor) (i : list Result) (o : list (nat * bytes))
  : UploadSupervisor :=
  mkSupervisor (stream_handler sup) (name sup) i o (multipart sup) (results sup)
               (_pending_chunks sup) (_workers sup) (s3_calls sup).

Definition set_workers (sup : UploadSupervisor) (w : list bool) : UploadSupervisor :=
  mkSupervisor (stream_handler sup) (name sup) (inbox sup) (outbox sup) (multipart sup)
               (results sup) (_pending_chunks sup) w (s3_calls sup).

Definition set_pending (sup : UploadSupervisor) (p : Z) : UploadSupervisor :=
  mkSupervisor (stream_handler sup) (name sup) (inbox sup) (outbox sup) (multipart sup)
               (results sup) p (_workers sup) (s3_calls sup).

Definition set_results (sup : UploadSupervisor) (r : list (nat * string * string))
  : UploadSupervisor :=
  mkSupervisor (stream_handler sup) (name sup) (inbox sup) (outbox sup) (multipart sup)
               r (_pending_chunks sup) (_workers sup) (s3_calls sup).

Definition s3_request (sup : UploadSupervisor) (c : S3Call) : UploadSupervisor :=
  mkSupervisor (stream_handler sup) (name sup) (inbox sup) (outbox sup) (multipart sup)
               (results sup) (_pending_chunks sup) (_workers sup) (s3_calls sup ++ [c]).

(** **** The workers *)

(** the job with this index, and the jobs left *)
Fixpoint take_job (i : nat) (jobs : list (nat * bytes)) : option (bytes * list (nat * bytes)) :=
  match jobs with
  | [] => None
  | (j, chunk) :: jobs' =>
    if (i =? j)%nat then Some (chunk, jobs')
    else match take_job i jobs' with
         | Some (c, rest) => Some (c, (j, chunk) :: rest)
         | None => None
         end
  end.

(** the first live worker dies *)
Fixpoint kill_one (workers : list bool) : list bool :=
  match workers with
  | [] => []
  | true :: w => false :: w
  | false :: w => false :: kill_one w
  end.

(** [UploadWorker.main_loop], one job: [upload_part] hashes the chunk and
    sends it, and the result goes to the supervisor's inbox with
    [success=True]; when [upload_part] raises, the thread ends and the job
    is lost. A job is finished by a live worker only. *)
Definition worker_step (ev : WorkerEvent) (sup : UploadSupervisor) : UploadSupervisor :=
  if negb (existsb id (_workers sup)) then sup
  else match ev with
       | PartUploaded i response_etag =>
         match take_job i (outbox sup) with
         | Some (chunk, rest) =>
           set_queues sup (inbox sup ++ [mkResult true None i (hexdigest chunk) response_etag]) rest
         | None => sup
         end
       | WorkerDied i =>
         match take_job i (outbox sup) with
         | Some (_, rest) =>
           set_workers (set_queues sup (inbox sup) rest) (kill_one (_workers sup))
         | None => sup
         end
       end.

Definition workers_run (evs : list WorkerEvent) (sup : UploadSupervisor) : UploadSupervisor :=
  fold_left (fun s ev => worker_step ev s) evs sup.

(** **** The supervisor's methods *)

(** [_start_workers]: [concurrency] started threads *)
Definition _start_workers (concurrency : nat) (sup : UploadSupervisor) : UploadSupervisor :=
  set_workers (set_queues sup [] []) (repeat true concurrency).

(** A method that may raise returns the exception, if any, together with
    the state it leaves behind. *)
Definition Raises : Type := option Exception * UploadSupervisor.

(** [_begin_upload]; [initiate_ok] is whether the store serves the
    initiate request *)
Definition _begin_upload (initiate_ok : bool) (sup : UploadSupervisor) : Raises :=
  match multipart sup with
  | Some _ => (Some (AssertionError "multipart upload already started"), sup)
  | None =>
    if initiate_ok
    then (None, mkSupervisor (stream_handler sup) (name sup) (inbox sup) (outbox sup)
                  (Some (name sup)) (results sup) (_pending_chunks sup) (_workers sup)
                  (s3_calls sup ++ [InitiateMultipartUpload (name sup)]))
    else (Some ClientError, sup)
  end.

(** [_finish_upload] *)
Definition _finish_upload (sup : UploadSupervisor) : Raises :=
  if (length (results sup) =? 0)%nat
  then (Some (UploadException "Error: Can't upload zero bytes!"),
        s3_request sup AbortMultipartUpload)
  else
    let sorted_results :=
      sorted part_number_lt (map (fun r => (fst (fst r), snd r)) (results sup)) in
    (None, s3_request sup (CompleteMultipartUpload sorted_results)).

(** [_handle_result]: [self.inbox.get()] takes the result at the head of
    the queue *)
Definition _handle_result (sup : UploadSupervisor) : Raises :=
  match inbox sup with
  | [] => (None, sup)   (* would block; [_handle_results] never gets here *)
  | result :: queue =>
    let sup := set_queues sup queue (outbox sup) in
    if success result
    then (None, set_pending
                  (set_results sup (results sup ++ [(index result, md5 result, etag result)]))
                  (_pending_chunks sup - 1))
    else (Some (match traceback result with Some e => e | None => ClientError end), sup)
  end.

(** [_handle_results]: [while not self.inbox.empty(): self._handle_result()];
    nothing is added to the inbox meanwhile, so the loop makes as many turns
    as there are results waiting. *)
Fixpoint _handle_results_loop (turns : nat) (sup : UploadSupervisor) : Raises :=
  match turns with
  | O => (None, sup)
  | S turns' =>
    match _handle_result sup with
    | (Some e, sup') => (Some e, sup')
    | (None, sup') => _handle_results_loop turns' sup'
    end
  end.

Definition _handle_results (sup : UploadSupervisor) : Raises :=
  _handle_results_loop (length (inbox sup)) sup.

(** [_send_chunk] *)
Definition _send_chunk (index : nat) (chunk : bytes) (sup : UploadSupervisor)
  : UploadSupervisor :=
  let sup' := set_pending sup (_pending_chunks sup + 1) in
  set_queues sup' (inbox sup') (outbox sup' ++ [(index, chunk)]).

(** [_check_workers] *)
Definition _check_workers (sup : UploadSupervisor) : Raises :=
  if forallb id (_workers sup) then (None, sup) else (Some WorkerCrashed, sup).

(** [while self._pending_chunks or not self.stream_handler.finished] *)
Definition main_loop_condition (sup : UploadSupervisor) : bool :=
  negb (_pending_chunks sup =? 0) || negb (finished (stream_handler sup)).

(** What [main_loop] does once its loop is left: [_finish_upload],
    [self.results.sort()], [multipart_etag]. *)
Definition main_loop_finish (sup : UploadSupervisor) : Outcome string * UploadSupervisor :=
  match _finish_upload sup with
  | (Some e, sup) => (Raised e, sup)
  | (None, sup) =>
    let sup := set_results sup (sorted tuple_lt (results sup)) in
    match multipart_etag (map (fun r => snd (fst r)) (results sup)) with
    | inl e => (Raised e, sup)
    | inr tag => (Returned tag, sup)
    end
  end.

(** The [while] loop of [main_loop] and what follows it. Each turn first
    lets the workers run (the next entry of [schedule]: any events, in any
    order), then does what the body does. *)
Fixpoint main_loop_while (schedule : list (list WorkerEvent)) (chunk_index : nat)
    (sup : UploadSupervisor) : Outcome string * UploadSupervisor :=
  if main_loop_condition sup then
    match schedule with
    | [] => (Running, sup)
    | evs :: schedule' =>
      match _check_workers (workers_run evs sup) with
      | (Some e, sup) => (Raised e, sup)
      | (None, sup) =>
        match _handle_results sup with
        | (Some e, sup) => (Raised e, sup)
        | (None, sup) =>
          match get_chunk (stream_handler sup) with
          | (Some (b :: c), sh) =>
            (* s3 multipart index is 1 based, increment before sending *)
            main_loop_while schedule' (S chunk_index)
                            (_send_chunk (S chunk_index) (b :: c) (set_stream sup sh))
          | (_, sh) => main_loop_while schedule' chunk_index (set_stream sup sh)
          end
        end
      end
    end
  else main_loop_finish sup.

(** [UploadSupervisor.main_loop] *)
Definition main_loop (concurrency : nat) (initiate_ok : bool)
    (schedule : list (list WorkerEvent)) (sup : UploadSupervisor)
  : Outcome string * UploadSupervisor :=
  match _begin_upload initiate_ok sup with
  | (Some e, sup) => (Raised e, sup)
  | (None, sup) => main_loop_while schedule O (_start_workers concurrency sup)
  end.

(** *** The spec's words, to compare the code with

    A stream cut into chunks of [C] bytes, the last one with what is left
    (between 1 and [C] bytes); no chunk for the empty stream. *)
Fixpoint slices_upto (bound : nat) (C : nat) (d : bytes) : list bytes :=
  match bound, d with
  | O, _ | _, [] => []
  | S bound', _ => firstn C d :: slices_upto bound' C (skipn C d)
  end.

Definition slices (C : nat) (d : bytes) : list bytes := slices_upto (length d) C d.

(** The composite entity tag of a sequence of parts: ['<hex>-<n>'], where
    [<hex>] is the hex MD5 of the raw MD5 digests of the parts, one after
    the other in the order of the parts, and [<n>] the number of parts. *)
Definition composite_etag (parts : list bytes) : string :=
  "'" +:+ hexlify (hashlib_md5 (concat (map hashlib_md5 parts)))
  +:+ "-" +:+ pretty (length parts) +:+ "'".

(** *** [optimize_chunksize]

    Python's [float] is IEEE 754 binary64, here the library's [spec_float]
    with its correctly rounded operations at precision 53. *)

Definition prec : Z := 53.
Definition emax : Z := 1024.

(** [int] to [float]: rounded to nearest, ties to even; [OverflowError]
    when the int is too large *)
Definition float_of_int (n : Z) : Exception + spec_float :=
  match binary_normalize prec emax n 0 false with
  | S754_infinity _ => inl OverflowError
  | x => inr x
  end.

(** the literal [1.05]: the double nearest to 105/100 *)
Definition float_1_05 : spec_float := S754_finite false 4728779608739021 (-52).

(** [n > x] for an int [n] and a float [x]; Python compares the two
    exactly *)
Definition int_gt_float (n : Z) (x : spec_float) : bool :=
  match x with
  | S754_nan => false
  | S754_infinity s => s
  | S754_zero _ => 0 <? n
  | S754_finite s m e =>
    let v := cond_Zopp s (Zpos m) in
    if 0 <=? e then v * 2 ^ e <? n else v <? n * 2 ^ (- e)
  end.

(** [int(x)]: truncation toward zero *)
Definition int_of_float (x : spec_float) : Exception + Z :=
  match x with
  | S754_nan => inl ValueError
  | S754_infinity _ => inl OverflowError
  | S754_zero _ => inr 0
  | S754_finite s m e =>
    inr (cond_Zopp s (if 0 <=? e then Zpos m * 2 ^ e else Zpos m / 2 ^ (- e)))
  end.

(** a Python number: [max] returns one of its arguments as it is *)
Inductive Number :=
| Int (n : Z)
| Float (x : spec_float).

(** [max(x, n)] for a float [x] and an int [n]: [n] if [n > x], else [x] *)
Definition max_float_int (x : spec_float) (n : Z) : Number :=
  if int_gt_float n x then Int n else Float x.

Definition int_of_number (v : Number) : Exception + Z :=
  match v with
  | Int n => inr n
  | Float x => int_of_float x
  end.

Definition optimize_chunksize (estimated : Z) : Exception + Z :=
  let max_parts := 9999 in
  match float_of_int estimated, float_of_int max_parts with
  | inr e, inr parts =>
    let estimated := SFmul prec emax e float_1_05 in
    let min_part_size :=
      max_float_int (SFdiv prec emax estimated parts) (10 * 1024 * 1024) in
    int_of_number min_part_size
  | inl err, _ | _, inl err => inl err
  end.

(** *** [main]

    [Args] is what [parse_args] returns, the two sizes already put through
    [parse_size]; the input is standard input ([--file-descriptor] is left
    out). What is written to the diagnostic stream and to standard output
    is kept as a list of items; the progress lines of [_handle_result] are
    left out. *)
Record Args := mkArgs {
  args_name : string;
  args_chunk_size : Z;
  args_estimated : option Z;
  args_concurrency : nat;
  args_progress : bool;
  args_quiet : bool
}.

Inductive Diagnostic :=
| StartingUpload (key : string) (chunk_size : Z) (concurrency : nat)
| Message (text : string).

Record MainRun := mkMainRun {
  status : Outcome (option Z);          (* what [main] returned *)
  stderr : list Diagnostic;
  stdout : list string;                 (* the etags reported as success *)
  requests : list S3Call
}.

Definition VERB_NORMAL : Z := 1.

(** the chunk size [main] settles on *)
Definition main_chunk_size (args : Args) : Exception + Z :=
  match args_estimated args with
  | Some estimated => optimize_chunksize estimated
  | None => inr (args_chunk_size args)
  end.

Definition main (args : Args) (stdin : InputStream) (initiate_ok : bool)
    (schedule : list (list WorkerEvent)) : MainRun :=
  match main_chunk_size args with
  | inl e => mkMainRun (Raised e) [] [] []
  | inr chunk_size =>
    let stream_handler := StreamHandler_init stdin chunk_size in
    let verbosity := if args_quiet args then 0 else 1 + (if args_progress args then 1 else 0) in
    let sup := UploadSupervisor_init stream_handler (args_name args) in
    let err := if VERB_NORMAL <=? verbosity
               then [StartingUpload (args_name args) chunk_size (args_concurrency args)]
               else [] in
    match main_loop (args_concurrency args) initiate_ok schedule sup with
    | (Raised (UploadException msg), sup) =>
      mkMainRun (Returned (Some 1)) (err ++ [Message (msg +:+ String "010" EmptyString)]) []
                (s3_calls sup)
    | (Raised e, sup) => mkMainRun (Raised e) err [] (s3_calls sup)
    | (Running, sup) => mkMainRun Running err [] (s3_calls sup)
    | (Returned etag, sup) =>
      mkMainRun (Returned None) err (if VERB_NORMAL <=? verbosity then [etag] else [])
                (s3_calls sup)
    end
  end.

(** Modelled from the spec: the console entry point of the upload tool is
    not among the sources; the spec has the tool exit 0 on success and
    non-zero on upload failure, which is [sys.exit(main())]: the status
    [main] returns, 0 for [None], and 1 for an exception nobody caught. *)
Definition exit_code (run : MainRun) : option Z :=
  match status run with
  | Returned None => Some 0
  | Returned (Some code) => Some code
  | Raised _ => Some 1
  | Running => None
  end.

(** *** What holds while [main_loop] runs

    The predicates the proofs about the loop are carried by. *)

(** a result as the workers make them *)
Definition worker_result (r : Result) : Prop :=
  success r = true /\ exists raw, md5 r = hexlify raw.

(** whatever the stream: the only request so far is the initiate, the
    results are the workers', and no job carries an empty chunk *)
Definition upload_started (key : string) (sup : UploadSupervisor) : Prop :=
  s3_calls sup = [InitiateMultipartUpload key]
  /\ Forall worker_result (inbox sup)
  /\ Forall (fun t => exists raw, snd (fst t) = hexlify raw) (results sup)
  /\ Forall (fun job => snd job <> []) (outbox sup).

(** index and hex digest: of a recorded result, of a result in the queue,
    of a job, and of the chunks sent so far *)
Definition tuple_digest (t : nat * string * string) : nat * string := (fst (fst t), snd (fst t)).
Definition result_digest (r : Result) : nat * string := (index r, md5 r).
Definition job_digest (job : nat * bytes) : nat * string := (fst job, hexdigest (snd job)).
Definition sent_digests (sent : list bytes) : list (nat * string) :=
  combine (seq 1 (length sent)) (map hexdigest sent).

(** as long as no worker died, every chunk sent is a job, a result in the
    queue or a recorded result, exactly once, and the pending count is the
    number of those not recorded yet *)
Definition accounted (sent : list bytes) (sup : UploadSupervisor) : Prop :=
  forallb id (_workers sup) = true ->
  Forall worker_result (inbox sup)
  /\ _pending_chunks sup = Z.of_nat (length (inbox sup) + length (outbox sup))
  /\ Permutation (map tuple_digest (results sup) ++ map result_digest (inbox sup)
                  ++ map job_digest (outbox sup))
                 (sent_digests sent).

(** when the loop condition is evaluated, the stream [stream] being read in
    chunks of [C] bytes: the chunks sent and the chunks still to come are
    the slices of the stream, and the result queue is empty *)
Definition loop_invariant (C : nat) (stream : bytes) (chunk_index : nat)
    (sup : UploadSupervisor) : Prop :=
  exists sent d cuts eof,
    stream_handler sup = mkStreamHandler (mkInput d cuts) (Z.of_nat C) [] eof
    /\ (eof = true -> d = [])
    /\ slices C stream = sent ++ slices C d
    /\ chunk_index = length sent
    /\ inbox sup = []
    /\ forallb id (_workers sup) = true
    /\ accounted sent sup.

(** *** Workers that finish every part at once

    A schedule of worker events on which every part is uploaded right
    after it was sent: nothing happens before the first turn, and before
    each later turn the part sent on the turn before is finished, the store
    answering part [n] with the [n]-th of [etags]. *)
Definition prompt_schedule (etags : list string) : list (list WorkerEvent) :=
  [] :: map (fun p => [PartUploaded (fst p) (snd p)]) (combine (seq 1 (length etags)) etags).

End Upload.

(** *** [parse_size]

    The argument is an [int] or a [str]; for text with a character above
    127 the result is [None], left out of the model. *)

Inductive Size :=
| SizeInt (n : Z)
| SizeStr (s : string).

Definition parse_size (size : Size) : option (Text.Error + Z) :=
  match size with
  | SizeInt n => Some (inr n)
  | SizeStr s =>
    if negb (Text.all_ascii s) then None
    else
      let size := Text.upper (Text.strip Text.is_unicode_space s) in
      let int_times (text : string) (unit : Z) : Text.Error + Z :=
        match Text.int text with
        | Some n => inr (n * unit)
        | None => inl Text.ValueError
        end in
      match Text.last_char size with
      | None => Some (inl Text.IndexError)
      | Some (front, last) =>
        Some (if Ascii.eqb last "T" then int_times front (1024 * 1024 * 1024 * 1024)
              else if Ascii.eqb last "G" then int_times front (1024 * 1024 * 1024)
              else if Ascii.eqb last "M" then int_times front (1024 * 1024)
              else if Ascii.eqb last "K" then int_times front 1024
              else match Text.int size with
                   | Some n => inr n
                   | None => inl Text.ValueError
                   end)
      end
  end.

(** *** [retry]

    The decorator, for a function whose calls change the state of the
    world and return or raise. [retry_loop] is the [for attempt in
    range(1, times+1)] loop with [todo] turns left, this one being turn
    [attempt]. The result is what [wrapped] returns ([None] when the loop
    ends without a [return]) or raises, with the state of the world and the
    failed attempts handed to [logging.exception]. *)

Section Retry.
Context {World E A : Type}.
Variable func : World -> (E + A) * World.

Fixpoint retry_loop (times : Z) (todo : nat) (attempt : Z) (w : World) (logged : list (Z * E))
  : (E + option A) * World * list (Z * E) :=
  match todo with
  | O => (inr None, w, logged)
  | S todo' =>
    match func w with
    | (inr v, w') => (inr (Some v), w', logged)
    | (inl e, w') =>
      if times <=? attempt then (inl e, w', logged)
      else retry_loop times todo' (attempt + 1) w' (logged ++ [(attempt, e)])
    end
  end.

Definition retry (times : Z) (w : World) : (E + option A) * World * list (Z * E) :=
  retry_loop times (Z.to_nat times) 1 w [].

(** [k] calls of [func] one after the other: what each returned or raised *)
Fixpoint calls_of (k : nat) (w : World) : list (E + A) * World :=
  match k with
  | O => ([], w)
  | S k' =>
    let '(r, w') := func w in
    let '(rs, w'') := calls_of k' w' in
    (r :: rs, w'')
  end.

End Retry.

(** *** UploadWorker *)

(** [base64.b64encode] *)
Definition b64_char (n : N) : ascii :=
  if (n <? 26)%N then ascii_of_N (65 + n)
  else if (n <? 52)%N then ascii_of_N (71 + n)
  else if (n <? 62)%N then ascii_of_N (n - 4)
  else if (n =? 62)%N then "+"%char else "/"%char.

Fixpoint b64encode (b : bytes) : string :=
  match b with
  | [] => EmptyString
  | [x] =>
    let n := Byte.to_N x in
    String (b64_char (n / 4)) (String (b64_char (n mod 4 * 16)) "==")
  | [x; y] =>
    let n := (Byte.to_N x * 256 + Byte.to_N y)%N in
    String (b64_char (n / 1024))
      (String (b64_char (n / 16 mod 64)) (String (b64_char (n mod 16 * 4)) "="))
  | x :: y :: z :: rest =>
    let n := (Byte.to_N x * 65536 + Byte.to_N y * 256 + Byte.to_N z)%N in
    String (b64_char (n / 262144))
      (String (b64_char (n / 4096 mod 64))
         (String (b64_char (n / 64 mod 64)) (String (b64_char (n mod 64)) (b64encode rest))))
  end.

(** what the store does with one [part.upload]: it answers, with a status
    code, the rest of its [ResponseMetadata] and an entity tag, or the call
    raises *)
Inductive UploadAnswer :=
| Answered (HTTPStatusCode : Z) (ResponseMetadata : string) (ETag : string)
| Refused (e : Exception).

(** [part.upload(Body=..., ContentMD5=...)] on part number [PartNumber] *)
Record UploadPartRequest := mkUploadPartRequest {
  PartNumber : nat;
  Body : bytes;
  ContentMD5 : string
}.

Section Worker.

Variable hashlib_md5 : bytes -> bytes.

(** the store: its answer to the [n]-th upload request it gets, counted
    from 0; the world of a worker is the list of the requests made so far *)
Variable store : nat -> UploadAnswer.

(** the body of [upload_part], under the decorator *)
Definition upload_part_once (index : nat) (chunk : bytes) (sent : list UploadPartRequest)
  : (Exception + (string * string)) * list UploadPartRequest :=
  let md5 := hashlib_md5 chunk in
  let sent' := sent ++ [mkUploadPartRequest index chunk (b64encode md5)] in
  match store (length sent) with
  | Refused e => (inl e, sent')
  | Answered code metadata response_etag =>
    if negb (code =? 200) then (inl (UploadException metadata), sent')
    else (inr (hexlify md5, response_etag), sent')
  end.

(** [upload_part], with [times = int(CFG['MAX_RETRIES'])] *)
Definition upload_part (times : Z) (index : nat) (chunk : bytes)
    (sent : list UploadPartRequest) :=
  retry (upload_part_once index chunk) times sent.

(** the entity tag of an answer with status 200, the only answer
    [upload_part] takes for a success *)
Definition accepted (a : UploadAnswer) : option string :=
  match a with
  | Answered code _ response_etag => if code =? 200 then Some response_etag else None
  | Refused _ => None
  end.

(** One turn of [UploadWorker.main_loop], on the job [(index, chunk)] it
    took from its inbox: the result it puts in its outbox, or [None] when
    the thread ends there on an exception ([upload_part] raised, or it
    returned [None], which does not unpack into [md5, etag]). *)
Definition worker_turn (times : Z) (job : nat * bytes) (sent : list UploadPartRequest)
  : option Result * list UploadPartRequest :=
  match upload_part times (fst job) (snd job) sent with
  | (inr (Some (md5, etag)), sent', _) => (Some (mkResult true None (fst job) md5 etag), sent')
  | (_, sent', _) => (None, sent')
  end.

End Worker.

End Pput.

(** ** snap.py *)

Module Snap.

Local Open Scope string_scope.
Local Open Scope list_scope.

(** *** Text helpers *)

(** [s.rstrip('/')] *)
Fixpoint rstrip_slash (s : string) : string :=
  match s with
  | EmptyString => EmptyString
  | String c r =>
    match rstrip_slash r with
    | EmptyString => if Ascii.eqb c "/" then EmptyString else String c EmptyString
    | r' => String c r'
    end
  end.

Fixpoint endswith_slash (s : string) : bool :=
  match s with
  | EmptyString => false
  | String c EmptyString => Ascii.eqb c "/"
  | String _ r => endswith_slash r
  end.

(** [os.path.join(a, b)] *)
Definition os_path_join (a b : string) : string :=
  if String.prefix "/" b then b
  else if String.eqb a "" || endswith_slash a then a +:+ b
  else a +:+ "/" +:+ b.

(** [s.split(sep)] for a one-character separator *)
Fixpoint split (sep : ascii) (s : string) : list string :=
  match s with
  | EmptyString => [EmptyString]
  | String c r =>
    if Ascii.eqb c sep then EmptyString :: split sep r
    else match split sep r with
         | p :: ps => String c p :: ps
         | [] => [String c EmptyString]
         end
  end.

(** *** Compressors *)

Record Compressor := mkCompressor { compress : string; decompress : string }.

Definition COMPRESSORS : gmap string Compressor :=
  <["pigz1" := mkCompressor "pigz -1 --blocksize 4096" "pigz -d"]>
  (<["pigz4" := mkCompressor "pigz -4 --blocksize 4096" "pigz -d"]> ∅).

(** [COMPRESSORS.get(label)], where the label may be [None] *)
Definition COMPRESSORS_get (label : option string) : option Compressor :=
  match label with
  | Some l => COMPRESSORS !! l
  | None => None
  end.

Inductive Exception :=
| IntegrityError (msg : string)
| SoftError (msg : string)
| Error (msg : string)          (* a plain [Exception] *)
| AttributeError (msg : string)
| ValueError (msg : string).

(** *** S3Snapshot and S3SnapshotManager

    The snapshot objects live in the manager's dict [_snapshots], keyed by
    name, and are referred to by that name: [self], [self.parent] and the
    members of [visited] are names. The fields are those of the object,
    [_reason_broken] and the value kept by [@cached] included. *)

Inductive Reason := CYCLE | MISSING_PARENT | PARENT_BROKEN.

Definition Reason_eqb (a b : Reason) : bool :=
  match a, b with
  | CYCLE, CYCLE | MISSING_PARENT, MISSING_PARENT | PARENT_BROKEN, PARENT_BROKEN => true
  | _, _ => false
  end.

(** the text of the class constants *)
Definition reason_text (r : Reason) : string :=
  match r with
  | CYCLE => "cycle detected"
  | MISSING_PARENT => "missing parent"
  | PARENT_BROKEN => "parent broken"
  end.

Record S3Snapshot := mkS3Snapshot {
  _metadata : gmap string string;
  size : Z;
  _reason_broken : option Reason;
  is_healthy_cached_value : option bool
}.

Abbreviation Store := (gmap string S3Snapshot).

(** [S3Snapshot.is_full] *)
Definition is_full (s : S3Snapshot) : bool :=
  bool_decide (_metadata s !! "is_full" = Some "true")
  || bool_decide (_metadata s !! "isfull" = Some "true").

(** [S3Snapshot.parent_name] *)
Definition parent_name (s : S3Snapshot) : option string := _metadata s !! "parent".

(** [S3Snapshot.compressor] *)
Definition compressor_of (s : S3Snapshot) : option string := _metadata s !! "compressor".

(** [S3SnapshotManager.get], where the name may be [None] *)
Definition s3_get (st : Store) (name : option string) : option string :=
  match name with
  | Some n => match st !! n with Some _ => Some n | None => None end
  | None => None
  end.

(** [S3Snapshot.parent] *)
Definition parent (st : Store) (s : S3Snapshot) : option string :=
  s3_get st (parent_name s).

Definition set_reason (r : Reason) (s : S3Snapshot) : S3Snapshot :=
  mkS3Snapshot (_metadata s) (size s) (Some r) (is_healthy_cached_value s).

Definition set_cached (v : bool) (s : S3Snapshot) : S3Snapshot :=
  mkS3Snapshot (_metadata s) (size s) (_reason_broken s) (Some v).

(** [S3Snapshot._is_healthy]. The recursion goes from a snapshot to its
    parent with one more name in [visited]; [fuel] bounds its depth and
    [None] is "bound reached" or "no such object". *)
Fixpoint _is_healthy (fuel : nat) (st : Store) (self : string) (visited : gset string)
  : option (bool * Store) :=
  match fuel with
  | O => None
  | S fuel' =>
    match st !! self with
    | None => None
    | Some s =>
      if is_full s then Some (true, st)
      else if bool_decide (self ∈ visited)
      then Some (false, alter (set_reason CYCLE) self st)
      else match parent st s with
           | None => Some (false, alter (set_reason MISSING_PARENT) self st)
           | Some p =>
             match _is_healthy fuel' st p (visited ∪ {[self]}) with
             | None => None
             | Some (true, st') => Some (true, st')
             | Some (false, st') =>
               match st' !! p ≫= _reason_broken with
               | Some CYCLE => Some (false, alter (set_reason CYCLE) self st')
               | _ => Some (false, alter (set_reason PARENT_BROKEN) self st')
               end
             end
           end
    end
  end.

(** [S3Snapshot.is_healthy], a [@cached] property. The depth of
    [_is_healthy()] is at most the number of snapshots plus one
    ([_is_healthy_total] below). *)
Definition is_healthy (st : Store) (self : string) : bool * Store :=
  match st !! self with
  | None => (false, st)
  | Some s =>
    match is_healthy_cached_value s with
    | Some v => (v, st)
    | None =>
      match _is_healthy (S (base.size st)) st self ∅ with
      | Some (v, st') => (v, alter (set_cached v) self st')
      | None => (false, st)
      end
    end
  end.

(** [S3Snapshot.reason_broken] *)
Definition reason_broken (st : Store) (self : string) : option Reason * Store :=
  let '(healthy, st') := is_healthy st self in
  if healthy then (None, st') else (st' !! self ≫= _reason_broken, st').

(** a catalog as [S3SnapshotManager._snapshots] first holds it: nothing
    computed yet *)
Definition fresh (st : Store) : Prop :=
  ∀ n s, st !! n = Some s → _reason_broken s = None ∧ is_healthy_cached_value s = None.

(** [S3SnapshotManager._snapshots]: one snapshot object for each object of
    the bucket under the prefix, from its name (the key with the prefix
    stripped), its user metadata and its content length *)
Definition load_snapshots (objects : gmap string (gmap string string * Z)) : Store :=
  (fun o => mkS3Snapshot (fst o) (snd o) None None) <$> objects.

Record S3SnapshotManager := mkS3SnapshotManager {
  s3_prefix : string;
  _snapshots : Store
}.

(** [S3SnapshotManager.__init__]: the prefix always ends in one [/] *)
Definition S3SnapshotManager_init (prefix : string) (snapshots : Store) : S3SnapshotManager :=
  mkS3SnapshotManager (rstrip_slash prefix +:+ "/") snapshots.

(** *** ZFSSnapshot and ZFSSnapshotManager *)

(** a local snapshot holds its name and a reference to its parent object *)
#[warnings="-register-all"]
Inductive ZFSSnapshot :=
| mkZFSSnapshot (name : string) (parent : option ZFSSnapshot).

Definition zfs_name (z : ZFSSnapshot) : string :=
  match z with mkZFSSnapshot n _ => n end.

Definition zfs_parent (z : ZFSSnapshot) : option ZFSSnapshot :=
  match z with mkZFSSnapshot _ p => p end.

(** [ZFSSnapshot.__repr__] *)
Definition zfs_repr (z : ZFSSnapshot) : string :=
  "<Snapshot " +:+ zfs_name z +:+ " ["
  +:+ match zfs_parent z with Some p => zfs_name p | None => "" end +:+ "]>".

(** [print(z_snap.parent)] *)
Definition repr_parent (z : ZFSSnapshot) : string :=
  match zfs_parent z with Some p => zfs_repr p | None => "None" end.

(** [d[key] = value] on an [OrderedDict]: a known key keeps its place *)
Fixpoint od_set {V : Type} (key : string) (value : V) (d : list (string * V))
  : list (string * V) :=
  match d with
  | [] => [(key, value)]
  | (k, v) :: d' =>
    if String.eqb k key then (k, value) :: d' else (k, v) :: od_set key value d'
  end.

(** [d.get(key)] *)
Fixpoint od_get {V : Type} (key : string) (d : list (string * V)) : option V :=
  match d with
  | [] => None
  | (k, v) :: d' => if String.eqb k key then Some v else od_get key d'
  end.

(** [_build_snapshots]: the loop over the snapshot names of the
    filesystem, in the order [zfs list] gave them *)
Fixpoint _build_snapshots_loop (fs_name snapshot_prefix : string) (fs_snaps : list string)
    (parent : option ZFSSnapshot) (snapshots : list (string * ZFSSnapshot))
  : list (string * ZFSSnapshot) :=
  match fs_snaps with
  | [] => snapshots
  | snap_name :: rest =>
    if negb (String.prefix snapshot_prefix snap_name)
    then _build_snapshots_loop fs_name snapshot_prefix rest parent snapshots
    else
      let full_name := fs_name +:+ "@" +:+ snap_name in
      let zfs_snap := mkZFSSnapshot full_name parent in
      _build_snapshots_loop fs_name snapshot_prefix rest (Some zfs_snap)
                            (od_set full_name zfs_snap snapshots)
  end.

Definition _build_snapshots (fs_name snapshot_prefix : string) (fs_snaps : list string)
  : list (string * ZFSSnapshot) :=
  _build_snapshots_loop fs_name snapshot_prefix fs_snaps None [].

(** the manager: its cached [_snapshots] and what [zfs list] knows of
    datasets *)
Record ZFSSnapshotManager := mkZFSSnapshotManager {
  zfs_snapshots : list (string * ZFSSnapshot);
  datasets : list string
}.

(** [ZFSSnapshotManager.dataset_exists]: is the name among those that
    [datasets()] lists. [datasets] stands for the listed names that can
    compare equal to the name asked for, a [str]: the names that
    [datasets()] makes of the output of [zfs list] are [bytes], which never
    do, and that is the case of an empty [datasets]. *)
Definition dataset_exists (mgr : ZFSSnapshotManager) (dataset : string) : bool :=
  existsb (String.eqb dataset) (datasets mgr).

(** [ZFSSnapshotManager.get] *)
Definition zfs_get (mgr : ZFSSnapshotManager) (name : string) : option ZFSSnapshot :=
  od_get name (zfs_snapshots mgr).

(** [ZFSSnapshotManager.get_latest]; the text of the [SoftError], which
    quotes the configuration, is cut short *)
Definition get_latest (mgr : ZFSSnapshotManager) : Exception + ZFSSnapshot :=
  match last (map snd (zfs_snapshots mgr)) with
  | None => inl (SoftError "Nothing to backup")
  | Some z => inr z
  end.

(** *** PairManager

    What a method does is the list of its calls on the command executor and
    of the lines it prints, in order, with how it ended. *)

Inductive Call :=
| Shell (cmd : string)                                   (* [shell(cmd, capture=True)] *)
| Pipe (cmd1 cmd2 : string) (dry_run : bool) (estimated_size : Z)
| Print (text : string).

Record Run (A : Type) := mkRun {
  calls : list Call;
  result : Exception + A
}.
Arguments mkRun {A} calls result.
Arguments calls {A} r.
Arguments result {A} r.

Record PairManager := mkPairManager {
  s3_manager : S3SnapshotManager;
  zfs_manager : ZFSSnapshotManager;
  compressor : option string
}.

(** [PairManager._parse_estimated_size], on the [bytes] that the dry-run
    send wrote: the last line that is not empty, cut in two words, and the
    second word as an int *)
Definition _parse_estimated_size (output : string) : Text.Error + Z :=
  match last (List.filter (fun line => negb (String.eqb line "")) (Text.splitlines output)) with
  | None => inl Text.IndexError
  | Some size_line =>
    match Text.split size_line with
    | [_; size] =>
      match Text.int size with
      | Some n => inr n
      | None => inl Text.ValueError
      end
    | _ => inl Text.ValueError
    end
  end.

Section Pair.

(** [_parse_estimated_size(self._cmd.shell(cmd, capture=True))]: what the
    dry-run send of the volume manager reports for a command, parsed; an
    exception when the output does not parse *)
Variable send_estimate : string -> Exception + Z.

Variable self : PairManager.

(** [_snapshot_to_backup] *)
Definition _snapshot_to_backup (snap_name : option string) : Exception + ZFSSnapshot :=
  match snap_name with
  | None => get_latest (zfs_manager self)
  | Some n =>
    match zfs_get (zfs_manager self) n with
    | None => inl (Error ("Failed to get the snapshot " +:+ n))
    | Some z => inr z
    end
  end.

(** [_compress] *)
Definition _compress (cmd : string) : string :=
  match COMPRESSORS_get (compressor self) with
  | None => cmd
  | Some c => compress c +:+ " | " +:+ cmd
  end.

(** [_decompress] *)
Definition _decompress (cmd : string) (s3_snap : S3Snapshot) : string :=
  match COMPRESSORS_get (compressor_of s3_snap) with
  | None => cmd
  | Some c => decompress c +:+ " | " +:+ cmd
  end.

(** the list [meta] that [_pput_cmd] builds *)
Definition _pput_cmd_meta (estimated : Z) (parent : option string) : list string :=
  ["size=" +:+ pretty estimated]
  ++ match parent with
     | None => ["isfull=true"]
     | Some p => ["parent=" +:+ p]
     end
  ++ match compressor self with
     | Some c => ["compressor=" +:+ c]
     | None => []
     end.

(** [_pput_cmd] *)
Definition _pput_cmd (estimated : Z) (s3_prefix snap_name : string) (parent : option string)
  : string :=
  "pput --quiet --estimated " +:+ pretty estimated +:+ " "
  +:+ String.concat " " (map (fun m => "--meta " +:+ m) (_pput_cmd_meta estimated parent))
  +:+ " " +:+ s3_prefix +:+ snap_name.

(** [backup_full] *)
Definition backup_full (snap_name : option string) (dry_run : bool)
  : Run (list (string * Z)) :=
  match _snapshot_to_backup snap_name with
  | inl e => mkRun [] (inl e)
  | inr z_snap =>
    let probe := "zfs send -nvP " +:+ zfs_name z_snap in
    match send_estimate probe with
    | inl e => mkRun [Shell probe] (inl e)
    | inr estimated_size =>
      mkRun [Shell probe;
             Pipe ("zfs send '" +:+ zfs_name z_snap +:+ "'")
                  (_compress (_pput_cmd estimated_size (s3_prefix (s3_manager self))
                                        (zfs_name z_snap) None))
                  dry_run estimated_size]
            (inr [(zfs_name z_snap, estimated_size)])
    end
  end.

(** [backup_incremental], its [while True] loop: from [current] toward the
    older local snapshots *)
Fixpoint backup_walk (st : Store) (current : ZFSSnapshot) (to_upload : list ZFSSnapshot)
  : Exception + list ZFSSnapshot :=
  match s3_get st (Some (zfs_name current)) with
  | Some s3_snap =>
    if negb (fst (is_healthy st s3_snap))
    then inl (IntegrityError
                "Broken snapshot detected {s3_snap.name}, reason: '{s3_snap.reason_broken}'")
    else inr to_upload
  | None =>
    let to_upload := to_upload ++ [current] in
    match current with
    | mkZFSSnapshot _ None => inr to_upload
    | mkZFSSnapshot _ (Some parent) => backup_walk st parent to_upload
    end
  end.

(** [backup_incremental], its [for z_snap in reversed(to_upload)] loop *)
Fixpoint backup_uploads (dry_run : bool) (snaps : list ZFSSnapshot) (done : list Call)
    (uploaded_meta : list (string * Z)) : Run (list (string * Z)) :=
  match snaps with
  | [] => mkRun done (inr uploaded_meta)
  | z_snap :: rest =>
    let done := done ++ [Print (repr_parent z_snap); Print (zfs_repr z_snap)] in
    match zfs_parent z_snap with
    | None => mkRun done (inl (AttributeError "'NoneType' object has no attribute 'name'"))
    | Some parent =>
      let probe := "zfs send -nvP -i '" +:+ zfs_name parent +:+ "' '"
                   +:+ zfs_name z_snap +:+ "'" in
      let done := done ++ [Shell probe] in
      match send_estimate probe with
      | inl e => mkRun done (inl e)
      | inr estimated_size =>
        let send := "zfs send -i '" +:+ zfs_name parent +:+ "' '"
                    +:+ zfs_name z_snap +:+ "'" in
        backup_uploads dry_run rest
          (done ++ [Pipe send
                         (_compress (_pput_cmd estimated_size (s3_prefix (s3_manager self))
                                               (zfs_name z_snap) (Some (zfs_name parent))))
                         dry_run estimated_size])
          (uploaded_meta ++ [(zfs_name z_snap, estimated_size)])
      end
    end
  end.

(** [backup_incremental] *)
Definition backup_incremental (snap_name : option string) (dry_run : bool)
  : Run (list (string * Z)) :=
  match _snapshot_to_backup snap_name with
  | inl e => mkRun [] (inl e)
  | inr z_snap =>
    match backup_walk (_snapshots (s3_manager self)) z_snap [] with
    | inl e => mkRun [] (inl e)
    | inr to_upload => backup_uploads dry_run (rev to_upload) [] []
    end
  end.

(** [restore], its [while True] loop: from [current_snap] along the parent
    links of the remote snapshots. [fuel] bounds the number of turns; [None]
    is "bound reached". The result is [to_restore] and whether the loop
    ended on a snapshot that exists locally. *)
Fixpoint restore_walk (fuel : nat) (st : Store) (current_snap : string)
    (to_restore : list string) : option (Exception + (list string * option string)) :=
  match fuel with
  | O => None
  | S fuel' =>
    match zfs_get (zfs_manager self) current_snap with
    | Some _ => Some (inr (to_restore, Some current_snap))
    | None =>
      let '(healthy, st) := is_healthy st current_snap in
      if negb healthy
      then
        Some (inl (IntegrityError
                     ("Broken snapshot detected " +:+ current_snap +:+ ", reason: '"
                      +:+ match fst (reason_broken st current_snap) with
                          | Some r => reason_text r
                          | None => "None"
                          end +:+ "'")))
      else
        let to_restore := to_restore ++ [current_snap] in
        match st !! current_snap with
        | None => Some (inl (AttributeError "'NoneType' object has no attribute 'name'"))
        | Some s =>
          if is_full s then Some (inr (to_restore, None))
          else match parent st s with
               | None =>
                 Some (inl (AttributeError "'NoneType' object has no attribute 'name'"))
               | Some p => restore_walk fuel' st p to_restore
               end
        end
    end
  end.

(** the pipeline [restore] runs for one remote snapshot *)
Definition restore_pipe (dry_run force : bool) (name : string) (s3_snap : S3Snapshot) : Call :=
  Pipe ("zfs3backup_get " +:+ os_path_join (s3_prefix (s3_manager self)) name)
       (_decompress ("zfs recv " +:+ (if force then "-F " else "") +:+ name) s3_snap)
       dry_run (size s3_snap).

(** [restore]; the turns of the loop are bounded by the number of remote
    snapshots plus one ([restore_walk_total] below) *)
Definition restore (snap_name : string) (dry_run force : bool) : option (Run unit) :=
  match split "@" snap_name with
  | [dataset; snapshot_tag] =>
    if negb force && dataset_exists (zfs_manager self) dataset
    then Some (mkRun [Print ("The dataset: " +:+ dataset +:+ " already exists locally; "
                             +:+ "if you choose to overwrite it specify '--force'")]
                     (inr tt))
    else
      let st := _snapshots (s3_manager self) in
      match s3_get st (Some snap_name) with
      | None => Some (mkRun [] (inl (Error ("Sorry, no such snapshot: " +:+ snap_name))))
      | Some current_snap =>
        match restore_walk (S (base.size st)) st current_snap [] with
        | None => None
        | Some (inl e) => Some (mkRun [] (inl e))
        | Some (inr (to_restore, local)) =>
          Some (mkRun
                  (match local with
                   | Some n => [Print ("Snapshot already exists locally. If you'd like to "
                                       +:+ "rollback to it you can run 'zfs rollback "
                                       +:+ n +:+ "'")]
                   | None => []
                   end
                   ++ omap (fun n => restore_pipe dry_run force n <$> st !! n)
                           (rev to_restore))
                  (inr tt))
        end
      end
  | _ => Some (mkRun [] (inl (ValueError "not enough or too many values to unpack")))
  end.

End Pair.

(** *** The spec's words, to compare the code with

    Lineage health as the spec gives it: a walk from the snapshot toward
    its root with a [visited] set, first match wins: full is healthy; a node
    already visited is [cycle]; a parent that is named but does not exist
    (or no parent at all) is [missing_parent]; else the parent decides, with
    the node added to [visited]: healthy if the parent is, [cycle] if the
    parent's reason is [cycle], else [parent_broken]. [None] is "bound
    reached" or "no such snapshot". *)

Inductive Health :=
| healthy
| broken (r : Reason).

Definition inherit (parent_health : Health) : Health :=
  match parent_health with
  | healthy => healthy
  | broken CYCLE => broken CYCLE
  | broken _ => broken PARENT_BROKEN
  end.

Fixpoint health_upto (bound : nat) (st : Store) (self : string) (visited : gset string)
  : option Health :=
  match bound with
  | O => None
  | S bound' =>
    match st !! self with
    | None => None
    | Some s =>
      if is_full s then Some healthy
      else if bool_decide (self ∈ visited) then Some (broken CYCLE)
      else match parent st s with
           | None => Some (broken MISSING_PARENT)
           | Some p => inherit <$> health_upto bound' st p (visited ∪ {[self]})
           end
    end
  end.

Definition health (st : Store) (self : string) : option Health :=
  health_upto (S (base.size st)) st self ∅.

(** what [is_healthy] answers for a health *)
Definition is_ok (h : Health) : bool :=
  match h with
  | healthy => true
  | broken _ => false
  end.

(** the snapshot [k] parent links up from [n], every snapshot on the way
    before it being there and not full *)
Fixpoint ancestor (st : Store) (k : nat) (n : string) : option string :=
  match k with
  | O => Some n
  | S k' =>
    match st !! n with
    | Some s => if is_full s then None else parent st s ≫= ancestor st k'
    | None => None
    end
  end.

(** the reason a health stands for, as [reason_broken] reports it *)
Definition reason_of (h : Health) : option Reason :=
  match h with
  | healthy => None
  | broken r => Some r
  end.

(** *** What the resolver leaves as it is *)

(** two states of the catalog with the same snapshots, the same metadata,
    sizes and cached values: they differ in [_reason_broken] at most *)
Definition same_catalog (st st' : Store) : Prop :=
  forall n,
    (fun s => (_metadata s, size s, is_healthy_cached_value s)) <$> st !! n
    = (fun s => (_metadata s, size s, is_healthy_cached_value s)) <$> st' !! n.

(** two states of the catalog with the same snapshots and metadata *)
Definition same_metadata (st st' : Store) : Prop :=
  forall n, (fun s => (_metadata s, size s)) <$> st !! n
            = (fun s => (_metadata s, size s)) <$> st' !! n.

(** every cached value of [is_healthy] is the health of its snapshot *)
Definition cache_sound (st : Store) : Prop :=
  forall n s v,
    st !! n = Some s -> is_healthy_cached_value s = Some v ->
    exists h, health st n = Some h /\ v = is_ok h.

(** *** Chains

    A chain of remote snapshots from a snapshot back to its root: each one
    but the last is not full and names the next as its parent; the last one
    is full. *)
Fixpoint is_chain (st : Store) (chain : list string) : Prop :=
  match chain with
  | [] => False
  | n :: rest =>
    exists s, st !! n = Some s
              /\ match rest with
                 | [] => is_full s = true
                 | p :: _ => is_full s = false /\ parent_name s = Some p /\ is_chain st rest
                 end
  end.

(** the local snapshots from one back to the oldest, along [parent] *)
Fixpoint zfs_lineage (z : ZFSSnapshot) : list ZFSSnapshot :=
  match z with
  | mkZFSSnapshot _ None => [z]
  | mkZFSSnapshot _ (Some p) => z :: zfs_lineage p
  end.

(** the first snapshots of a list of locals whose names are not in the
    remote catalog, up to the first one that is there *)
Fixpoint missing_remotely (st : Store) (path : list ZFSSnapshot) : list ZFSSnapshot :=
  match path with
  | [] => []
  | z :: rest =>
    match st !! zfs_name z with
    | None => z :: missing_remotely st rest
    | Some _ => []
    end
  end.

(** the first local of a list whose name is in the remote catalog *)
Fixpoint first_present (st : Store) (path : list ZFSSnapshot) : option string :=
  match path with
  | [] => None
  | z :: rest =>
    match st !! zfs_name z with
    | None => first_present st rest
    | Some _ => Some (zfs_name z)
    end
  end.

(** *** One incremental upload, in the spec's words

    A dry-run send with an incremental reference to the local parent, then
    the send itself piped into the compressor, if any, and the uploader,
    whose metadata names that parent; with what the code prints before. *)
Definition incremental_probe (z parent : ZFSSnapshot) : string :=
  "zfs send -nvP -i '" +:+ zfs_name parent +:+ "' '" +:+ zfs_name z +:+ "'".

Definition incremental_upload (self : PairManager) (estimate : string -> Z) (dry_run : bool)
    (z : ZFSSnapshot) : list Call :=
  match zfs_parent z with
  | None => []
  | Some parent =>
    let estimated := estimate (incremental_probe z parent) in
    [Print (repr_parent z); Print (zfs_repr z);
     Shell (incremental_probe z parent);
     Pipe ("zfs send -i '" +:+ zfs_name parent +:+ "' '" +:+ zfs_name z +:+ "'")
          (_compress self (_pput_cmd self estimated (s3_prefix (s3_manager self))
                                     (zfs_name z) (Some (zfs_name parent))))
          dry_run estimated]
  end.

Definition incremental_size (estimate : string -> Z) (z : ZFSSnapshot) : string * Z :=
  (zfs_name z,
   match zfs_parent z with
   | Some parent => estimate (incremental_probe z parent)
   | None => 0
   end).

(** *** Sample catalogs

    The remote catalog and the managers of the scenarios of the spec. *)

(** a full snapshot and one increment on it, both compressed *)
Definition compressed_chain : gmap string (gmap string string * Z) :=
  list_to_map
    [("D@a", (list_to_map [("isfull", "true"); ("compressor", "pigz1")], 100));
     ("D@b", (list_to_map [("parent", "D@a"); ("compressor", "pigz1")], 40))].

(** a catalog with every kind of lineage: a full snapshot and its child,
    a snapshot whose parent is gone and its child, two snapshots that name
    each other and a child of one of them *)
Definition mixed_catalog : gmap string (gmap string string * Z) :=
  list_to_map
    [("D@a", (list_to_map [("isfull", "true")], 100));
     ("D@b", (list_to_map [("parent", "D@a")], 10));
     ("D@d", (list_to_map [("parent", "D@c")], 10));
     ("D@e", (list_to_map [("parent", "D@d")], 10));
     ("D@x", (list_to_map [("parent", "D@y")], 10));
     ("D@y", (list_to_map [("parent", "D@x")], 10));
     ("D@z", (list_to_map [("parent", "D@x")], 10))].

(** nothing local, the compressed chain in the bucket *)
Definition restore_manager : PairManager :=
  mkPairManager (S3SnapshotManager_init "zfs3backup/" (load_snapshots compressed_chain))
                (mkZFSSnapshotManager [] []) None.

(** two local snapshots of [D], nothing in the bucket *)
Definition first_backup_manager : PairManager :=
  mkPairManager (S3SnapshotManager_init "zfs3backup/" (load_snapshots ∅))
                (mkZFSSnapshotManager (_build_snapshots "D" "" ["a"; "b"]) ["D"])
                (Some "pigz1").

(** three local snapshots of [D], the oldest one in the bucket *)
Definition later_backup_manager : PairManager :=
  mkPairManager (S3SnapshotManager_init "zfs3backup/"
                   (load_snapshots (list_to_map [("D@a", (list_to_map [("isfull", "true")], 100))])))
                (mkZFSSnapshotManager (_build_snapshots "D" "" ["a"; "b"; "c"]) ["D"])
                (Some "pigz1").

(** three local snapshots of [D]; in the bucket the oldest one and the
    newest one, whose parent is not there *)
Definition broken_backup_manager : PairManager :=
  mkPairManager (S3SnapshotManager_init "zfs3backup/"
                   (load_snapshots
                      (list_to_map [("D@a", (list_to_map [("isfull", "true")], 100));
                                    ("D@c", (list_to_map [("parent", "D@b")], 10))])))
                (mkZFSSnapshotManager (_build_snapshots "D" "" ["a"; "b"; "c"]) ["D"])
                None.

(** a dry-run send that always reports 42 bytes *)
Definition estimate_42 (cmd : string) : Exception + Z := inr 42.

(** *** Part of a chain

    The remote snapshots from [cur] along the parent links: either up to a
    full snapshot, the last of [seg], or up to the snapshot [stop], which is
    not in [seg] and is the parent of its last member ([cur] itself when
    [seg] is empty). *)
Fixpoint is_segment (st : Store) (cur : string) (seg : list string) (stop : option string)
  : Prop :=
  match seg with
  | [] => stop = Some cur
  | n :: rest =>
    n = cur
    /\ exists s, st !! n = Some s
         /\ if is_full s then rest = [] /\ stop = None
            else exists p, parent_name s = Some p /\ is_segment st p rest stop
  end.

(** the older snapshot of the compressed chain is there locally *)
Definition partial_restore_manager : PairManager :=
  mkPairManager (S3SnapshotManager_init "zfs3backup/" (load_snapshots compressed_chain))
                (mkZFSSnapshotManager (_build_snapshots "D" "" ["a"]) []) None.

(** *** What an upload leaves in the bucket

    The snapshot object that the catalog holds for a snapshot once its
    pipeline has run: [pput] gives the store the user metadata that its
    [parse_metadata] makes of the [--meta] arguments of [_pput_cmd], the
    object is listed under the name of the snapshot, and [content_length]
    is the length of what was stored. *)
Definition uploaded_snapshot (self : PairManager) (estimated : Z) (parent : option string)
    (content_length : Z) : option S3Snapshot :=
  (fun headers => mkS3Snapshot headers content_length None None)
    <$> Pput.parse_metadata (_pput_cmd_meta self estimated parent).

(** the catalog, loaded again after the uploads of [backup_incremental] *)
Fixpoint catalog_after_uploads (self : PairManager) (estimate : string -> Z)
    (content_length : string -> Z) (st : Store) (uploads : list ZFSSnapshot) : Store :=
  match uploads with
  | [] => st
  | z :: rest =>
    match zfs_parent z with
    | None => st
    | Some parent =>
      match uploaded_snapshot self (estimate (incremental_probe z parent))
                              (Some (zfs_name parent)) (content_length (zfs_name z)) with
      | Some s =>
        catalog_after_uploads self estimate content_length (<[zfs_name z := s]> st) rest
      | None => st
      end
    end
  end.

(** local snapshots to upload, from the oldest: the first one is an
    increment on the snapshot named [base], each other one on the one
    before it *)
Fixpoint on_each_other (base : string) (uploads : list ZFSSnapshot) : Prop :=
  match uploads with
  | [] => True
  | u :: rest =>
    (exists p, zfs_parent u = Some p /\ zfs_name p = base) /\ on_each_other (zfs_name u) rest
  end.

(** *** Asking for the health of several snapshots

    [reason_broken] of each name of a list, one after the other on the
    same catalog, as the status listing does for the snapshots it shows. *)
Fixpoint reason_broken_each (st : Store) (names : list string)
  : list (option Reason) * Store :=
  match names with
  | [] => ([], st)
  | n :: rest =>
    let '(r, st') := reason_broken st n in
    let '(rs, st'') := reason_broken_each st' rest in
    (r :: rs, st'')
  end.

(** every reason that is recorded in [st] is the reason of the health of
    its snapshot in the catalog [st0] *)
Definition reasons_sound (st0 st : Store) : Prop :=
  forall n s r, st !! n = Some s -> _reason_broken s = Some r -> health st0 n = Some (broken r).

(** a catalog [st] that was loaded as [st0] and asked about since: the
    same snapshots and metadata, and what was recorded is right *)
Definition resolved (st0 st : Store) : Prop :=
  same_metadata st0 st
  /\ cache_sound st
  /\ reasons_sound st0 st
  /\ (forall n s, st !! n = Some s -> is_healthy_cached_value s = Some false ->
        is_Some (_reason_broken s)).

(** *** Loading the catalog from the bucket *)

(** [s[n:]] *)
Fixpoint drop_chars (n : nat) (s : string) : string :=
  match n, s with
  | O, _ => s
  | S n', String _ r => drop_chars n' r
  | S _, EmptyString => EmptyString
  end.

(** a bucket: the keys of its objects in the order its listing gives
    them, each with the user metadata and the content length of its object *)
Definition Bucket : Type := list (string * (gmap string string * Z)).

(** [bucket.objects.filter(Prefix=prefix)] *)
Definition objects_filter (prefix : string) (bucket : Bucket) : Bucket :=
  List.filter (fun o => String.prefix prefix (fst o)) bucket.

(** [S3SnapshotManager._snapshots], its loop over the listed keys *)
Fixpoint _snapshots_loop (strip_chars : nat) (keys : Bucket) (snapshots : Store) : Store :=
  match keys with
  | [] => snapshots
  | (key, (metadata, content_length)) :: rest =>
    let name := drop_chars strip_chars key in
    _snapshots_loop strip_chars rest
      (<[name := mkS3Snapshot metadata content_length None None]> snapshots)
  end.

(** [S3SnapshotManager._snapshots], from the bucket *)
Definition _snapshots_of (s3_prefix snapshot_prefix : string) (bucket : Bucket) : Store :=
  let prefix := os_path_join s3_prefix snapshot_prefix in
  let strip_chars := String.length s3_prefix in
  _snapshots_loop strip_chars (objects_filter prefix bucket) ∅.

(** *** Listing the pairs *)

(** [ZFSSnapshotManager.list] *)
Definition zfs_list (mgr : ZFSSnapshotManager) : list ZFSSnapshot :=
  map snd (zfs_snapshots mgr).

(** [sorted(..., key=operator.attrgetter('name'))]: names compare as
    Python compares [str], character by character on the code points *)
Fixpoint insert_by_name {A : Type} (x : string * A) (l : list (string * A))
  : list (string * A) :=
  match l with
  | [] => [x]
  | y :: l' => if String.leb (fst x) (fst y) then x :: l else y :: insert_by_name x l'
  end.

Definition sorted_by_name {A : Type} (l : list (string * A)) : list (string * A) :=
  fold_right insert_by_name [] l.

(** [S3SnapshotManager.list]: the snapshot objects, each with its name *)
Definition s3_list (mgr : S3SnapshotManager) : list (string * S3Snapshot) :=
  sorted_by_name (map_to_list (_snapshots mgr)).

(** a pair of [PairManager.list]: the remote snapshot, with its name, and
    the local one, each [None] when there is no such snapshot *)
Definition Pair : Type := option (string * S3Snapshot) * option ZFSSnapshot.

(** [PairManager.list], its loop over the local snapshots *)
Fixpoint list_locals (st : Store) (locals : list ZFSSnapshot) (seen : gset string)
    (pairs : list Pair) : gset string * list Pair :=
  match locals with
  | [] => (seen, pairs)
  | z_snap :: rest =>
    list_locals st rest (seen ∪ {[zfs_name z_snap]})
      (pairs ++ [((fun s => (zfs_name z_snap, s)) <$> st !! zfs_name z_snap, Some z_snap)])
  end.

(** [PairManager.list], its loop over the remote snapshots *)
Fixpoint list_remotes (remotes : list (string * S3Snapshot)) (seen : gset string)
    (pairs : list Pair) : list Pair :=
  match remotes with
  | [] => pairs
  | s3_snap :: rest =>
    if bool_decide (fst s3_snap ∉ seen)
    then list_remotes rest seen (pairs ++ [(Some s3_snap, None)])
    else list_remotes rest seen pairs
  end.

(** [PairManager.list] *)
Definition pair_list (self : PairManager) : list Pair :=
  let '(seen, pairs) :=
    list_locals (_snapshots (s3_manager self)) (zfs_list (zfs_manager self)) ∅ [] in
  list_remotes (s3_list (s3_manager self)) seen pairs.

(** what the loop of [_build_snapshots] has made of the snapshot names
    [seen] that it kept so far: one snapshot for each, under its full name
    and in their order; [parent] is the last one; and the way back from
    each along [parent] goes through all those kept before it *)
Definition built_ok (fs_name : string) (seen : list string) (parent : option ZFSSnapshot)
    (snapshots : list (string * ZFSSnapshot)) : Prop :=
  let full := fun n : string => fs_name +:+ "@" +:+ n in
  map fst snapshots = map full seen
  /\ map (fun kz => zfs_name (snd kz)) snapshots = map full seen
  /\ last (map snd snapshots) = parent
  /\ match parent with
     | None => seen = []
     | Some z => map zfs_name (zfs_lineage z) = rev (map full seen)
     end
  /\ forall front n back,
       seen = front ++ n :: back ->
       exists z, od_get (full n) snapshots = Some z
                 /\ map zfs_name (zfs_lineage z) = rev (map full (front ++ [n])).

(** the name a pair is listed under *)
Definition pair_name (p : Pair) : option string :=
  match p with
  | (_, Some z) => Some (zfs_name z)
  | (Some s, None) => Some (fst s)
  | (None, None) => None
  end.

End Snap.

(** * Properties of the text helpers *)

Module TextProps.
Import Text.

Local Open Scope string_scope.
Local Open Scope list_scope.

Lemma append_cons (x : ascii) (a b : string) : String x a +:+ b = String x (a +:+ b).
Proof. reflexivity. Qed.

Lemma append_assoc (a b c : string) : (a +:+ b) +:+ c = a +:+ (b +:+ c).
Proof. induction a as [|x a IH]; [reflexivity|]. now rewrite !append_cons, IH. Qed.

Lemma append_nil_r (a : string) : a +:+ "" = a.
Proof. induction a as [|x a IH]; [reflexivity|]. now rewrite append_cons, IH. Qed.

Lemma length_append (a b : string) :
  String.length (a +:+ b) = (String.length a + String.length b)%nat.
Proof.
  induction a as [|x a IH]; [reflexivity|]. rewrite append_cons. cbn [String.length].
  now rewrite IH.
Qed.

Lemma chars_append (a b : string) :
  list_ascii_of_string (a +:+ b) = list_ascii_of_string a ++ list_ascii_of_string b.
Proof.
  induction a as [|x a IH]; [reflexivity|]. rewrite append_cons. cbn [list_ascii_of_string app].
  now rewrite IH.
Qed.

(** ** Decimal numerals *)

Lemma digit_value_pretty_N_char (d : N) :
  (d < 10)%N -> digit_value (pretty_N_char d) = Some (Z.of_N d).
Proof.
  intros Hd.
  assert (d = 0 \/ d = 1 \/ d = 2 \/ d = 3 \/ d = 4 \/ d = 5 \/ d = 6 \/ d = 7 \/ d = 8
          \/ d = 9)%N as H by lia.
  repeat (destruct H as [->|H]; [reflexivity|]). now subst.
Qed.

Lemma pretty_N_go_decimal (x : N) :
  (0 < x)%N ->
  forall s, exists ds,
    pretty_N_go x s = ds +:+ s
    /\ ds <> ""
    /\ digits ds
    /\ forall r acc b,
         int_digits (ds +:+ r) acc b
         = int_digits r (acc * 10 ^ Z.of_nat (String.length ds) + Z.of_N x) true.
Proof.
  induction (N.lt_wf_0 x) as [x _ IH]. intros Hx s.
  rewrite pretty_N_go_step by exact Hx.
  assert (Hd : (x mod 10 < 10)%N) by (apply N.mod_lt; lia).
  pose proof (digit_value_pretty_N_char _ Hd) as Hdv.
  set (c := pretty_N_char (x mod 10)) in *.
  assert (Hxsplit : Z.of_N x = Z.of_N (x / 10) * 10 + Z.of_N (x mod 10)).
  { rewrite (N.div_mod x 10) at 1 by lia. lia. }
  destruct (N.eq_dec (x / 10)%N 0%N) as [H0|Hn0].
  - rewrite H0, pretty_N_go_0. exists (String c "").
    split; [reflexivity|]. split; [discriminate|]. split.
    + constructor; [rewrite Hdv; eauto|constructor].
    + intros r acc b. rewrite append_cons. cbn [int_digits String.length]. rewrite Hdv.
      f_equal. rewrite Hxsplit, H0. change (Z.of_N 0) with 0. lia.
  - destruct (IH (x / 10)%N) with (s := String c s) as (ds & Hgo & Hne & Hds & Hint).
    { apply N.div_lt; lia. }
    { lia. }
    exists (ds +:+ String c ""). rewrite Hgo, append_assoc.
    split; [reflexivity|]. split; [destruct ds; [contradiction|discriminate]|]. split.
    + unfold digits. rewrite chars_append. apply Forall_app. split; [exact Hds|].
      constructor; [rewrite Hdv; eauto|constructor].
    + intros r acc b. rewrite append_assoc, Hint, append_cons. cbn [int_digits]. rewrite Hdv.
      f_equal. rewrite length_append. cbn [String.length].
      rewrite Nat2Z.inj_add, Z.pow_add_r by lia. change (Z.of_nat 1) with 1.
      rewrite Hxsplit. lia.
Qed.

(** the numeral of a number that is not negative *)
Lemma pretty_N_decimal (x : N) :
  exists ds, pretty x = ds /\ ds <> "" /\ digits ds
             /\ int_digits ds 0 false = Some (Z.of_N x).
Proof.
  unfold pretty, pretty_N. destruct (decide (x = 0%N)) as [->|Hx].
  - exists "0". split; [reflexivity|]. split; [discriminate|]. split; [|reflexivity].
    constructor; [cbn; eauto|constructor].
  - destruct (pretty_N_go_decimal x ltac:(lia) "") as (ds & Hgo & Hne & Hds & Hint).
    rewrite append_nil_r in Hgo. exists ds. repeat split; try assumption.
    specialize (Hint "" 0 false). rewrite append_nil_r in Hint. rewrite Hint.
    cbn [int_digits]. f_equal; lia.
Qed.

(** the numeral of an integer: digits, after [-] when it is negative *)
Lemma pretty_Z_decimal (n : Z) :
  exists ds, digits ds /\ ds <> ""
             /\ int_digits ds 0 false = Some (Z.abs n)
             /\ pretty n = (if (n <? 0)%Z then "-" else "") +:+ ds.
Proof.
  destruct n as [|p|p].
  - exists "0". split; [|repeat split; discriminate].
    constructor; [cbn; eauto|constructor].
  - destruct (pretty_N_decimal (Npos p)) as (ds & Hp & Hne & Hds & Hint).
    exists ds. repeat split; assumption.
  - destruct (pretty_N_decimal (Npos p)) as (ds & Hp & Hne & Hds & Hint).
    exists ds. repeat split; try assumption. unfold pretty, pretty_Z.
    cbn [Z.ltb Z.compare]. now rewrite <- Hp.
Qed.


(** ** What a digit is not *)

Lemma digit_code (c : ascii) :
  is_Some (digit_value c) -> (48 <= N_of_ascii c <= 57)%N.
Proof.
  unfold digit_value. cbv zeta.
  destruct (N.leb_spec 48 (N_of_ascii c)), (N.leb_spec (N_of_ascii c) 57); cbn [andb];
    intros [? Hv]; try discriminate. lia.
Qed.

Ltac by_code H :=
  cbv beta delta [is_space is_unicode_space is_ascii is_break upper_char lower_char] zeta;
  repeat match goal with
  | |- context [(?a <=? ?b)%N] => destruct (N.leb_spec a b)
  | |- context [(?a <? ?b)%N] => destruct (N.ltb_spec a b)
  | |- context [(?a =? ?b)%N] => destruct (N.eqb_spec a b)
  | |- context [Ascii.eqb ?a ?b] =>
    destruct (Ascii.eqb_spec a b) as [->|];
    [cbn in H; lia|]
  end; cbn [andb orb negb]; try reflexivity; try lia.

Lemma digit_plain (c : ascii) :
  is_Some (digit_value c) ->
  is_space c = false /\ is_unicode_space c = false /\ is_break c = false
  /\ is_ascii c = true /\ upper_char c = c.
Proof.
  intros H. apply digit_code in H. repeat split; by_code H.
Qed.

Lemma digit_no_sign_or_unit (c c' : ascii) :
  is_Some (digit_value c) ->
  In c' ["+"; "-"; "T"; "G"; "M"; "K"; "_"]%char -> Ascii.eqb c c' = false.
Proof.
  intros H Hin. apply digit_code in H. destruct (Ascii.eqb_spec c c') as [->|]; [|reflexivity].
  cbn in Hin. repeat (destruct Hin as [<-|Hin]; [cbn in H; lia|]). destruct Hin.
Qed.

(** ** Stripping *)

Lemma lstrip_free (space : ascii -> bool) (s : string) : free_of space s -> lstrip space s = s.
Proof.
  destruct s as [|c r]; [reflexivity|]. intros H. apply List.Forall_inv in H.
  cbn [lstrip]. now rewrite H.
Qed.

Lemma rstrip_free (space : ascii -> bool) (s : string) : free_of space s -> rstrip space s = s.
Proof.
  induction s as [|c r IH]; [reflexivity|]. intros H.
  pose proof (List.Forall_inv H) as Hc. apply List.Forall_inv_tail in H.
  cbn [rstrip]. rewrite (IH H), Hc. now destruct r.
Qed.

Lemma strip_free (space : ascii -> bool) (s : string) : free_of space s -> strip space s = s.
Proof. intros H. unfold strip. rewrite rstrip_free by exact H. now apply lstrip_free. Qed.

Lemma rstrip_spaces (space : ascii -> bool) (s : string) :
  Forall (fun c => space c = true) (list_ascii_of_string s) -> rstrip space s = "".
Proof.
  induction s as [|c r IH]; [reflexivity|]. intros H.
  pose proof (List.Forall_inv H) as Hc. apply List.Forall_inv_tail in H.
  cbn [rstrip]. now rewrite (IH H), Hc.
Qed.

Lemma free_of_append (kind : ascii -> bool) (a b : string) :
  free_of kind (a +:+ b) <-> free_of kind a /\ free_of kind b.
Proof. unfold free_of. rewrite chars_append. apply List.Forall_app. Qed.

Lemma digits_free (kind : ascii -> bool) (s : string) :
  (forall c, is_Some (digit_value c) -> kind c = false) -> digits s -> free_of kind s.
Proof. intros Hk H. eapply List.Forall_impl; [|exact H]. exact Hk. Qed.

(** ** The last character *)

Lemma last_char_snoc (a : string) (c : ascii) : last_char (a +:+ String c "") = Some (a, c).
Proof.
  induction a as [|x a IH]; [reflexivity|]. rewrite append_cons. cbn [last_char].
  now rewrite IH.
Qed.

Lemma snoc_of_nonempty (s : string) :
  s <> "" -> exists front c, s = front +:+ String c "".
Proof.
  induction s as [|x [|y r] IH]; intros Hs; [contradiction|exists "", x; reflexivity|].
  destruct IH as (front & c & ->); [discriminate|]. exists (String x front), c. reflexivity.
Qed.

(** ** Case *)

Lemma upper_append (a b : string) : upper (a +:+ b) = upper a +:+ upper b.
Proof.
  induction a as [|x a IH]; [reflexivity|]. rewrite append_cons. cbn [upper].
  now rewrite IH.
Qed.

Lemma upper_fixed (s : string) :
  Forall (fun c => upper_char c = c) (list_ascii_of_string s) -> upper s = s.
Proof.
  induction s as [|x a IH]; [reflexivity|]. intros H.
  pose proof (List.Forall_inv H) as Hc. apply List.Forall_inv_tail in H.
  cbn [upper]. now rewrite Hc, (IH H).
Qed.

Lemma all_ascii_append (a b : string) : all_ascii (a +:+ b) = all_ascii a && all_ascii b.
Proof.
  induction a as [|x a IH]; [reflexivity|]. rewrite append_cons. cbn [all_ascii].
  now rewrite IH, andb_assoc.
Qed.

Lemma all_ascii_Forall (s : string) :
  Forall (fun c => is_ascii c = true) (list_ascii_of_string s) -> all_ascii s = true.
Proof.
  induction s as [|x a IH]; [reflexivity|]. intros H.
  pose proof (List.Forall_inv H) as Hc. apply List.Forall_inv_tail in H.
  cbn [all_ascii]. now rewrite Hc, (IH H).
Qed.

(** ** Numerals read back *)

(** the numeral of an integer, with what the parsers make of it *)
Lemma numeral (n : Z) :
  int (pretty n) = Some n
  /\ pretty n <> ""
  /\ free_of is_space (pretty n) /\ free_of is_unicode_space (pretty n)
  /\ free_of is_break (pretty n)
  /\ all_ascii (pretty n) = true
  /\ upper (pretty n) = pretty n
  /\ exists front d, pretty n = front +:+ String d "" /\ is_Some (digit_value d).
Proof.
  destruct (pretty_Z_decimal n) as (ds & Hds & Hne & Hint & ->).
  assert (Hplain : Forall (fun c => is_space c = false /\ is_unicode_space c = false
                                    /\ is_break c = false
                                    /\ is_ascii c = true /\ upper_char c = c)
                          (list_ascii_of_string ((if (n <? 0)%Z then "-" else "") +:+ ds))).
  { rewrite chars_append. apply List.Forall_app. split.
    - destruct (n <? 0)%Z; repeat constructor.
    - eapply List.Forall_impl; [|exact Hds]. exact digit_plain. }
  assert (Hlast : exists front d, ds = front +:+ String d "" /\ is_Some (digit_value d)).
  { destruct (snoc_of_nonempty ds Hne) as (front & d & ->). exists front, d.
    split; [reflexivity|]. unfold digits in Hds. rewrite chars_append in Hds.
    apply List.Forall_app in Hds as [_ Hd]. now apply List.Forall_inv in Hd. }
  split; [|split; [|split; [|split; [|split; [|split; [|split]]]]]].
  - unfold int. rewrite strip_free
      by (eapply List.Forall_impl; [|exact Hplain]; now intros c (? & _)).
    destruct ds as [|c ds']; [contradiction|].
    pose proof (List.Forall_inv Hds) as Hc. cbn [list_ascii_of_string] in Hc.
    destruct (Z.ltb_spec n 0) as [Hneg|Hpos].
    + change ("-" +:+ String c ds') with (String "-" (String c ds')). cbv beta iota.
      change (Ascii.eqb "-" "+") with false. change (Ascii.eqb "-" "-") with true.
      cbv beta iota. rewrite Hint. cbn. f_equal. lia.
    + change ("" +:+ String c ds') with (String c ds'). cbv beta iota.
      rewrite !(digit_no_sign_or_unit c) by (exact Hc || (cbn; tauto)).
      rewrite Hint. f_equal. lia.
  - destruct (n <? 0)%Z; [discriminate|]. destruct ds; [contradiction|discriminate].
  - eapply List.Forall_impl; [|exact Hplain]. now intros c (? & _).
  - eapply List.Forall_impl; [|exact Hplain]. now intros c (_ & ? & _).
  - eapply List.Forall_impl; [|exact Hplain]. now intros c (_ & _ & ? & _).
  - apply all_ascii_Forall. eapply List.Forall_impl; [|exact Hplain].
    now intros c (_ & _ & _ & ? & _).
  - apply upper_fixed. eapply List.Forall_impl; [|exact Hplain].
    now intros c (_ & _ & _ & _ & ?).
  - destruct Hlast as (front & d & -> & Hd).
    exists ((if (n <? 0)%Z then "-" else "") +:+ front), d.
    split; [now rewrite append_assoc|exact Hd].
Qed.

End TextProps.

Module LinesProps.
Import Text TextProps.
Local Open Scope string_scope.
Local Open Scope list_scope.

Lemma break_is_space (c : ascii) : is_break c = true -> is_space c = true.
Proof.
  unfold is_break. destruct (Ascii.eqb_spec c "010") as [->|_]; [reflexivity|].
  destruct (Ascii.eqb_spec c "013") as [->|_]; [reflexivity|discriminate].
Qed.

Lemma not_space_not_break (c : ascii) : is_space c = false -> is_break c = false.
Proof.
  intros H. destruct (is_break c) eqn:Hb; [|reflexivity].
  apply break_is_space in Hb. congruence.
Qed.

Lemma not_break (c : ascii) :
  is_break c = false -> Ascii.eqb c "010" = false /\ Ascii.eqb c "013" = false.
Proof. unfold is_break. now destruct (Ascii.eqb c "010"), (Ascii.eqb c "013"). Qed.

(** the text up to a line feed, and the text after it *)
Lemma splitlines_from_line_feed (rest : string) (n : nat) :
  forall (b line : string),
    (String.length b <= n)%nat ->
    splitlines_from (b +:+ String "010" rest) line
    = splitlines_from (b +:+ String "010" "") line ++ splitlines_from rest "".
Proof.
  induction n as [|n IH]; intros [|c b] line Hlen; cbn [String.length] in Hlen; try lia;
    try reflexivity.
  rewrite !append_cons. cbn [splitlines_from].
  destruct (Ascii.eqb c "010"); [cbn [app]; f_equal; apply IH; lia|].
  destruct (Ascii.eqb c "013"); [|apply IH; lia].
  cbn [app]. f_equal. destruct b as [|c' b']; [reflexivity|].
  rewrite !append_cons. destruct (Ascii.eqb c' "010").
  - apply IH. cbn [String.length] in Hlen. lia.
  - rewrite <- !append_cons. apply IH. lia.
Qed.

(** a last line that ends in a line feed *)
Lemma splitlines_from_last (y : string) :
  free_of is_break y ->
  forall line, splitlines_from (y +:+ String "010" "") line = [line +:+ y].
Proof.
  induction y as [|c y IH]; intros Hy line.
  - cbn. now rewrite append_nil_r.
  - pose proof (List.Forall_inv Hy) as Hc. apply List.Forall_inv_tail in Hy.
    apply not_break in Hc as [H1 H2].
    rewrite append_cons. cbn [splitlines_from]. rewrite H1, H2, (IH Hy).
    now rewrite append_assoc.
Qed.

(** text made of line ends has empty lines only *)
Lemma splitlines_from_breaks (n : nat) :
  forall s, (String.length s <= n)%nat ->
    Forall (fun c => is_break c = true) (list_ascii_of_string s) ->
    Forall (fun line => line = "") (splitlines_from s "").
Proof.
  induction n as [|n IH]; intros [|c s] Hlen Hs; cbn [String.length] in Hlen; try lia;
    try constructor.
  pose proof (List.Forall_inv Hs) as Hc. apply List.Forall_inv_tail in Hs.
  cbn [splitlines_from]. unfold is_break in Hc.
  destruct (Ascii.eqb c "010"); [constructor; [reflexivity|apply IH; [lia|exact Hs]]|].
  destruct (Ascii.eqb c "013"); [|discriminate].
  constructor; [reflexivity|]. destruct s as [|c' s']; [constructor|].
  destruct (Ascii.eqb c' "010").
  - apply IH; [cbn [String.length] in Hlen; lia|]. now apply List.Forall_inv_tail in Hs.
  - apply IH; [lia|exact Hs].
Qed.

Lemma last_filter_snoc {A : Type} (f : A -> bool) (l : list A) (x : A) :
  f x = true -> last (List.filter f (l ++ [x])) = Some x.
Proof.
  intros Hx. rewrite List.filter_app. cbn [List.filter]. rewrite Hx. apply last_snoc.
Qed.

(** ** Words *)

Lemma split_from_word (w : string) :
  free_of is_space w ->
  forall r word, split_from (w +:+ r) word = split_from r (word +:+ w).
Proof.
  induction w as [|c w IH]; intros Hw r word.
  - now rewrite append_nil_r.
  - pose proof (List.Forall_inv Hw) as Hc. apply List.Forall_inv_tail in Hw.
    rewrite append_cons. cbn [split_from]. rewrite Hc, (IH Hw), append_assoc. reflexivity.
Qed.

Lemma split_two_words (a b : string) (sep : ascii) :
  a <> "" -> b <> "" -> free_of is_space a -> free_of is_space b -> is_space sep = true ->
  split (a +:+ String sep b) = [a; b].
Proof.
  intros Ha Hb Fa Fb Hsep. unfold split.
  rewrite (split_from_word a Fa). change ("" +:+ a) with a. cbn [split_from]. rewrite Hsep.
  destruct (String.eqb_spec a "") as [|_]; [contradiction|].
  rewrite <- (append_nil_r b) at 1. rewrite (split_from_word b Fb).
  change ("" +:+ b) with b. cbn [split_from].
  destruct (String.eqb_spec b "") as [|_]; [contradiction|reflexivity].
Qed.

Lemma split_one_word (a : string) : a <> "" -> free_of is_space a -> split a = [a].
Proof.
  intros Ha Fa. unfold split. rewrite <- (append_nil_r a) at 1.
  rewrite (split_from_word a Fa). change ("" +:+ a) with a. cbn [split_from].
  destruct (String.eqb_spec a "") as [|_]; [contradiction|reflexivity].
Qed.

End LinesProps.

(** * Properties of pput.py *)

Module PputProps.
Import Pput.

(** ** The chunk reader *)

Lemma read_positive (s : InputStream) (n : Z) :
  0 < n ->
  exists k, (1 <= k <= Z.to_nat n)%nat /\
    read s n = (firstn k (data s), mkInput (skipn k (data s)) (tail (short_reads s))).
Proof.
  intros Hn. unfold read.
  destruct (Z.ltb_spec n 0) as [|_]; [lia|].
  destruct (short_reads s) as [|c cuts].
  - exists (Z.to_nat n). split; [lia | reflexivity].
  - exists (Nat.min (Z.to_nat n) (S c)). split; [lia | reflexivity].
Qed.

Lemma firstn_skipn_add {A} (a b : nat) (l : list A) :
  firstn (a + b) l = firstn a l ++ firstn b (skipn a l).
Proof.
  revert l. induction a as [|a IH]; intros l; simpl; [reflexivity|].
  destruct l as [|x l]; simpl.
  - now rewrite firstn_nil.
  - now rewrite IH.
Qed.

(** What the loop of [get_chunk] returns when it is entered with [p]
    buffered and [d] still to come: a full chunk if there are enough bytes,
    else all that is left, with end of stream noted. *)
Lemma get_chunk_loop_spec (C : nat) :
  (1 <= C)%nat ->
  forall fuel d cuts p,
    (length p < C)%nat -> (length d < fuel)%nat ->
    exists cuts',
      get_chunk_loop fuel (mkStreamHandler (mkInput d cuts) (Z.of_nat C) p false) =
      if (C <=? length p + length d)%nat
      then Some (Some (p ++ firstn (C - length p) d),
                 mkStreamHandler (mkInput (skipn (C - length p) d) cuts') (Z.of_nat C) [] false)
      else Some (Some (p ++ d), mkStreamHandler (mkInput [] cuts') (Z.of_nat C) [] true).
Proof.
  intros HC. induction fuel as [|fuel IH]; intros d cuts p Hp Hd; [lia|].
  cbn [get_chunk_loop _eof_reached input_stream chunk_size _partial_chunk].
  destruct (read_positive (mkInput d cuts) (Z.of_nat C - len p)) as (k & Hk & ->).
  { unfold len. lia. }
  cbn [data short_reads]. unfold len in *.
  replace (Z.to_nat (Z.of_nat C - Z.of_nat (length p))) with (C - length p)%nat in Hk by lia.
  destruct d as [|x d].
  - (* end of stream *)
    rewrite firstn_nil, skipn_nil, app_nil_r. cbn [length Z.of_nat Z.eqb].
    rewrite orb_true_r.
    destruct (Nat.leb_spec C (length p + 0)) as [|_]; [lia|].
    eexists. reflexivity.
  - set (rd := firstn k (x :: d)).
    assert (Hrd : length rd = Nat.min k (S (length d))) by (unfold rd; now rewrite length_firstn).
    assert (Hz : (Z.of_nat (length rd) =? 0) = false) by (apply Z.eqb_neq; lia).
    rewrite Hz, orb_false_r, length_app.
    destruct (Z.eqb_spec (Z.of_nat (length p + length rd)) (Z.of_nat C)) as [He|Hne].
    + (* the chunk is complete *)
      assert (k = (C - length p)%nat) by lia. subst k.
      destruct (Nat.leb_spec C (length p + length (x :: d))) as [_|Hlt];
        [| cbn [length] in Hlt; lia].
      eexists. reflexivity.
    + (* a short read: go round again *)
      destruct (IH (skipn k (x :: d)) (tail cuts) (p ++ rd)) as (cuts' & ->).
      * rewrite length_app. lia.
      * rewrite length_skipn. cbn [length] in *. lia.
      * exists cuts'. rewrite length_app, length_skipn, Hrd.
        assert (Hsum : (length p + Nat.min k (S (length d)) + (length (x :: d) - k)
                        = length p + length (x :: d))%nat) by (cbn [length]; lia).
        rewrite Hsum.
        destruct (Nat.leb_spec C (length p + length (x :: d))) as [Hle|Hlt].
        -- assert (Hk' : (k <= S (length d))%nat) by (cbn [length] in *; lia).
           rewrite Nat.min_l by exact Hk'.
           replace (C - length (p ++ rd))%nat with (C - (length p + k))%nat
             by (rewrite length_app; lia).
           replace (C - length p)%nat with (k + (C - (length p + k)))%nat by lia.
           rewrite firstn_skipn_add, <- app_assoc.
           replace (k + (C - (length p + k)))%nat with ((C - (length p + k)) + k)%nat by lia.
           rewrite <- skipn_skipn. reflexivity.
        -- unfold rd. rewrite <- app_assoc, firstn_skipn. reflexivity.
Qed.

Lemma get_chunk_eof (sh : StreamHandler) :
  _eof_reached sh = true -> get_chunk sh = (None, sh).
Proof.
  intros H. unfold get_chunk, get_chunk_fuel. cbn [get_chunk_loop]. now rewrite H.
Qed.

(** One call on a handler with an empty buffer, for a chunk size of at
    least one byte. *)
Lemma get_chunk_spec (C : nat) (d : bytes) (cuts : list nat) :
  (1 <= C)%nat ->
  exists cuts',
    get_chunk (mkStreamHandler (mkInput d cuts) (Z.of_nat C) [] false) =
    if (C <=? length d)%nat
    then (Some (firstn C d), mkStreamHandler (mkInput (skipn C d) cuts') (Z.of_nat C) [] false)
    else (Some d, mkStreamHandler (mkInput [] cuts') (Z.of_nat C) [] true).
Proof.
  intros HC.
  destruct (get_chunk_loop_spec C HC (S (length d)) d cuts []) as (cuts' & H);
    [cbn [length]; lia | lia |].
  exists cuts'. unfold get_chunk, get_chunk_fuel. cbn [input_stream data].
  rewrite H. cbn [length app]. rewrite Nat.sub_0_r, Nat.add_0_l.
  now destruct (C <=? length d)%nat.
Qed.

Lemma read_progress (s : InputStream) (n : Z) :
  fst (read s n) = [] \/ (length (data (snd (read s n))) < length (data s))%nat.
Proof.
  unfold read. destruct (n <? 0).
  - cbn [fst snd data]. destruct (data s); [now left | right; cbn [length]; lia].
  - cbn [fst snd data].
    set (k := match short_reads s with [] => _ | _ => _ end).
    destruct k as [|k]; [now left|].
    destruct (data s) as [|x d]; [now left|].
    right. rewrite length_skipn. cbn [length]. lia.
Qed.

(** The loop of [get_chunk] always comes to its [return] within the bound
    it is run on, whatever the chunk size. *)
Lemma get_chunk_loop_total (sh : StreamHandler) :
  exists r, get_chunk_loop (get_chunk_fuel sh) sh = Some r.
Proof.
  unfold get_chunk_fuel.
  assert (H : forall fuel sh, (length (data (input_stream sh)) < fuel)%nat ->
              exists r, get_chunk_loop fuel sh = Some r).
  { clear sh. induction fuel as [|fuel IH]; intros sh Hlt; [lia|].
    cbn [get_chunk_loop]. destruct (_eof_reached sh); [eauto|].
    destruct (read (input_stream sh) (chunk_size sh - len (_partial_chunk sh)))
      as [rd input'] eqn:Hread.
    destruct (read_progress (input_stream sh) (chunk_size sh - len (_partial_chunk sh)))
      as [Hnil|Hless]; rewrite Hread in *; cbn [fst snd] in *.
    - subst rd. cbn [len length Z.of_nat Z.eqb]. rewrite orb_true_r. eauto.
    - destruct (_ || _); [eauto|]. apply IH. cbn [input_stream]. lia. }
  apply H. lia.
Qed.

Lemma get_chunks_eof (k : nat) (sh : StreamHandler) :
  _eof_reached sh = true -> get_chunks k sh = (repeat None k, sh).
Proof.
  intros H. induction k as [|k IH]; [reflexivity|].
  cbn [get_chunks repeat]. rewrite (get_chunk_eof sh H), IH. reflexivity.
Qed.

Lemma get_chunks_succ (n : nat) (sh : StreamHandler) :
  fst (get_chunks (S n) sh)
  = fst (get_chunk sh) :: fst (get_chunks n (snd (get_chunk sh))).
Proof.
  cbn [get_chunks]. destruct (get_chunk sh) as [c sh']. cbn [fst snd].
  now destruct (get_chunks n sh').
Qed.

Lemma get_chunks_spec (C : nat) :
  (1 <= C)%nat ->
  forall n d cuts, (length d <= n)%nat ->
    exists cs last,
      (forall k, fst (get_chunks (length cs + 1 + k)
                        (mkStreamHandler (mkInput d cuts) (Z.of_nat C) [] false))
                 = map Some cs ++ Some last :: repeat None k)
      /\ concat cs ++ last = d
      /\ Forall (fun c => length c = C) cs
      /\ (length last < C)%nat.
Proof.
  intros HC. induction n as [|n IH]; intros d cuts Hn.
  - destruct d; [|cbn [length] in Hn; lia].
    exists [], []. repeat split; [|constructor|cbn [length]; lia].
    intros k. destruct (get_chunk_spec C [] cuts HC) as (cuts' & H).
    destruct (Nat.leb_spec C (length (@nil byte))) as [Hle|_]; [cbn [length] in Hle; lia|].
    cbn [length Nat.add get_chunks]. rewrite H, get_chunks_eof by reflexivity. reflexivity.
  - destruct (get_chunk_spec C d cuts HC) as (cuts' & H).
    destruct (Nat.leb_spec C (length d)) as [Hle|Hlt].
    + destruct (IH (skipn C d) cuts') as (cs & last & Hrun & Hcat & Hall & Hlast).
      { rewrite length_skipn. lia. }
      exists (firstn C d :: cs), last. repeat split.
      * intros k. cbn [length Nat.add get_chunks]. rewrite H.
        specialize (Hrun k).
        destruct (get_chunks (length cs + 1 + k) _) as [out sh']. cbn [fst] in *.
        now rewrite Hrun.
      * cbn [concat]. rewrite <- app_assoc, Hcat. apply firstn_skipn.
      * constructor; [rewrite length_firstn; lia | exact Hall].
      * exact Hlast.
    + exists [], d. repeat split; [|constructor|exact Hlt].
      intros k. cbn [length Nat.add get_chunks]. rewrite H, get_chunks_eof by reflexivity.
      reflexivity.
Qed.

Lemma length_concat_uniform {A} (C : nat) (cs : list (list A)) :
  Forall (fun c => length c = C) cs -> length (concat cs) = (C * length cs)%nat.
Proof.
  induction 1 as [|c cs Hc _ IH]; [cbn; lia|].
  cbn [concat length]. rewrite length_app, IH, Hc. lia.
Qed.

(** C2, as amended. For every stream [S], every oracle of short reads and
    every chunk size [C >= 1]: the calls of [get_chunk] return first the
    chunks [cs], each of [C] bytes, then one last chunk, and [None] ever
    after; the chunks in that order concatenate to [S]; the last chunk has
    [len S mod C] bytes, between 0 and [C - 1]: it is empty when [C] divides
    the length of the stream. *)
Theorem chunking_lossless_ordered (S : bytes) (cuts : list nat) (C : Z) :
  1 <= C ->
  exists cs last,
    (forall k, fst (get_chunks (length cs + 1 + k) (StreamHandler_init (mkInput S cuts) C))
               = map Some cs ++ Some last :: repeat None k)
    /\ concat cs ++ last = S
    /\ Forall (fun c => len c = C) cs
    /\ len last = len S mod C
    /\ 0 <= len last < C.
Proof.
  intros HC.
  destruct (get_chunks_spec (Z.to_nat C) ltac:(lia) (length S) S cuts (le_n _))
    as (cs & last & Hrun & Hcat & Hall & Hlast).
  exists cs, last. unfold StreamHandler_init.
  replace (Z.of_nat (Z.to_nat C)) with C in Hrun by lia.
  split; [exact Hrun|]. split; [exact Hcat|].
  assert (Hlen : len S = C * Z.of_nat (length cs) + len last).
  { unfold len. rewrite <- Hcat, length_app, (length_concat_uniform _ _ Hall). lia. }
  split; [|split].
  - eapply Forall_impl; [exact Hall|]. intros c Hc. unfold len. cbn beta in Hc. lia.
  - unfold len in *. apply Z.mod_unique with (q := Z.of_nat (length cs)); lia.
  - unfold len. lia.
Qed.

Lemma chunking_lossless_ordered_witness :
  exists cs last,
    (forall k, fst (get_chunks (length cs + 1 + k)
                      (StreamHandler_init (mkInput ["a"; "b"; "c"; "d"; "e"]%byte [0%nat]) 2))
               = map Some cs ++ Some last :: repeat None k)
    /\ concat cs ++ last = ["a"; "b"; "c"; "d"; "e"]%byte
    /\ Forall (fun c => len c = 2) cs
    /\ len last = len ["a"; "b"; "c"; "d"; "e"]%byte mod 2
    /\ 0 <= len last < 2.
Proof.
  apply (chunking_lossless_ordered ["a"; "b"; "c"; "d"; "e"]%byte [0%nat] 2). lia.
Defined.

(** C2 as stated fails: for the one-byte stream and chunks of one byte,
    [get_chunk] returns the byte, then an empty chunk, then [None]; no
    sequence of chunks whose last has between 1 and [C] bytes is what the
    reader emits. *)
Lemma chunking_last_chunk_may_be_empty :
  ~ exists cs : list bytes,
      (forall k, fst (get_chunks (length cs + k)
                        (StreamHandler_init (mkInput ["a"%byte] []) 1))
                 = map Some cs ++ repeat None k)
      /\ concat cs = ["a"%byte]
      /\ (forall i c, cs !! i = Some c ->
            if decide (S i = length cs) then 1 <= len c <= 1 else len c = 1).
Proof.
  intros (cs & Hrun & _ & Hlen).
  destruct cs as [|c1 [|c2 [|c3 cs]]].
  - specialize (Hrun 1%nat). vm_compute in Hrun. discriminate.
  - specialize (Hrun 1%nat). vm_compute in Hrun. discriminate.
  - pose proof (Hrun 0%nat) as H0. vm_compute in H0.
    injection H0 as _ H2.
    specialize (Hlen 1%nat c2 eq_refl). cbn in Hlen. subst c2. vm_compute in Hlen.
    destruct Hlen as [Hlen _]. now apply Hlen.
  - specialize (Hrun 0%nat). cbn [length Nat.add] in Hrun.
    rewrite Nat.add_0_r, !get_chunks_succ in Hrun.
    set (rest := get_chunks (length cs) _) in Hrun.
    vm_compute in Hrun. discriminate.
Qed.

Lemma get_chunk_empty (cuts : list nat) (C : Z) :
  get_chunk (StreamHandler_init (mkInput [] cuts) C)
  = (Some [], mkStreamHandler (mkInput [] (tail cuts)) C [] true).
Proof.
  unfold StreamHandler_init, get_chunk, get_chunk_fuel.
  cbn [input_stream data length get_chunk_loop _eof_reached chunk_size _partial_chunk].
  unfold read. cbn [data short_reads].
  destruct (C - len [] <? 0);
    [| rewrite firstn_nil, skipn_nil]; cbn [len length Z.of_nat Z.eqb app];
    rewrite orb_true_r; reflexivity.
Qed.

(** ** The slices of a stream *)

Lemma slices_upto_enough (C : nat) (b1 b2 : nat) (d : bytes) :
  (1 <= C)%nat -> (length d <= b1)%nat -> (length d <= b2)%nat ->
  slices_upto b1 C d = slices_upto b2 C d.
Proof.
  intros HC. revert b2 d. induction b1 as [|b1 IH]; intros b2 d H1 H2.
  - destruct d; [|cbn [length] in H1; lia]. now destruct b2.
  - destruct d as [|x d]; [now destruct b2|].
    destruct b2 as [|b2]; [cbn [length] in H2; lia|].
    cbn [slices_upto]. f_equal.
    apply IH; rewrite length_skipn; cbn [length] in *; lia.
Qed.

Lemma slices_nil (C : nat) : slices C [] = [].
Proof. reflexivity. Qed.

Lemma slices_cons (C : nat) (d : bytes) :
  (1 <= C)%nat -> d <> [] -> slices C d = firstn C d :: slices C (skipn C d).
Proof.
  intros HC Hd. unfold slices. destruct d as [|x d]; [congruence|].
  cbn [length slices_upto]. f_equal.
  apply slices_upto_enough; [exact HC | | lia].
  rewrite length_skipn. cbn [length]. lia.
Qed.

Lemma slices_short (C : nat) (d : bytes) :
  d <> [] -> (length d < C)%nat -> slices C d = [d].
Proof.
  intros Hd Hlt. rewrite slices_cons by (assumption || lia).
  rewrite firstn_all2 by lia. rewrite skipn_all2 by lia. reflexivity.
Qed.

(** ** Hex text *)

Lemma hex_byte_roundtrip (b : byte) :
  hex_value (hex_digit (Byte.to_N b / 16)) = Some (Byte.to_N b / 16)%N
  /\ hex_value (hex_digit (Byte.to_N b mod 16)) = Some (Byte.to_N b mod 16)%N
  /\ Byte.of_N (16 * (Byte.to_N b / 16) + Byte.to_N b mod 16) = Some b.
Proof. destruct b; vm_compute; repeat split. Qed.

Lemma hex_digit_ascii (b : byte) :
  Text.is_ascii (hex_digit (Byte.to_N b / 16)) = true
  /\ Text.is_ascii (hex_digit (Byte.to_N b mod 16)) = true.
Proof. destruct b; vm_compute; split; reflexivity. Qed.

Lemma hexlify_ascii (b : bytes) : Text.all_ascii (hexlify b) = true.
Proof.
  induction b as [|x b IH]; [reflexivity|].
  cbn [hexlify fold_right]. fold (hexlify b). unfold hexlify_byte.
  cbn [Text.all_ascii]. destruct (hex_digit_ascii x) as [-> ->]. exact IH.
Qed.

Lemma a2b_hex_ascii_hexlify (b : bytes) : a2b_hex_ascii (hexlify b) = Some b.
Proof.
  induction b as [|x b IH]; [reflexivity|].
  cbn [hexlify fold_right]. fold (hexlify b). unfold hexlify_byte.
  cbn [a2b_hex_ascii]. destruct (hex_byte_roundtrip x) as (-> & -> & ->).
  now rewrite IH.
Qed.

(** [a2b_hex] undoes [hexdigest]'s hex text: the raw digest comes back. *)
Lemma a2b_hex_hexlify (b : bytes) : a2b_hex (hexlify b) = inr b.
Proof. unfold a2b_hex. now rewrite hexlify_ascii, a2b_hex_ascii_hexlify. Qed.

(** ** Stable sorting by a key without duplicates *)

Section SortedProps.
Context {A : Type} (key : A -> nat).

Local Abbreviation key_lt := (fun a b : A => (key a <? key b)%nat).

Lemma insert_sorted_perm (lt : A -> A -> bool) (x : A) (l : list A) :
  Permutation (insert_sorted lt x l) (x :: l).
Proof.
  induction l as [|y l IH]; cbn [insert_sorted]; [reflexivity|].
  destruct (lt y x); [|reflexivity].
  rewrite IH. apply perm_swap.
Qed.

Lemma sorted_perm (lt : A -> A -> bool) (l : list A) : Permutation (sorted lt l) l.
Proof.
  induction l as [|x l IH]; [reflexivity|].
  cbn [sorted fold_right]. fold (sorted lt l).
  rewrite insert_sorted_perm. now constructor.
Qed.

Lemma insert_sorted_ext (lt1 lt2 : A -> A -> bool) (x : A) (l : list A) :
  (forall y, In y l -> lt1 y x = lt2 y x) ->
  insert_sorted lt1 x l = insert_sorted lt2 x l.
Proof.
  induction l as [|y l IH]; intros H; cbn [insert_sorted]; [reflexivity|].
  rewrite (H y) by now left. rewrite IH; [reflexivity|].
  intros z Hz. apply H. now right.
Qed.

(** Any order that agrees with the order of the keys on elements with
    different keys sorts a list without duplicate keys the same way. *)
Lemma sorted_ext (lt : A -> A -> bool) (l : list A) :
  (forall a b, key a <> key b -> lt a b = key_lt a b) ->
  List.NoDup (map key l) ->
  sorted lt l = sorted key_lt l.
Proof.
  intros Hlt. induction l as [|x l IH]; intros Hnd; [reflexivity|].
  cbn [map] in Hnd. apply List.NoDup_cons_iff in Hnd as [Hx Hnd].
  cbn [sorted fold_right]. fold (sorted lt l) (sorted key_lt l).
  rewrite IH by exact Hnd. apply insert_sorted_ext.
  intros y Hy. apply Hlt.
  intros Heq. apply Hx. rewrite <- Heq. apply in_map.
  eapply Permutation_in; [apply sorted_perm | exact Hy].
Qed.

Lemma insert_sorted_strict (x : A) (l : list A) :
  ~ In (key x) (map key l) ->
  StronglySorted (fun a b => (key a < key b)%nat) l ->
  StronglySorted (fun a b => (key a < key b)%nat) (insert_sorted key_lt x l).
Proof.
  induction l as [|y l IH]; intros Hx Hs; cbn [insert_sorted].
  - repeat constructor.
  - apply StronglySorted_inv in Hs as [Hs Hy].
    cbn [map In] in Hx. cbn beta.
    destruct (Nat.ltb_spec (key y) (key x)) as [Hlt|Hge].
    + constructor; [apply IH; tauto|].
      apply List.Forall_forall. intros z Hz.
      apply (Permutation_in _ (insert_sorted_perm key_lt x l)) in Hz.
      destruct Hz as [<-|Hz]; [exact Hlt|].
      rewrite List.Forall_forall in Hy. now apply Hy.
    + assert (key x < key y)%nat by (assert (key y <> key x) by tauto; lia).
      constructor; [constructor; assumption|].
      constructor; [assumption|].
      eapply List.Forall_impl; [|exact Hy]. cbn beta. intros; lia.
Qed.

Lemma sorted_strict (l : list A) :
  List.NoDup (map key l) ->
  StronglySorted (fun a b => (key a < key b)%nat) (sorted key_lt l).
Proof.
  induction l as [|x l IH]; intros Hnd; [constructor|].
  cbn [map] in Hnd. apply List.NoDup_cons_iff in Hnd as [Hx Hnd].
  cbn [sorted fold_right]. fold (sorted key_lt l).
  apply insert_sorted_strict; [|now apply IH].
  intros Hin. apply Hx.
  eapply Permutation_in; [|exact Hin]. apply Permutation_map, sorted_perm.
Qed.
End SortedProps.

Lemma strictly_sorted_perm_eq {A : Type} (key : A -> nat) (l1 l2 : list A) :
  StronglySorted (fun a b => (key a < key b)%nat) l1 ->
  StronglySorted (fun a b => (key a < key b)%nat) l2 ->
  Permutation l1 l2 -> l1 = l2.
Proof.
  revert l2. induction l1 as [|x l1 IH]; intros l2 H1 H2 Hp.
  - apply Permutation_nil in Hp. now subst.
  - destruct l2 as [|y l2]; [symmetry in Hp; now apply Permutation_nil in Hp|].
    apply StronglySorted_inv in H1 as [H1 Hx]. apply StronglySorted_inv in H2 as [H2 Hy].
    rewrite List.Forall_forall in Hx, Hy.
    assert (x = y) as <-.
    { assert (Hxin : In x (y :: l2)) by (eapply Permutation_in; [exact Hp | now left]).
      assert (Hyin : In y (x :: l1))
        by (eapply Permutation_in; [symmetry; exact Hp | now left]).
      destruct Hxin as [->|Hxin]; [reflexivity|].
      destruct Hyin as [->|Hyin]; [reflexivity|].
      specialize (Hx _ Hyin). specialize (Hy _ Hxin). lia. }
    f_equal. apply IH; try assumption. now apply Permutation_cons_inv in Hp.
Qed.

(** ** [combine] *)

Lemma combine_app_same {A B : Type} (l1 l2 : list A) (k1 k2 : list B) :
  length l1 = length k1 ->
  combine (l1 ++ l2) (k1 ++ k2) = combine l1 k1 ++ combine l2 k2.
Proof.
  revert k1. induction l1 as [|x l1 IH]; intros [|y k1] H; try discriminate; [reflexivity|].
  cbn [app combine]. f_equal. apply IH. now injection H.
Qed.

Lemma map_fst_combine_seq {B : Type} (a : nat) (k : list B) :
  map fst (combine (seq a (length k)) k) = seq a (length k).
Proof.
  revert a. induction k as [|y k IH]; intros a; [reflexivity|].
  cbn [length seq combine map fst]. now rewrite IH.
Qed.

Lemma map_snd_combine_seq {B : Type} (a : nat) (k : list B) :
  map snd (combine (seq a (length k)) k) = k.
Proof.
  revert a. induction k as [|y k IH]; intros a; [reflexivity|].
  cbn [length seq combine map snd]. now rewrite IH.
Qed.

Lemma combine_seq_sorted {B : Type} (a : nat) (k : list B) :
  StronglySorted (fun x y : nat * B => (fst x < fst y)%nat) (combine (seq a (length k)) k).
Proof.
  revert a. induction k as [|y k IH]; intros a; [constructor|].
  cbn [length seq combine]. constructor; [apply IH|].
  apply List.Forall_forall. intros [i z] Hin.
  apply in_combine_l, in_seq in Hin. cbn [fst]. lia.
Qed.

Lemma StronglySorted_map {A B : Type} (f : A -> B) (R : B -> B -> Prop) (l : list A) :
  StronglySorted (fun x y => R (f x) (f y)) l -> StronglySorted R (map f l).
Proof.
  induction 1 as [|x l _ IH Hx]; cbn [map]; constructor; [exact IH|].
  now apply List.Forall_map.
Qed.

(** ** The upload supervisor *)

Section Supervisor.

Variable hashlib_md5 : bytes -> bytes.

Local Abbreviation hexdigest := (hexdigest hashlib_md5).
Local Abbreviation main_loop_while := (main_loop_while hashlib_md5).
Local Abbreviation main_loop_finish := (main_loop_finish hashlib_md5).
Local Abbreviation main_loop := (main_loop hashlib_md5).
Local Abbreviation workers_run := (workers_run hashlib_md5).
Local Abbreviation worker_step := (worker_step hashlib_md5).
Local Abbreviation accounted := (accounted hashlib_md5).
Local Abbreviation loop_invariant := (loop_invariant hashlib_md5).
Local Abbreviation sent_digests := (sent_digests hashlib_md5).
Local Abbreviation job_digest := (job_digest hashlib_md5).
Local Abbreviation composite_etag := (composite_etag hashlib_md5).
Local Abbreviation multipart_etag := (multipart_etag hashlib_md5).

(** A rule for the loop of [main_loop]: [I] holds whenever the loop
    condition is evaluated, [Q] of how the call ends. *)
Lemma main_loop_while_rule
    (I : nat -> UploadSupervisor -> Prop) (Q : Outcome string -> UploadSupervisor -> Prop) :
  (forall i sup, I i sup -> main_loop_condition sup = true -> Q Running sup) ->
  (forall i sup evs, I i sup -> main_loop_condition sup = true ->
     match _check_workers (workers_run evs sup) with
     | (Some e, s) => Q (Raised e) s
     | (None, s) =>
       match _handle_results s with
       | (Some e, s) => Q (Raised e) s
       | (None, s) =>
         match get_chunk (stream_handler s) with
         | (Some (b :: c), sh) => I (S i) (_send_chunk (S i) (b :: c) (set_stream s sh))
         | (_, sh) => I i (set_stream s sh)
         end
       end
     end) ->
  (forall i sup, I i sup -> main_loop_condition sup = false ->
     Q (fst (main_loop_finish sup)) (snd (main_loop_finish sup))) ->
  forall schedule i sup, I i sup ->
    Q (fst (main_loop_while schedule i sup)) (snd (main_loop_while schedule i sup)).
Proof.
  intros Hrun Hstep Hexit. induction schedule as [|evs schedule IH]; intros i sup HI.
  - cbn [Pput.main_loop_while].
    destruct (main_loop_condition sup) eqn:Hc; [apply (Hrun i); assumption|].
    now apply (Hexit i).
  - cbn [Pput.main_loop_while].
    destruct (main_loop_condition sup) eqn:Hc; [|now apply (Hexit i)].
    specialize (Hstep i sup evs HI Hc).
    destruct (_check_workers _) as [[e|] s]; [exact Hstep|].
    destruct (_handle_results s) as [[e|] s']; [exact Hstep|].
    destruct (get_chunk (stream_handler s')) as [[[|b c]|] sh]; now apply IH.
Qed.

(** *** The workers *)

Lemma take_job_perm (i : nat) (jobs rest : list (nat * bytes)) (chunk : bytes) :
  take_job i jobs = Some (chunk, rest) -> Permutation jobs ((i, chunk) :: rest).
Proof.
  revert rest. induction jobs as [|[j c] jobs IH]; intros rest H; [discriminate|].
  cbn [take_job] in H. destruct (Nat.eqb_spec i j) as [->|Hne].
  - now inversion H.
  - destruct (take_job i jobs) as [[c' rest']|]; [|discriminate].
    inversion H; subst. rewrite (IH rest' eq_refl). apply perm_swap.
Qed.

Lemma kill_one_dead (workers : list bool) :
  existsb id workers = true -> forallb id (kill_one workers) = false.
Proof.
  destruct workers as [|[|] w]; cbn; intros H; try reflexivity; discriminate.
Qed.

Lemma forallb_existsb_false (workers : list bool) :
  existsb id workers = false -> forallb id workers = true -> workers = [].
Proof. destruct workers as [|[|] w]; cbn; intros; congruence. Qed.

(** A step of the workers touches the two queues and the workers only. *)
Lemma worker_step_frame (ev : WorkerEvent) (sup : UploadSupervisor) :
  let sup' := worker_step ev sup in
  stream_handler sup' = stream_handler sup /\ name sup' = name sup
  /\ multipart sup' = multipart sup /\ results sup' = results sup
  /\ _pending_chunks sup' = _pending_chunks sup /\ s3_calls sup' = s3_calls sup.
Proof.
  cbn zeta. unfold Pput.worker_step.
  destruct (negb _); [tauto|].
  destruct ev as [i e|i]; destruct (take_job i (outbox sup)) as [[c rest]|]; cbn; tauto.
Qed.

Lemma workers_run_frame (evs : list WorkerEvent) (sup : UploadSupervisor) :
  let sup' := workers_run evs sup in
  stream_handler sup' = stream_handler sup /\ name sup' = name sup
  /\ multipart sup' = multipart sup /\ results sup' = results sup
  /\ _pending_chunks sup' = _pending_chunks sup /\ s3_calls sup' = s3_calls sup.
Proof.
  cbn zeta. revert sup. induction evs as [|ev evs IH]; intros sup; [cbn; tauto|].
  cbn [Pput.workers_run fold_left].
  specialize (IH (worker_step ev sup)). unfold Pput.workers_run in IH.
  destruct IH as (-> & -> & -> & -> & -> & ->). apply worker_step_frame.
Qed.

Lemma worker_step_started (key : string) (ev : WorkerEvent) (sup : UploadSupervisor) :
  upload_started key sup -> upload_started key (worker_step ev sup).
Proof.
  intros (Hc & Hi & Hr & Ho). unfold Pput.worker_step.
  destruct (negb _); [repeat split; assumption|].
  destruct ev as [i e|i]; destruct (take_job i (outbox sup)) as [[c rest]|] eqn:Ht;
    try (repeat split; assumption).
  - pose proof (take_job_perm _ _ _ _ Ht) as Hp.
    rewrite Hp in Ho. apply List.Forall_cons_iff in Ho as [_ Ho].
    repeat split; cbn; try assumption.
    apply List.Forall_app. split; [assumption|].
    constructor; [|constructor]. split; cbn; eauto.
  - pose proof (take_job_perm _ _ _ _ Ht) as Hp.
    rewrite Hp in Ho. apply List.Forall_cons_iff in Ho as [_ Ho].
    repeat split; cbn; assumption.
Qed.

Lemma workers_run_started (key : string) (evs : list WorkerEvent) (sup : UploadSupervisor) :
  upload_started key sup -> upload_started key (workers_run evs sup).
Proof.
  revert sup. induction evs as [|ev evs IH]; intros sup H; [exact H|].
  cbn [Pput.workers_run fold_left]. apply IH. now apply worker_step_started.
Qed.

(** *** Draining the result queue *)

Lemma _handle_results_spec (sup : UploadSupervisor) :
  Forall (fun r => success r = true) (inbox sup) ->
  _handle_results sup =
  (None, mkSupervisor (stream_handler sup) (name sup) [] (outbox sup) (multipart sup)
           (results sup ++ map (fun r => (index r, md5 r, etag r)) (inbox sup))
           (_pending_chunks sup - Z.of_nat (length (inbox sup)))
           (_workers sup) (s3_calls sup)).
Proof.
  unfold _handle_results. destruct sup as [sh nm ib ob mp rs pd ws calls].
  cbn [inbox stream_handler name outbox multipart results _pending_chunks _workers s3_calls].
  revert rs pd. induction ib as [|r ib IH]; intros rs pd Hs.
  - cbn. rewrite app_nil_r. f_equal; f_equal; lia.
  - apply List.Forall_cons_iff in Hs as [Hr Hs].
    cbn [length _handle_results_loop _handle_result inbox]. rewrite Hr.
    unfold set_pending, set_results, set_queues.
    cbn [stream_handler name outbox multipart results _pending_chunks _workers s3_calls inbox].
    rewrite IH by exact Hs. cbn [map length]. rewrite <- app_assoc. cbn [app].
    f_equal; f_equal; lia.
Qed.

(** *** The composite tag *)

Lemma multipart_etag_loop_hex (raws : list bytes) (acc : bytes) (n : nat) :
  multipart_etag_loop (map hexlify raws) acc n = inr (acc ++ concat raws, (n + length raws)%nat).
Proof.
  revert acc n. induction raws as [|raw raws IH]; intros acc n.
  - cbn. now rewrite app_nil_r, Nat.add_0_r.
  - cbn [map multipart_etag_loop]. rewrite a2b_hex_hexlify, IH.
    cbn [concat length]. rewrite <- app_assoc. do 2 f_equal. lia.
Qed.

(** [multipart_etag] on the hex digests of a sequence of chunks is the
    composite tag of that sequence. *)
Lemma multipart_etag_hexdigests (chunks : list bytes) :
  multipart_etag (map hexdigest chunks) = inr (composite_etag chunks).
Proof.
  unfold Pput.multipart_etag, Pput.composite_etag, Pput.hexdigest.
  rewrite <- (map_map hashlib_md5 hexlify), multipart_etag_loop_hex.
  cbn [app Nat.add]. now rewrite length_map.
Qed.

Lemma multipart_etag_defined (digests : list string) :
  Forall (fun d => exists raw, d = hexlify raw) digests ->
  exists tag, multipart_etag digests = inr tag.
Proof.
  intros H.
  assert (exists raws, digests = map hexlify raws) as [raws ->].
  { induction H as [|d ds [raw ->] _ [raws ->]]; [now exists []|].
    now exists (raw :: raws). }
  unfold Pput.multipart_etag. rewrite multipart_etag_loop_hex. eauto.
Qed.

(** *** From the initiate request to the end of the call *)

Lemma main_loop_finish_started (key : string) (sup : UploadSupervisor) :
  upload_started key sup ->
  Forall (fun job => snd job <> []) (outbox (snd (main_loop_finish sup)))
  /\ match fst (main_loop_finish sup) with
     | Returned _ =>
       exists parts, s3_calls (snd (main_loop_finish sup))
                     = [InitiateMultipartUpload key; CompleteMultipartUpload parts]
     | Raised (UploadException _) =>
       s3_calls (snd (main_loop_finish sup))
       = [InitiateMultipartUpload key; AbortMultipartUpload]
     | Raised _ | Running =>
       s3_calls (snd (main_loop_finish sup)) = [InitiateMultipartUpload key]
     end.
Proof.
  intros (Hc & Hi & Hr & Ho). unfold Pput.main_loop_finish, _finish_upload.
  destruct (length (results sup) =? 0)%nat.
  - cbn. rewrite Hc. split; [assumption | reflexivity].
  - cbn [fst snd s3_request set_results results stream_handler name inbox outbox multipart
         _pending_chunks _workers s3_calls].
    destruct (multipart_etag_defined
                (map (fun r => snd (fst r)) (sorted tuple_lt (results sup)))) as [tag ->].
    { apply List.Forall_map.
      eapply Permutation_Forall; [symmetry; apply sorted_perm | exact Hr]. }
    cbn. rewrite Hc. split; [assumption | eauto].
Qed.

(** One turn of the loop after a successful initiate: the only exception
    it can raise is [WorkerCrashed], and what holds of the requests, the
    results and the jobs still holds after it. *)
Lemma upload_started_turn (key : string) (sup : UploadSupervisor) (evs : list WorkerEvent) :
  upload_started key sup ->
  match _check_workers (workers_run evs sup) with
  | (Some e, s) => e = WorkerCrashed /\ upload_started key s
  | (None, s) =>
    match _handle_results s with
    | (Some e, s) => False
    | (None, s) =>
      match get_chunk (stream_handler s) with
      | (Some (b :: c), sh) =>
        forall i, upload_started key (_send_chunk i (b :: c) (set_stream s sh))
      | (_, sh) => upload_started key (set_stream s sh)
      end
    end
  end.
Proof.
  intros H. apply (workers_run_started key evs) in H.
  pose proof H as (Hc & Hi & Hr & Ho).
  unfold _check_workers. destruct (forallb id _); [|now split].
  rewrite _handle_results_spec
    by (eapply List.Forall_impl; [|exact Hi]; now intros r [? _]).
  cbn [stream_handler].
  assert (Hbase : forall sh',
    upload_started key
      (set_stream
         (mkSupervisor (stream_handler (workers_run evs sup)) (name (workers_run evs sup)) []
            (outbox (workers_run evs sup)) (multipart (workers_run evs sup))
            (results (workers_run evs sup)
             ++ map (fun r => (index r, md5 r, etag r)) (inbox (workers_run evs sup)))
            (_pending_chunks (workers_run evs sup)
             - Z.of_nat (length (inbox (workers_run evs sup))))
            (_workers (workers_run evs sup)) (s3_calls (workers_run evs sup))) sh')).
  { intros sh'. repeat split; cbn; try assumption; [constructor|].
    apply List.Forall_app. split; [assumption|].
    apply List.Forall_map. eapply List.Forall_impl; [|exact Hi].
    now intros r [_ ?]. }
  destruct (get_chunk _) as [[[|b c]|] sh']; try apply Hbase.
  intros i. destruct (Hbase sh') as (Hc' & Hi' & Hr' & Ho').
  repeat split; cbn; try assumption.
  apply List.Forall_app. split; [assumption|]. now repeat constructor.
Qed.

Lemma upload_started_initially (concurrency : nat) (sh : StreamHandler) (key : string) :
  upload_started key
    (_start_workers concurrency
       (mkSupervisor sh key [] [] (Some key) [] 0 [] [InitiateMultipartUpload key])).
Proof. repeat split; cbn; constructor. Qed.

(** What [main_loop] keeps of C1, with a store that serves the complete
    and the abort request. For every stream, every schedule of the workers
    and every state of the reader, once the initiate request succeeded: the
    call that runs its loop to the end makes exactly one of the two
    requests, complete when it returns the tag and abort when it raises
    [UploadException] (no part was recorded), never both; a call whose loop
    raises, which is [WorkerCrashed], has made neither. *)
Theorem complete_xor_abort_at_loop_end (concurrency : nat)
    (schedule : list (list WorkerEvent)) (sh : StreamHandler) (key : string) :
  let run := main_loop concurrency true schedule (UploadSupervisor_init sh key) in
  match fst run with
  | Returned _ =>
    exists parts, s3_calls (snd run)
                  = [InitiateMultipartUpload key; CompleteMultipartUpload parts]
  | Raised (UploadException _) =>
    s3_calls (snd run) = [InitiateMultipartUpload key; AbortMultipartUpload]
  | Raised _ | Running => s3_calls (snd run) = [InitiateMultipartUpload key]
  end.
Proof.
  cbn zeta. unfold Pput.main_loop, _begin_upload, UploadSupervisor_init.
  cbn [multipart stream_handler name inbox outbox results _pending_chunks _workers s3_calls app].
  apply (main_loop_while_rule (fun _ sup => upload_started key sup)
           (fun out sup =>
              match out with
              | Returned _ =>
                exists parts, s3_calls sup
                              = [InitiateMultipartUpload key; CompleteMultipartUpload parts]
              | Raised (UploadException _) =>
                s3_calls sup = [InitiateMultipartUpload key; AbortMultipartUpload]
              | Raised _ | Running => s3_calls sup = [InitiateMultipartUpload key]
              end)).
  - (* still in the loop: nothing but the initiate *)
    now intros _ sup (Hc & _) _.
  - (* a turn of the loop makes no request; it can only raise [WorkerCrashed] *)
    intros i sup evs H _. pose proof (upload_started_turn key sup evs H) as Hturn.
    destruct (_check_workers _) as [[e|] s1]; [destruct Hturn as (-> & Hc & _); exact Hc|].
    destruct (_handle_results s1) as [[e|] s2]; [destruct Hturn|].
    destruct (get_chunk _) as [[[|b c]|] sh']; auto.
  - (* the loop is left: [_finish_upload] makes the one request *)
    intros _ sup H _. now apply main_loop_finish_started.
  - apply upload_started_initially.
Qed.

(** C1, where the code departs from it. Whenever [main_loop] ends with
    [WorkerCrashed], which [_check_workers] raises out of the loop when a
    worker thread has died, the only request ever made on the upload is the
    initiate: the run ends abnormally after a successful initiate with
    neither complete nor abort, where the other failure exit of the code,
    [_finish_upload] with no result, does make the abort request before it
    raises. *)
Theorem worker_crash_leaves_upload_open (concurrency : nat)
    (schedule : list (list WorkerEvent)) (sh : StreamHandler) (key : string) :
  let run := main_loop concurrency true schedule (UploadSupervisor_init sh key) in
  fst run = Raised WorkerCrashed ->
  s3_calls (snd run) = [InitiateMultipartUpload key]
  /\ ~ In AbortMultipartUpload (s3_calls (snd run)).
Proof.
  cbn zeta. intros Hcrash.
  pose proof (complete_xor_abort_at_loop_end concurrency schedule sh key) as H.
  cbn zeta in H. rewrite Hcrash in H. rewrite H. split; [reflexivity|].
  intros [Hin|[]]. discriminate.
Qed.

Lemma forallb_repeat_true (n : nat) : forallb id (repeat true n) = true.
Proof. induction n; [reflexivity | exact IHn]. Qed.

Lemma workers_run_idle (evs : list WorkerEvent) (sup : UploadSupervisor) :
  outbox sup = [] -> workers_run evs sup = sup.
Proof.
  revert sup. induction evs as [|ev evs IH]; intros sup Ho; [reflexivity|].
  cbn [Pput.workers_run fold_left].
  assert (worker_step ev sup = sup) as ->; [|now apply IH].
  unfold Pput.worker_step. rewrite Ho.
  destruct (negb _); [reflexivity|]. now destruct ev.
Qed.

(** The call on an empty stream: one turn of the loop, then the abort. *)
Lemma main_loop_empty_stream (concurrency : nat) (evs : list WorkerEvent)
    (schedule : list (list WorkerEvent)) (cuts : list nat) (C : Z) (key : string) :
  let run := main_loop concurrency true (evs :: schedule)
               (UploadSupervisor_init (StreamHandler_init (mkInput [] cuts) C) key) in
  fst run = Raised (UploadException "Error: Can't upload zero bytes!")
  /\ s3_calls (snd run) = [InitiateMultipartUpload key; AbortMultipartUpload].
Proof.
  cbn zeta. unfold Pput.main_loop, _begin_upload, UploadSupervisor_init, _start_workers.
  cbn [multipart stream_handler name inbox outbox results _pending_chunks _workers s3_calls
       app].
  unfold set_workers, set_queues.
  cbn [multipart stream_handler name inbox outbox results _pending_chunks _workers s3_calls].
  cbn [Pput.main_loop_while]. unfold main_loop_condition at 1.
  cbn [_pending_chunks stream_handler StreamHandler_init finished _eof_reached andb negb orb
       Z.eqb].
  rewrite workers_run_idle by reflexivity.
  unfold _check_workers. cbn [_workers]. rewrite forallb_repeat_true.
  unfold _handle_results. cbn [inbox length _handle_results_loop stream_handler].
  change (mkStreamHandler (mkInput [] cuts) C [] false)
    with (StreamHandler_init (mkInput [] cuts) C).
  rewrite get_chunk_empty.
  destruct schedule as [|evs' schedule]; cbn; auto.
Qed.

(** C8. On an empty input nothing is ever recorded: whatever the chunk size,
    the number of workers and what the workers do, the supervisor makes the
    abort request and no complete request, [main] writes the diagnostic
    with "Can't upload zero bytes" in it and returns 1, which is the exit
    code of the tool. *)
Theorem zero_bytes_abort_and_fail (args : Args) (C : Z) (cuts : list nat)
    (evs : list WorkerEvent) (schedule : list (list WorkerEvent)) :
  main_chunk_size args = inr C ->
  let run := main hashlib_md5 args (mkInput [] cuts) true (evs :: schedule) in
  requests run = [InitiateMultipartUpload (args_name args); AbortMultipartUpload]
  /\ status run = Returned (Some 1)
  /\ In (Message ("Error: " +:+ "Can't upload zero bytes" +:+ "!" +:+ String "010" EmptyString))
        (stderr run)
  /\ exit_code run = Some 1 /\ exit_code run <> Some 0.
Proof.
  intros HC. cbn zeta. unfold main, exit_code. rewrite HC.
  pose proof (main_loop_empty_stream (args_concurrency args) evs schedule cuts C
                (args_name args)) as [Hout Hcalls].
  cbn zeta in Hout, Hcalls.
  destruct (main_loop _ _ _ _) as [out sup]. cbn [fst snd] in Hout, Hcalls. subst out.
  cbn [requests status stderr]. rewrite Hcalls.
  repeat split; try discriminate.
  apply List.in_or_app. right. now left.
Qed.

(** C10. On an empty stream the first call of [get_chunk] returns the
    empty chunk, not [None], and the handler is [finished] only after that
    call; and in every run of [main_loop], cut off after any number of turns
    of its loop, no job handed to the workers carries an empty chunk. *)
Theorem empty_chunk_is_no_job :
  (forall (cuts : list nat) (C : Z),
     let sh := StreamHandler_init (mkInput [] cuts) C in
     finished sh = false
     /\ fst (get_chunk sh) = Some []
     /\ finished (snd (get_chunk sh)) = true)
  /\ (forall (concurrency : nat) (initiate_ok : bool) (schedule : list (list WorkerEvent))
        (sh : StreamHandler) (key : string),
        Forall (fun job => snd job <> [])
               (outbox (snd (main_loop concurrency initiate_ok schedule
                                       (UploadSupervisor_init sh key))))).
Proof.
  split.
  - intros cuts C. cbn zeta. rewrite get_chunk_empty. repeat split.
  - intros concurrency [|] schedule sh key; [|cbn; constructor].
    unfold Pput.main_loop, _begin_upload, UploadSupervisor_init.
    cbn [multipart stream_handler name inbox outbox results _pending_chunks _workers
         s3_calls app].
    apply (main_loop_while_rule (fun _ sup => upload_started key sup)
             (fun _ sup => Forall (fun job => snd job <> []) (outbox sup))).
    + now intros _ sup (_ & _ & _ & Ho) _.
    + (* only [_send_chunk] adds a job, and only after [if chunk:] *)
      intros i sup evs H _. pose proof (upload_started_turn key sup evs H) as Hturn.
      destruct (_check_workers _) as [[e|] s1]; [now destruct Hturn as (_ & _ & _ & _ & Ho)|].
      destruct (_handle_results s1) as [[e|] s2]; [destruct Hturn|].
      destruct (get_chunk _) as [[[|b c]|] sh']; auto.
    + intros _ sup H _. now apply (main_loop_finish_started key).
    + apply upload_started_initially.
Qed.

(** *** Every chunk sent is accounted for *)

Lemma worker_step_accounted (sent : list bytes) (ev : WorkerEvent) (sup : UploadSupervisor) :
  accounted sent sup -> accounted sent (worker_step ev sup).
Proof.
  intros Hacc. unfold Pput.worker_step.
  destruct (existsb id (_workers sup)) eqn:Hlive; cbn [negb]; [|exact Hacc].
  destruct ev as [i e|i]; destruct (take_job i (outbox sup)) as [[c rest]|] eqn:Ht;
    try exact Hacc.
  - pose proof (take_job_perm _ _ _ _ Ht) as Hp.
    intros Halive. cbn [set_queues _workers] in Halive.
    destruct (Hacc Halive) as (Hi & Hpend & Hperm).
    cbn [set_queues inbox outbox results _pending_chunks].
    split; [|split].
    + apply List.Forall_app. split; [exact Hi|].
      constructor; [|constructor]. split; cbn; eauto.
    + rewrite Hpend, length_app, (Permutation_length Hp). cbn [length]. lia.
    + rewrite <- Hperm, Hp, map_app. cbn [map].
      apply Permutation_app_head. rewrite <- app_assoc.
      apply Permutation_app_head. cbn [app]. reflexivity.
  - intros Halive. cbn [set_workers set_queues _workers] in Halive.
    rewrite kill_one_dead in Halive by exact Hlive. discriminate.
Qed.

Lemma workers_run_accounted (sent : list bytes) (evs : list WorkerEvent)
    (sup : UploadSupervisor) :
  accounted sent sup -> accounted sent (workers_run evs sup).
Proof.
  revert sup. induction evs as [|ev evs IH]; intros sup H; [exact H|].
  cbn [Pput.workers_run fold_left]. apply IH. now apply worker_step_accounted.
Qed.

Lemma sent_digests_snoc (sent : list bytes) (chunk : bytes) :
  sent_digests (sent ++ [chunk])
  = sent_digests sent ++ [(S (length sent), hexdigest chunk)].
Proof.
  unfold Pput.sent_digests. rewrite length_app, map_app. cbn [length map].
  rewrite Nat.add_1_r, seq_S, combine_app_same by now rewrite length_seq, length_map.
  reflexivity.
Qed.

Lemma drained_accounted (sent : list bytes) sh sh' nm ib ob mp rs pd ws calls :
  accounted sent (mkSupervisor sh nm ib ob mp rs pd ws calls) ->
  accounted sent
    (mkSupervisor sh' nm [] ob mp (rs ++ map (fun r => (index r, md5 r, etag r)) ib)
                  (pd - Z.of_nat (length ib)) ws calls).
Proof.
  intros Hacc Halive. destruct (Hacc Halive) as (Hi & Hpend & Hperm).
  cbn [inbox outbox results _pending_chunks] in *.
  split; [constructor|]. split; [cbn [length]; lia|].
  rewrite <- Hperm, map_app, map_map, <- app_assoc. cbn [map app].
  reflexivity.
Qed.

Lemma sent_accounted (sent : list bytes) (chunk : bytes) sh nm ob mp rs pd ws calls :
  accounted sent (mkSupervisor sh nm [] ob mp rs pd ws calls) ->
  accounted (sent ++ [chunk])
    (mkSupervisor sh nm [] (ob ++ [(S (length sent), chunk)]) mp rs (pd + 1) ws calls).
Proof.
  intros Hacc Halive. destruct (Hacc Halive) as (Hi & Hpend & Hperm).
  cbn [inbox outbox results _pending_chunks map app length] in *.
  split; [constructor|]. split; [rewrite length_app; cbn [length]; lia|].
  rewrite sent_digests_snoc, <- Hperm, map_app, app_assoc. reflexivity.
Qed.

Ltac split_invariant :=
  refine (conj _ (conj _ (conj _ (conj _ (conj _ (conj _ _)))))).

(** One turn of the loop keeps the invariant. *)
Lemma loop_invariant_step (C : nat) (stream : bytes) (i : nat) (sup : UploadSupervisor)
    (evs : list WorkerEvent) :
  (1 <= C)%nat -> loop_invariant C stream i sup ->
  match _check_workers (workers_run evs sup) with
  | (Some e, s) => True
  | (None, s) =>
    match _handle_results s with
    | (Some e, s) => True
    | (None, s) =>
      match get_chunk (stream_handler s) with
      | (Some (b :: c), sh) =>
        loop_invariant C stream (S i) (_send_chunk (S i) (b :: c) (set_stream s sh))
      | (_, sh) => loop_invariant C stream i (set_stream s sh)
      end
    end
  end.
Proof.
  intros HC (sent & d & cuts & eof & Hsh & Heof & Hsl & Hi & Hib & Hal & Hacc).
  pose proof (workers_run_frame evs sup) as (Fsh & _). cbn zeta in Fsh.
  pose proof (workers_run_accounted sent evs sup Hacc) as Hacc1.
  destruct (workers_run evs sup) as [sh nm ib ob mp rs pd ws calls].
  cbn [stream_handler] in Fsh. rewrite Hsh in Fsh. subst sh i.
  unfold _check_workers. cbn [_workers].
  destruct (forallb id ws) eqn:Hal1; [|exact I].
  destruct (Hacc1 Hal1) as (Hwr & _ & _). cbn [inbox] in Hwr.
  rewrite _handle_results_spec
    by (cbn [inbox]; eapply List.Forall_impl; [|exact Hwr]; now intros r [? _]).
  cbn [stream_handler name inbox outbox multipart results _pending_chunks _workers s3_calls].
  destruct eof.
  - (* the stream is at its end: nothing more is sent *)
    rewrite get_chunk_eof by reflexivity.
    exists sent, d, cuts, true. unfold set_stream. cbn.
    split_invariant; try assumption; try reflexivity.
    now apply drained_accounted
      with (sh := mkStreamHandler (mkInput d cuts) (Z.of_nat C) [] true).
  - destruct (get_chunk_spec C d cuts HC) as (cuts' & ->).
    destruct (Nat.leb_spec C (length d)) as [Hle|Hlt].
    + (* a full chunk *)
      destruct d as [|x d']; [cbn [length] in Hle; lia|].
      destruct C as [|C']; [lia|]. cbn [firstn].
      exists (sent ++ [x :: firstn C' d']), (skipn (S C') (x :: d')), cuts', false.
      unfold _send_chunk, set_stream, set_pending, set_queues. cbn.
      split_invariant; try assumption; try reflexivity; try discriminate.
      * rewrite Hsl, slices_cons by (lia || discriminate).
        rewrite <- app_assoc. reflexivity.
      * rewrite length_app. cbn [length]. lia.
      * apply sent_accounted.
        now apply drained_accounted
          with (sh := mkStreamHandler (mkInput (x :: d') cuts) (Z.of_nat (S C')) [] false).
    + destruct d as [|x d'].
      * (* the empty chunk at the end of the stream: not sent *)
        exists sent, [], cuts', true. unfold set_stream. cbn.
        split_invariant; try assumption; try reflexivity.
        now apply drained_accounted
          with (sh := mkStreamHandler (mkInput [] cuts) (Z.of_nat C) [] false).
      * (* the last, short chunk *)
        exists (sent ++ [x :: d']), [], cuts', true.
        unfold _send_chunk, set_stream, set_pending, set_queues. cbn.
        split_invariant; try assumption; try reflexivity.
        -- rewrite Hsl, slices_short by (discriminate || assumption).
           now rewrite ?slices_nil, ?app_nil_r.
        -- rewrite length_app. cbn [length]. lia.
        -- apply sent_accounted.
           now apply drained_accounted
             with (sh := mkStreamHandler (mkInput (x :: d') cuts) (Z.of_nat C) [] false).
Qed.

(** *** The tag that is returned *)

(** Once every chunk sent has its result recorded, in whatever order, the
    digests of the sorted results are the digests of the chunks in the
    order they were sent. *)
Lemma sorted_results_digests (sent : list bytes) (rs : list (nat * string * string)) :
  Permutation (map tuple_digest rs) (sent_digests sent) ->
  map (fun r => snd (fst r)) (sorted tuple_lt rs) = map hexdigest sent.
Proof.
  intros Hperm.
  set (key := fun t : nat * string * string => fst (fst t)).
  assert (Hnd : List.NoDup (map key rs)).
  { apply (Permutation_NoDup (l := seq 1 (length (map hexdigest sent)))); [|apply seq_NoDup].
    unfold Pput.sent_digests in Hperm. rewrite <- (length_map hexdigest) in Hperm.
    rewrite <- (map_fst_combine_seq 1 (map hexdigest sent)), <- Hperm, map_map.
    reflexivity. }
  rewrite (sorted_ext key tuple_lt rs); [| |exact Hnd].
  2:{ intros [[i1 m1] e1] [[i2 m2] e2] Hne. unfold key in Hne. cbn [fst] in Hne.
      unfold tuple_lt, key. cbn [fst].
      destruct (Nat.eqb_spec i1 i2) as [|_]; [congruence|].
      now rewrite andb_false_l, orb_false_r. }
  pose proof (sorted_strict key rs Hnd) as Hstrict.
  set (T := sorted _ rs) in *.
  assert (HT : map tuple_digest T = sent_digests sent).
  { apply (strictly_sorted_perm_eq fst).
    - apply (StronglySorted_map tuple_digest (fun x y => (fst x < fst y)%nat)).
      exact Hstrict.
    - unfold Pput.sent_digests. rewrite <- (length_map hexdigest).
      apply combine_seq_sorted.
    - rewrite <- Hperm. apply Permutation_map. apply sorted_perm. }
  transitivity (map snd (map tuple_digest T)); [now rewrite map_map|].
  rewrite HT. unfold Pput.sent_digests. rewrite <- (length_map hexdigest).
  apply map_snd_combine_seq.
Qed.

(** Leaving the loop with the invariant. *)
Lemma loop_invariant_exit (C : nat) (stream : bytes) (i : nat) (sup : UploadSupervisor) :
  loop_invariant C stream i sup -> main_loop_condition sup = false ->
  match fst (main_loop_finish sup) with
  | Returned tag => tag = composite_etag (slices C stream) /\ slices C stream <> []
  | _ => True
  end.
Proof.
  intros (sent & d & cuts & eof & Hsh & Heof & Hsl & Hi & Hib & Hal & Hacc) Hcond.
  unfold main_loop_condition in Hcond. apply orb_false_elim in Hcond as [Hpend Hfin].
  apply negb_false_iff in Hpend, Hfin. apply Z.eqb_eq in Hpend.
  rewrite Hsh in Hfin. unfold finished in Hfin. cbn in Hfin.
  rewrite andb_true_r in Hfin. subst eof. rewrite (Heof eq_refl), slices_nil, app_nil_r in Hsl.
  destruct (Hacc Hal) as (_ & Hcount & Hperm).
  rewrite Hib, Hpend in Hcount. cbn [length Nat.add] in Hcount.
  assert (Hob : outbox sup = []) by (destruct (outbox sup); [reflexivity | cbn in Hcount; lia]).
  rewrite Hib, Hob in Hperm. cbn [map app] in Hperm. rewrite app_nil_r in Hperm.
  unfold Pput.main_loop_finish, _finish_upload.
  destruct (Nat.eqb_spec (length (results sup)) 0) as [|Hne]; [exact I|].
  cbn [fst snd s3_request set_results results].
  rewrite (sorted_results_digests sent) by exact Hperm.
  rewrite multipart_etag_hexdigests. cbn [fst]. rewrite Hsl. split; [reflexivity|].
  intros ->. apply Permutation_length in Hperm. rewrite length_map in Hperm.
  cbn in Hperm. lia.
Qed.

Lemma main_loop_while_composite (C : nat) (stream : bytes)
    (schedule : list (list WorkerEvent)) (i : nat) (sup : UploadSupervisor) :
  (1 <= C)%nat -> loop_invariant C stream i sup ->
  match fst (main_loop_while schedule i sup) with
  | Returned tag => tag = composite_etag (slices C stream) /\ slices C stream <> []
  | _ => True
  end.
Proof.
  intros HC HI.
  apply (main_loop_while_rule
           (loop_invariant C stream)
           (fun out _ => match out with
                         | Returned tag =>
                           tag = composite_etag (slices C stream) /\ slices C stream <> []
                         | _ => True
                         end)) with (i := i); [| | |exact HI].
  - intros. exact I.
  - intros i' sup' evs HI' _.
    pose proof (loop_invariant_step _ _ _ _ evs HC HI') as Hs.
    destruct (_check_workers _) as [[e|] s1]; [exact I|].
    destruct (_handle_results s1) as [[e|] s2]; [exact I|].
    exact Hs.
  - intros i' sup' HI' Hc. exact (loop_invariant_exit _ _ _ _ HI' Hc).
Qed.

(** C3. Whenever [main_loop] returns, for a stream read in chunks of
    [C >= 1] bytes, whatever the workers did and in whatever order their
    results came in: the value is the composite tag of the chunks of the
    stream, the hex MD5 of their raw MD5 digests in ascending part order,
    then [-] and the number of parts, between single quotes; and there is
    at least one part. *)
Theorem returned_etag_is_composite (C : Z) (stream : bytes) (cuts : list nat)
    (concurrency : nat) (initiate_ok : bool) (schedule : list (list WorkerEvent))
    (key : string) (tag : string) :
  1 <= C ->
  fst (main_loop concurrency initiate_ok schedule
         (UploadSupervisor_init (StreamHandler_init (mkInput stream cuts) C) key))
  = Returned tag ->
  tag = composite_etag (slices (Z.to_nat C) stream)
  /\ slices (Z.to_nat C) stream <> [].
Proof.
  intros HC. unfold Pput.main_loop, _begin_upload, UploadSupervisor_init.
  cbn [multipart]. destruct initiate_ok; [|discriminate].
  cbn [fst snd]. intros Hret.
  match type of Hret with fst (Pput.main_loop_while _ ?s ?i ?sup) = _ =>
    pose proof (main_loop_while_composite (Z.to_nat C) stream s i sup ltac:(lia)) as H
  end.
  rewrite Hret in H. apply H.
  exists [], stream, cuts, false.
  unfold _start_workers, set_workers, set_queues, StreamHandler_init.
  cbn. replace (Z.of_nat (Z.to_nat C)) with C by lia.
  split_invariant; try reflexivity; try discriminate.
  - apply forallb_repeat_true.
  - intros _. cbn. repeat split; constructor.
Qed.

(** *** A chunk size of zero *)

Lemma get_chunk_zero_size (d : bytes) (cuts : list nat) :
  get_chunk (StreamHandler_init (mkInput d cuts) 0)
  = (Some [], mkStreamHandler (mkInput d (tail cuts)) 0 [] true).
Proof.
  unfold get_chunk, get_chunk_fuel, StreamHandler_init.
  cbn [input_stream data get_chunk_loop _eof_reached chunk_size _partial_chunk].
  unfold read. change (0 - len []) with 0. cbn [Z.ltb Z.compare data short_reads].
  now destruct cuts.
Qed.

(** X1. With a chunk size of 0 ([--chunk-size 0]) the reader asks the stream
    for 0 bytes, takes the empty answer for the end of the stream and hands
    out one empty chunk without consuming a byte; [main_loop] then sends
    nothing, aborts the upload and raises, and [main] returns 1, whatever
    the input holds. *)
Theorem zero_chunk_size_uploads_nothing (key : string) (concurrency : nat)
    (progress quiet : bool) (stream : bytes) (cuts : list nat)
    (evs : list WorkerEvent) (schedule : list (list WorkerEvent)) :
  let sh := StreamHandler_init (mkInput stream cuts) 0 in
  let run := main hashlib_md5 (mkArgs key 0 None concurrency progress quiet)
                  (mkInput stream cuts) true (evs :: schedule) in
  fst (get_chunk sh) = Some []
  /\ data (input_stream (snd (get_chunk sh))) = stream
  /\ finished (snd (get_chunk sh)) = true
  /\ requests run = [InitiateMultipartUpload key; AbortMultipartUpload]
  /\ status run = Returned (Some 1)
  /\ stdout run = [].
Proof.
  cbn zeta. rewrite get_chunk_zero_size. cbn [fst snd input_stream data].
  split; [reflexivity|]. split; [reflexivity|]. split; [reflexivity|].
  assert (Hloop :
    main_loop concurrency true (evs :: schedule)
      (UploadSupervisor_init (StreamHandler_init (mkInput stream cuts) 0) key)
    = main_loop_finish
        (mkSupervisor (mkStreamHandler (mkInput stream (tail cuts)) 0 [] true) key [] []
                      (Some key) [] 0 (repeat true concurrency)
                      [InitiateMultipartUpload key])).
  { unfold Pput.main_loop, _begin_upload, UploadSupervisor_init, _start_workers.
    cbn [multipart stream_handler name inbox outbox results _pending_chunks _workers s3_calls
         app].
    unfold set_workers, set_queues.
    cbn [multipart stream_handler name inbox outbox results _pending_chunks _workers s3_calls].
    cbn [Pput.main_loop_while]. unfold main_loop_condition at 1.
    cbn [_pending_chunks stream_handler StreamHandler_init finished _eof_reached andb negb orb
         Z.eqb].
    rewrite workers_run_idle by reflexivity.
    unfold _check_workers. cbn [_workers]. rewrite forallb_repeat_true.
    unfold _handle_results. cbn [inbox length _handle_results_loop stream_handler].
    change (mkStreamHandler (mkInput stream cuts) 0 [] false)
      with (StreamHandler_init (mkInput stream cuts) 0).
    rewrite get_chunk_zero_size. unfold set_stream.
    cbn [multipart stream_handler name inbox outbox results _pending_chunks _workers s3_calls].
    destruct schedule as [|evs' schedule]; reflexivity. }
  unfold main, main_chunk_size. cbn [args_estimated args_chunk_size args_name args_concurrency].
  rewrite Hloop. unfold Pput.main_loop_finish, _finish_upload, s3_request.
  cbn [results length Nat.eqb s3_calls app requests status stdout
       multipart stream_handler name inbox outbox _pending_chunks _workers].
  repeat split.
Qed.

(** *** A dead worker *)

Lemma kill_one_still_dead (workers : list bool) :
  forallb id workers = false -> forallb id (kill_one workers) = false.
Proof.
  induction workers as [|[|] w IH]; cbn; auto.
Qed.

Lemma worker_step_still_dead (ev : WorkerEvent) (sup : UploadSupervisor) :
  forallb id (_workers sup) = false -> forallb id (_workers (worker_step ev sup)) = false.
Proof.
  intros Hdead. unfold Pput.worker_step.
  destruct (negb _); [exact Hdead|].
  destruct ev as [i e|i]; destruct (take_job i (outbox sup)) as [[c rest]|];
    cbn [set_workers set_queues _workers]; auto using kill_one_still_dead.
Qed.

Lemma workers_run_still_dead (evs : list WorkerEvent) (sup : UploadSupervisor) :
  forallb id (_workers sup) = false -> forallb id (_workers (workers_run evs sup)) = false.
Proof.
  revert sup. induction evs as [|ev evs IH]; intros sup H; [exact H|].
  cbn [Pput.workers_run fold_left]. apply IH. now apply worker_step_still_dead.
Qed.

(** X4. A dead worker stops the upload. When, between two turns of the
    supervisor, [upload_part] raises for a job in flight (the worker thread
    ends there), then whatever the workers did before and do after it, the
    next turn of [main_loop] raises [WorkerCrashed] before any result is
    taken or any chunk read, and no request goes to the store: the upload
    is neither completed nor aborted. *)
Theorem dead_worker_stops_upload (before after : list WorkerEvent) (j : nat) (chunk : bytes)
    (schedule : list (list WorkerEvent)) (i : nat) (sup : UploadSupervisor) :
  main_loop_condition sup = true ->
  existsb id (_workers (workers_run before sup)) = true ->
  In (j, chunk) (outbox (workers_run before sup)) ->
  let evs := before ++ WorkerDied j :: after in
  main_loop_while (evs :: schedule) i sup = (Raised WorkerCrashed, workers_run evs sup)
  /\ s3_calls (workers_run evs sup) = s3_calls sup
  /\ results (workers_run evs sup) = results sup
  /\ stream_handler (workers_run evs sup) = stream_handler sup.
Proof.
  intros Hcond Hlive Hin evs.
  pose proof (workers_run_frame evs sup) as (Fsh & _ & _ & Frs & _ & Fcalls).
  cbn zeta in Fsh, Frs, Fcalls.
  split; [|now repeat split].
  cbn [Pput.main_loop_while]. rewrite Hcond.
  assert (Hdead : forallb id (_workers (workers_run evs sup)) = false).
  { unfold evs, Pput.workers_run. rewrite fold_left_app. cbn [fold_left].
    apply workers_run_still_dead. fold (workers_run before sup).
    unfold Pput.worker_step. rewrite Hlive. cbn [negb].
    destruct (take_job j (outbox (workers_run before sup))) as [[c rest]|] eqn:Ht.
    - cbn [set_workers set_queues _workers]. now apply kill_one_dead.
    - exfalso. clear -Hin Ht. induction (outbox (workers_run before sup)) as [|[k c] jobs IH].
      + destruct Hin.
      + cbn [take_job] in Ht. destruct (Nat.eqb_spec j k) as [|Hne]; [discriminate|].
        destruct (take_job j jobs) as [[c' rest']|]; [discriminate|].
        destruct Hin as [Heq|Hin]; [congruence|]. now apply IH. }
  unfold _check_workers. now rewrite Hdead.
Qed.

(** *** The parts of the complete request *)

Lemma combine_fst_snd {A B : Type} (l : list (A * B)) : combine (map fst l) (map snd l) = l.
Proof. induction l as [|[a b] l IH]; cbn; congruence. Qed.

Lemma seq_strongly_sorted (a n : nat) : StronglySorted (fun x y => (x < y)%nat) (seq a n).
Proof.
  revert a. induction n as [|n IH]; intros a; cbn [seq]; constructor; [apply IH|].
  apply List.Forall_forall. intros y Hy. apply in_seq in Hy. lia.
Qed.

(** Sorted by part number, the recorded results are the parts 1, 2, ... of
    the chunks sent, one each. *)
Lemma sorted_parts_numbered (sent : list bytes) (rs : list (nat * string * string)) :
  Permutation (map tuple_digest rs) (sent_digests sent) ->
  exists etags,
    length etags = length sent
    /\ sorted part_number_lt (map (fun r => (fst (fst r), snd r)) rs)
       = combine (seq 1 (length etags)) etags.
Proof.
  intros Hperm.
  set (parts := map (fun r : nat * string * string => (fst (fst r), snd r)) rs).
  assert (Hk : Permutation (map fst parts) (seq 1 (length sent))).
  { transitivity (map fst (map tuple_digest rs)).
    - unfold parts. rewrite !map_map. reflexivity.
    - rewrite Hperm. unfold Pput.sent_digests.
      rewrite <- (length_map hexdigest sent), map_fst_combine_seq. reflexivity. }
  assert (Hnd : List.NoDup (map fst parts)).
  { apply (Permutation_NoDup (l := seq 1 (length sent))); [now symmetry|apply seq_NoDup]. }
  pose proof (sorted_strict fst parts Hnd) as Hstrict.
  pose proof (sorted_perm (A := nat * string) part_number_lt parts) as Hsp.
  change (fun a b : nat * string => (fst a <? fst b)%nat) with part_number_lt in Hstrict.
  set (P := sorted part_number_lt parts) in *.
  assert (Hfst : map fst P = seq 1 (length sent)).
  { apply (strictly_sorted_perm_eq (fun x : nat => x)).
    - apply (StronglySorted_map fst (fun x y => (x < y)%nat)). exact Hstrict.
    - apply seq_strongly_sorted.
    - rewrite <- Hk. now apply Permutation_map. }
  exists (map snd P). rewrite length_map.
  assert (Hlen : length P = length sent).
  { rewrite <- (length_map fst P), Hfst. apply length_seq. }
  split; [exact Hlen|].
  rewrite Hlen, <- Hfst. symmetry. apply combine_fst_snd.
Qed.

(** Leaving the loop with the invariant: the requests made. *)
Lemma loop_invariant_exit_parts (C : nat) (stream : bytes) (key : string) (i : nat)
    (sup : UploadSupervisor) :
  loop_invariant C stream i sup -> upload_started key sup ->
  main_loop_condition sup = false ->
  match fst (main_loop_finish sup) with
  | Returned tag =>
    forallb id (_workers (snd (main_loop_finish sup))) = true
    /\ exists etags,
         length etags = length (slices C stream)
         /\ s3_calls (snd (main_loop_finish sup))
            = [InitiateMultipartUpload key;
               CompleteMultipartUpload (combine (seq 1 (length etags)) etags)]
  | _ => True
  end.
Proof.
  intros (sent & d & cuts & eof & Hsh & Heof & Hsl & Hi & Hib & Hal & Hacc) (Hcalls & _) Hcond.
  unfold main_loop_condition in Hcond. apply orb_false_elim in Hcond as [Hpend Hfin].
  apply negb_false_iff in Hpend, Hfin. apply Z.eqb_eq in Hpend.
  rewrite Hsh in Hfin. unfold finished in Hfin. cbn in Hfin.
  rewrite andb_true_r in Hfin. subst eof. rewrite (Heof eq_refl), slices_nil, app_nil_r in Hsl.
  destruct (Hacc Hal) as (_ & Hcount & Hperm).
  rewrite Hib, Hpend in Hcount. cbn [length Nat.add] in Hcount.
  assert (Hob : outbox sup = []) by (destruct (outbox sup); [reflexivity | cbn in Hcount; lia]).
  rewrite Hib, Hob in Hperm. cbn [map app] in Hperm. rewrite app_nil_r in Hperm.
  unfold Pput.main_loop_finish, _finish_upload.
  destruct (Nat.eqb_spec (length (results sup)) 0) as [|Hne]; [exact I|].
  cbn [fst snd s3_request set_results results].
  rewrite (sorted_results_digests sent) by exact Hperm.
  rewrite multipart_etag_hexdigests. cbn [fst snd _workers s3_calls]. split; [exact Hal|].
  destruct (sorted_parts_numbered sent (results sup) Hperm) as (etags & Hlen & ->).
  exists etags. unfold set_results, s3_request. cbn [s3_calls].
  rewrite Hsl, Hcalls. split; [exact Hlen|reflexivity].
Qed.

(** X2. Whenever [main_loop] returns, for a stream read in chunks of
    [C >= 1] bytes, whatever the workers did and in whatever order their
    results came in: the requests on the upload are the initiate and then
    one complete, whose part list has the part numbers 1, 2, ..., n in
    ascending order, n being the number of chunks of the stream, each once;
    and no worker has died. *)
Theorem complete_lists_every_part (C : Z) (stream : bytes) (cuts : list nat)
    (concurrency : nat) (initiate_ok : bool) (schedule : list (list WorkerEvent))
    (key : string) (tag : string) :
  1 <= C ->
  let run := main_loop concurrency initiate_ok schedule
               (UploadSupervisor_init (StreamHandler_init (mkInput stream cuts) C) key) in
  fst run = Returned tag ->
  forallb id (_workers (snd run)) = true
  /\ exists etags,
       length etags = length (slices (Z.to_nat C) stream)
       /\ s3_calls (snd run)
          = [InitiateMultipartUpload key;
             CompleteMultipartUpload (combine (seq 1 (length etags)) etags)].
Proof.
  intros HC. cbn zeta. unfold Pput.main_loop, _begin_upload, UploadSupervisor_init.
  cbn [multipart stream_handler name inbox outbox results _pending_chunks _workers s3_calls
       app].
  destruct initiate_ok; [|discriminate]. intros Hret.
  set (Q := fun (out : Outcome string) (s : UploadSupervisor) =>
              match out with
              | Returned _ =>
                forallb id (_workers s) = true
                /\ exists etags,
                     length etags = length (slices (Z.to_nat C) stream)
                     /\ s3_calls s
                        = [InitiateMultipartUpload key;
                           CompleteMultipartUpload (combine (seq 1 (length etags)) etags)]
              | _ => True
              end).
  match type of Hret with fst (Pput.main_loop_while _ ?s ?i ?sup) = _ =>
    assert (HQ : Q (fst (main_loop_while s i sup)) (snd (main_loop_while s i sup)))
  end.
  { apply (main_loop_while_rule
             (fun i sup => loop_invariant (Z.to_nat C) stream i sup /\ upload_started key sup)).
    - intros. exact I.
    - intros i sup evs [HI HU] _.
      assert (HC' : (1 <= Z.to_nat C)%nat) by lia.
      pose proof (loop_invariant_step _ _ _ _ evs HC' HI) as Hs.
      pose proof (upload_started_turn key sup evs HU) as Hu.
      destruct (_check_workers _) as [[e|] s1]; [exact I|].
      destruct (_handle_results s1) as [[e|] s2]; [exact I|].
      destruct (get_chunk _) as [[[|b c]|] sh']; auto.
    - intros i sup [HI HU] Hc. exact (loop_invariant_exit_parts _ _ _ _ _ HI HU Hc).
    - split; [|apply upload_started_initially].
      exists [], stream, cuts, false.
      unfold _start_workers, set_workers, set_queues, StreamHandler_init.
      cbn. replace (Z.of_nat (Z.to_nat C)) with C by lia.
      split_invariant; try reflexivity; try discriminate.
      + apply forallb_repeat_true.
      + intros _. cbn. repeat split; constructor. }
  unfold Q in HQ. rewrite Hret in HQ. exact HQ.
Qed.

(** *** Prompt workers *)

Lemma slices_nil_inv (C : nat) (d : bytes) : (1 <= C)%nat -> slices C d = [] -> d = [].
Proof.
  intros HC H. destruct d as [|x d]; [reflexivity|].
  rewrite slices_cons in H by (assumption || discriminate). discriminate.
Qed.

Lemma sorted_strictly_sorted {A : Type} (key : A -> nat) (l : list A) :
  StronglySorted (fun a b => (key a < key b)%nat) l ->
  sorted (fun a b => (key a <? key b)%nat) l = l.
Proof.
  induction 1 as [|x l Hl IH Hx]; [reflexivity|].
  cbn [Pput.sorted fold_right]. fold (sorted (fun a b => (key a <? key b)%nat) l). rewrite IH.
  destruct l as [|y l']; [reflexivity|]. cbn [insert_sorted].
  apply List.Forall_inv in Hx. destruct (Nat.ltb_spec (key y) (key x)); [lia|reflexivity].
Qed.

Lemma map_parts_combine (a : list nat) (b c : list string) :
  length a = length b -> length b = length c ->
  map (fun r : nat * string * string => (fst (fst r), snd r)) (combine (combine a b) c)
  = combine a c
  /\ map tuple_digest (combine (combine a b) c) = combine a b.
Proof.
  revert b c. induction a as [|x a IH]; intros [|y b] [|z c] Hab Hbc;
    try discriminate; [now split|].
  cbn [combine map fst snd tuple_digest]. unfold tuple_digest at 1. cbn [fst snd].
  injection Hab as Hab. injection Hbc as Hbc. destruct (IH b c Hab Hbc) as [-> ->].
  now split.
Qed.

(** One turn after the other on the prompt schedule: the part sent on the
    turn before comes back, the next chunk goes out, until the stream is at
    its end and the loop is left with every part recorded in order. *)
Lemma prompt_turns (C : nat) (concurrency : nat) (key : string) (calls : list S3Call) :
  (1 <= C)%nat -> (1 <= concurrency)%nat ->
  forall (es : list string) (d : bytes) (cuts : list nat) (eof : bool) (i : nat) (c : bytes)
         (rs : list (nat * string * string)) (e : string),
    (eof = true -> d = []) ->
    length es = length (slices C d) ->
    exists cuts',
      main_loop_while
        (map (fun p => [PartUploaded (fst p) (snd p)])
             (combine (seq i (S (length es))) (e :: es)))
        i
        (mkSupervisor (mkStreamHandler (mkInput d cuts) (Z.of_nat C) [] eof) key []
                      [(i, c)] (Some key) rs 1 (repeat true concurrency) calls)
      = main_loop_finish
          (mkSupervisor (mkStreamHandler (mkInput [] cuts') (Z.of_nat C) [] true) key [] []
             (Some key)
             (rs ++ (i, hexdigest c, e)
                 :: combine (combine (seq (S i) (length es)) (map hexdigest (slices C d))) es)
             0 (repeat true concurrency) calls).
Proof.
  intros HC Hconc.
  assert (Hlive : existsb id (repeat true concurrency) = true).
  { destruct concurrency; [lia|reflexivity]. }
  assert (Hturn : forall d cuts eof i c rs e rest,
    main_loop_while ([PartUploaded i e] :: rest) i
      (mkSupervisor (mkStreamHandler (mkInput d cuts) (Z.of_nat C) [] eof) key []
                    [(i, c)] (Some key) rs 1 (repeat true concurrency) calls)
    = match get_chunk (mkStreamHandler (mkInput d cuts) (Z.of_nat C) [] eof) with
      | (Some (b :: c'), sh) =>
        main_loop_while rest (S i)
          (mkSupervisor sh key [] [(S i, b :: c')] (Some key) (rs ++ [(i, hexdigest c, e)]) 1
                        (repeat true concurrency) calls)
      | (_, sh) =>
        main_loop_while rest i
          (mkSupervisor sh key [] [] (Some key) (rs ++ [(i, hexdigest c, e)]) 0
                        (repeat true concurrency) calls)
      end).
  { intros d cuts eof i c rs e rest.
    cbn [Pput.main_loop_while]. unfold main_loop_condition at 1.
    cbn [_pending_chunks Z.eqb negb orb].
    unfold Pput.workers_run. cbn [fold_left]. unfold Pput.worker_step at 1.
    cbn [_workers outbox take_job]. rewrite Hlive, Nat.eqb_refl. cbn [negb].
    unfold set_queues at 1.
    cbn [stream_handler name inbox outbox multipart results _pending_chunks _workers s3_calls
         app].
    unfold _check_workers. cbn [_workers]. rewrite forallb_repeat_true.
    unfold _handle_results. cbn [inbox length _handle_results_loop].
    unfold _handle_result. cbn [inbox success index md5 etag].
    unfold set_pending, set_results, set_queues.
    cbn [stream_handler name inbox outbox multipart results _pending_chunks _workers s3_calls
         Z.sub Z.add Z.opp Z.pos_sub].
    destruct (get_chunk _) as [[[|b c']|] sh]; reflexivity. }
  induction es as [|e' es IH]; intros d cuts eof i c rs e Heof Hlen.
  - (* no chunk is left *)
    symmetry in Hlen. apply List.length_zero_iff_nil in Hlen.
    pose proof (slices_nil_inv C d HC Hlen) as ->. rewrite slices_nil.
    cbn [length seq combine map]. rewrite Hturn.
    destruct eof.
    + rewrite get_chunk_eof by reflexivity. exists cuts. reflexivity.
    + destruct (get_chunk_spec C [] cuts HC) as (cuts' & ->).
      destruct (Nat.leb_spec C (length (@nil byte))) as [Hle|_]; [cbn in Hle; lia|].
      exists cuts'. reflexivity.
  - (* the next chunk goes out *)
    assert (Hd : d <> []) by (intros ->; rewrite slices_nil in Hlen; discriminate).
    destruct eof; [now specialize (Heof eq_refl)|].
    rewrite slices_cons in Hlen |- * by assumption.
    cbn [length] in Hlen. injection Hlen as Hlen.
    change (map (fun p => [PartUploaded (fst p) (snd p)])
                (combine (seq i (S (length (e' :: es)))) (e :: e' :: es)))
      with ([PartUploaded i e]
              :: map (fun p => [PartUploaded (fst p) (snd p)])
                     (combine (seq (S i) (S (length es))) (e' :: es))).
    rewrite Hturn.
    destruct (get_chunk_spec C d cuts HC) as (cuts1 & ->).
    assert (Hfirst : exists b c', firstn C d = b :: c').
    { destruct d as [|x d']; [contradiction|]. destruct C; [lia|]. cbn. eauto. }
    destruct Hfirst as (b & c' & Hbc).
    destruct (Nat.leb_spec C (length d)) as [Hle|Hlt].
    + rewrite Hbc.
      destruct (IH (skipn C d) cuts1 false (S i) (b :: c') (rs ++ [(i, hexdigest c, e)]) e')
        as (cuts' & ->); [discriminate|exact Hlen|].
      exists cuts'. rewrite <- Hbc, <- app_assoc. reflexivity.
    + rewrite firstn_all2 in Hbc by lia. rewrite skipn_all2 in Hlen |- * by lia.
      rewrite (firstn_all2 d) by lia. subst d.
      destruct (IH [] cuts1 true (S i) (b :: c') (rs ++ [(i, hexdigest c, e)]) e')
        as (cuts' & ->); [reflexivity|exact Hlen|].
      exists cuts'. rewrite <- app_assoc. reflexivity.
Qed.

(** X3. With workers that finish every part at once, an upload of a
    non-empty stream goes through: for every chunk size [C >= 1], at least
    one worker and whatever the store answers as entity tags, [main_loop]
    run on the prompt schedule returns the composite tag of the chunks of
    the stream, and the requests on the upload are the initiate and one
    complete that lists part [n] with the tag the store gave for it, for
    [n] from 1 to the number of chunks. *)
Theorem prompt_workers_complete_upload (C : Z) (stream : bytes) (cuts : list nat)
    (concurrency : nat) (key : string) (etags : list string) :
  1 <= C -> stream <> [] -> (1 <= concurrency)%nat ->
  length etags = length (slices (Z.to_nat C) stream) ->
  let run := main_loop concurrency true (prompt_schedule etags)
               (UploadSupervisor_init (StreamHandler_init (mkInput stream cuts) C) key) in
  fst run = Returned (composite_etag (slices (Z.to_nat C) stream))
  /\ s3_calls (snd run)
     = [InitiateMultipartUpload key;
        CompleteMultipartUpload (combine (seq 1 (length etags)) etags)].
Proof.
  intros HC Hne Hconc Hlen. cbn zeta.
  assert (HC' : (1 <= Z.to_nat C)%nat) by lia.
  set (n := Z.to_nat C) in *. replace C with (Z.of_nat n) by lia.
  rewrite slices_cons in Hlen by assumption.
  destruct etags as [|e es]; [discriminate|]. cbn [length] in Hlen. injection Hlen as Hlen.
  (* the run is what [main_loop_finish] makes of the results of all the turns *)
  assert (Hrun : exists cuts' : list nat,
    main_loop concurrency true (prompt_schedule (e :: es))
      (UploadSupervisor_init (StreamHandler_init (mkInput stream cuts) (Z.of_nat n)) key)
    = main_loop_finish
        (mkSupervisor (mkStreamHandler (mkInput [] cuts') (Z.of_nat n) [] true) key [] []
           (Some key)
           ([] ++ (1%nat, hexdigest (firstn n stream), e)
               :: combine (combine (seq 2 (length es))
                                   (map hexdigest (slices n (skipn n stream)))) es)
           0 (repeat true concurrency) [InitiateMultipartUpload key])).
  { unfold Pput.main_loop, _begin_upload, UploadSupervisor_init, _start_workers,
      prompt_schedule, StreamHandler_init.
    cbn [multipart stream_handler name inbox outbox results _pending_chunks _workers s3_calls
         app].
    unfold set_workers, set_queues.
    cbn [multipart stream_handler name inbox outbox results _pending_chunks _workers s3_calls].
    (* the first turn: the first chunk goes out *)
    cbn [Pput.main_loop_while]. unfold main_loop_condition at 1.
    cbn [_pending_chunks stream_handler finished _eof_reached andb negb orb Z.eqb].
    rewrite workers_run_idle by reflexivity.
    unfold _check_workers. cbn [_workers]. rewrite forallb_repeat_true.
    unfold _handle_results. cbn [inbox length _handle_results_loop stream_handler].
    destruct (get_chunk_spec n stream cuts HC') as (cuts1 & ->).
    assert (Hfirst : exists b c', firstn n stream = b :: c').
    { destruct stream as [|x d']; [contradiction|]. destruct n; [lia|]. cbn. eauto. }
    destruct Hfirst as (b & c' & Hbc).
    unfold _send_chunk, set_stream, set_pending, set_queues.
    destruct (Nat.leb_spec n (length stream)) as [Hle|Hlt].
    - rewrite Hbc.
      cbn [stream_handler name inbox outbox multipart results _pending_chunks _workers
           s3_calls app].
      change (0 + 1) with 1.
      destruct (prompt_turns n concurrency key [InitiateMultipartUpload key] HC' Hconc
                  es (skipn n stream) cuts1 false 1%nat (b :: c') [] e)
        as (cuts' & Hrun); [discriminate|exact Hlen|].
      exists cuts'. cbn [length] in Hrun |- *. exact Hrun.
    - rewrite skipn_all2 in Hlen |- * by lia.
      rewrite (firstn_all2 stream) in Hbc |- * by lia. subst stream.
      cbn [stream_handler name inbox outbox multipart results _pending_chunks _workers
           s3_calls app].
      change (0 + 1) with 1.
      destruct (prompt_turns n concurrency key [InitiateMultipartUpload key] HC' Hconc
                  es [] cuts1 true 1%nat (b :: c') [] e)
        as (cuts' & Hrun); [reflexivity|exact Hlen|].
      exists cuts'. cbn [length] in Hrun |- *. exact Hrun. }
  destruct Hrun as (cuts' & ->). cbn [app].
  set (rs := _ :: combine _ es).
  assert (Hrs : rs = combine (combine (seq 1 (S (length es)))
                                      (map hexdigest (slices n stream))) (e :: es)).
  { unfold rs. rewrite (slices_cons n stream) by assumption. reflexivity. }
  assert (Hl1 : length (seq 1 (S (length es))) = length (map hexdigest (slices n stream))).
  { rewrite length_seq, length_map, (slices_cons n stream) by assumption.
    cbn [length]. now rewrite Hlen. }
  assert (Hl2 : length (map hexdigest (slices n stream)) = length (e :: es)).
  { rewrite <- Hl1, length_seq. reflexivity. }
  destruct (map_parts_combine _ _ _ Hl1 Hl2) as [Hparts Hdig]. rewrite <- Hrs in Hparts, Hdig.
  assert (Hsent : map tuple_digest rs = sent_digests (slices n stream)).
  { rewrite Hdig. unfold Pput.sent_digests.
    rewrite length_seq, length_map in Hl1. now rewrite <- Hl1. }
  unfold Pput.main_loop_finish, _finish_upload. cbn [results].
  assert (Hlen_rs : (length rs =? 0)%nat = false) by (unfold rs; reflexivity).
  rewrite Hlen_rs. cbn [fst snd s3_request set_results results].
  rewrite (sorted_results_digests (slices n stream)) by (rewrite Hsent; reflexivity).
  rewrite multipart_etag_hexdigests. cbn [fst snd]. split; [reflexivity|].
  unfold set_results. cbn [s3_calls app]. rewrite Hparts.
  change part_number_lt with (fun a b : nat * string => (fst a <? fst b)%nat).
  rewrite sorted_strictly_sorted; [reflexivity|].
  replace (S (length es)) with (length (e :: es)) by reflexivity.
  apply combine_seq_sorted.
Qed.

End Supervisor.

(** The failing run of C1: a worker dies on the only part of a one-byte
    stream, the supervisor raises [WorkerCrashed] on its next turn, and the
    only request ever made on the upload is the initiate. *)
Lemma worker_crash_leaves_upload_open_witness :
  let run := main_loop MD5.digest 1 true [[]; [WorkerDied 1]]
               (UploadSupervisor_init
                  (StreamHandler_init (mkInput ["a"%byte] []) 5242880) "k") in
  fst run = Raised WorkerCrashed
  /\ s3_calls (snd run) = [InitiateMultipartUpload "k"]
  /\ ~ In AbortMultipartUpload (s3_calls (snd run)).
Proof.
  cbn zeta. split; [vm_compute; reflexivity|].
  apply (worker_crash_leaves_upload_open MD5.digest 1 [[]; [WorkerDied 1]]
           (StreamHandler_init (mkInput ["a"%byte] []) 5242880) "k").
  vm_compute. reflexivity.
Defined.

Lemma zero_bytes_abort_and_fail_witness :
  let args := mkArgs "k" 5242880 None 4 false false in
  let run := main MD5.digest args (mkInput [] []) true [[]] in
  requests run = [InitiateMultipartUpload "k"; AbortMultipartUpload]
  /\ status run = Returned (Some 1)
  /\ In (Message ("Error: " +:+ "Can't upload zero bytes" +:+ "!" +:+ String "010" EmptyString))
        (stderr run)
  /\ exit_code run = Some 1 /\ exit_code run <> Some 0.
Proof.
  exact (zero_bytes_abort_and_fail MD5.digest (mkArgs "k" 5242880 None 4 false false)
           5242880 [] [] [] eq_refl).
Defined.

Lemma returned_etag_is_composite_witness :
  let stream := ["a"; "b"; "c"; "d"; "e"]%byte in
  let schedule := [[]; []; [PartUploaded 2 "e2"]; [PartUploaded 3 "e3"; PartUploaded 1 "e1"]] in
  let run := main_loop MD5.digest 3 true schedule
               (UploadSupervisor_init (StreamHandler_init (mkInput stream [0%nat]) 2) "k") in
  fst run = Returned "'b5d55eef9b6106b14530433c1a359920-3'"
  /\ "'b5d55eef9b6106b14530433c1a359920-3'" = composite_etag MD5.digest (slices 2 stream)
  /\ slices 2 stream <> [].
Proof.
  cbn zeta. split; [vm_compute; reflexivity|].
  apply (returned_etag_is_composite MD5.digest 2 ["a"; "b"; "c"; "d"; "e"]%byte [0%nat] 3 true
           [[]; []; [PartUploaded 2 "e2"]; [PartUploaded 3 "e3"; PartUploaded 1 "e1"]] "k").
  - lia.
  - vm_compute. reflexivity.
Defined.

(** ** The chunk size from the estimated size *)

(** the literal [1.05] is the double that the correctly rounded division
    of 105 by 100 gives *)
Lemma float_1_05_nearest :
  SFdiv prec emax (S754_finite false 105 0) (S754_finite false 100 0) = float_1_05.
Proof. vm_compute. reflexivity. Qed.

Lemma int_of_float_lower_bound (n : Z) (x : spec_float) (c : Z) :
  0 < n -> int_gt_float n x = false -> int_of_float x = inr c -> n <= c.
Proof.
  intros Hn Hgt Hint. destruct x as [s|s| |s m e]; cbn in Hgt, Hint; try discriminate.
  - apply Z.ltb_ge in Hgt. lia.
  - injection Hint as <-. unfold cond_Zopp in *.
    destruct (Z.leb_spec 0 e) as [He|He].
    + apply Z.ltb_ge in Hgt.
      assert (0 < 2 ^ e) by (apply Z.pow_pos_nonneg; lia).
      destruct s; [|exact Hgt].
      assert (0 < Z.pos m * 2 ^ e) by lia. lia.
    + apply Z.ltb_ge in Hgt.
      assert (0 < 2 ^ (- e)) by (apply Z.pow_pos_nonneg; lia).
      destruct s; [assert (0 < n * 2 ^ (- e)) by lia; lia|].
      apply Z.div_le_lower_bound; lia.
Qed.

(** *** Rounding to binary64, from below *)

Lemma shr_1_m (mrs : shr_record) : 0 <= shr_m mrs -> shr_m (shr_1 mrs) = shr_m mrs / 2.
Proof.
  destruct mrs as [m r s]. cbn [shr_m]. intros Hm.
  destruct m as [|[p|p|]|p]; cbn [shr_1 shr_m]; try reflexivity; try lia.
  - apply (Z.div_unique _ 2 _ 1); lia.
  - apply (Z.div_unique _ 2 _ 0); lia.
Qed.

Lemma iter_shr_1_m (p : positive) :
  forall mrs, 0 <= shr_m mrs ->
    shr_m (SpecFloat.iter_pos shr_1 p mrs) = shr_m mrs / 2 ^ Zpos p.
Proof.
  induction p as [p IH|p IH|]; intros mrs Hm; cbn [SpecFloat.iter_pos].
  - assert (H2 : 0 < 2 ^ Zpos p) by (apply Z.pow_pos_nonneg; lia).
    assert (H1 : 0 <= shr_m (shr_1 mrs)) by (rewrite shr_1_m by lia; apply Z.div_pos; lia).
    assert (H3 : 0 <= shr_m (SpecFloat.iter_pos shr_1 p (shr_1 mrs)))
      by (rewrite IH by lia; apply Z.div_pos; lia).
    rewrite IH by lia. rewrite IH by lia. rewrite shr_1_m by lia.
    rewrite !Z.div_div by lia. f_equal.
    rewrite (Pos2Z.inj_xI p). replace (2 * Zpos p + 1) with (1 + Zpos p + Zpos p) by lia.
    rewrite !Z.pow_add_r by lia. change (2 ^ 1) with 2. ring.
  - assert (H2 : 0 < 2 ^ Zpos p) by (apply Z.pow_pos_nonneg; lia).
    assert (H3 : 0 <= shr_m (SpecFloat.iter_pos shr_1 p mrs))
      by (rewrite IH by lia; apply Z.div_pos; lia).
    rewrite IH by lia. rewrite IH by lia.
    rewrite !Z.div_div by lia. f_equal.
    rewrite (Pos2Z.inj_xO p). replace (2 * Zpos p) with (Zpos p + Zpos p) by lia.
    rewrite !Z.pow_add_r by lia. ring.
  - rewrite shr_1_m by lia. reflexivity.
Qed.

Lemma digits2_pos_bound (m : positive) :
  2 ^ (Zpos (digits2_pos m) - 1) <= Zpos m < 2 ^ Zpos (digits2_pos m).
Proof.
  induction m as [m IH|m IH|]; cbn [digits2_pos]; [| |cbn; lia].
  - rewrite Pos2Z.inj_succ, (Pos2Z.inj_xI m).
    replace (Z.succ (Zpos (digits2_pos m)) - 1) with (Z.succ (Zpos (digits2_pos m) - 1)) by lia.
    rewrite !Z.pow_succ_r by lia. lia.
  - rewrite Pos2Z.inj_succ, (Pos2Z.inj_xO m).
    replace (Z.succ (Zpos (digits2_pos m)) - 1) with (Z.succ (Zpos (digits2_pos m) - 1)) by lia.
    rewrite !Z.pow_succ_r by lia. lia.
Qed.

Lemma shr_record_of_loc_m (m : Z) (l : location) : shr_m (shr_record_of_loc m l) = m.
Proof. destruct l as [|[| |]]; reflexivity. Qed.

(** a shift to the exponent of the format loses less than one part in
    [2^52] *)
Lemma shr_fexp_lower (m : positive) (e : Z) (l : location) :
  -1074 <= e ->
  e <= snd (shr_fexp prec emax (Zpos m) e l)
  /\ 0 <= shr_m (fst (shr_fexp prec emax (Zpos m) e l))
  /\ (2 ^ 52 - 1) * (Zpos m * 2 ^ (e + 1074))
     <= 2 ^ 52 * (shr_m (fst (shr_fexp prec emax (Zpos m) e l))
                  * 2 ^ (snd (shr_fexp prec emax (Zpos m) e l) + 1074)).
Proof.
  intros He. unfold shr_fexp, shr, fexp, emin, prec, emax. cbn [Zdigits2].
  pose proof (digits2_pos_bound m) as Hd.
  set (d := Zpos (digits2_pos m)) in *.
  assert (Hp : 0 < 2 ^ (e + 1074)) by (apply Z.pow_pos_nonneg; lia).
  destruct (Z.max (d + e - 53) (3 - 1024 - 53) - e) as [|n|n] eqn:Hn; cbn [fst snd];
    rewrite ?shr_record_of_loc_m; try (split; [lia|split; [lia|nia]]).
  rewrite iter_shr_1_m by (rewrite shr_record_of_loc_m; lia).
  rewrite shr_record_of_loc_m.
  assert (Hnd : Zpos n = d - 53) by lia.
  assert (H2n : 0 < 2 ^ Zpos n) by (apply Z.pow_pos_nonneg; lia).
  split; [lia|]. split; [apply Z.div_pos; lia|].
  replace (e + Zpos n + 1074) with (Zpos n + (e + 1074)) by lia.
  rewrite (Z.pow_add_r 2 (Zpos n) (e + 1074)) by lia.
  pose proof (Z.div_mod (Zpos m) (2 ^ Zpos n) ltac:(lia)) as Hdm.
  pose proof (Z.mod_pos_bound (Zpos m) (2 ^ Zpos n) H2n) as Hr.
  assert (H52 : 2 ^ 52 * 2 ^ Zpos n <= Zpos m).
  { rewrite <- Z.pow_add_r by lia. replace (52 + Zpos n) with (d - 1) by lia. apply Hd. }
  set (q := Zpos m / 2 ^ Zpos n) in *. set (r := Zpos m mod 2 ^ Zpos n) in *.
  set (P := 2 ^ (e + 1074)) in *. set (N := 2 ^ Zpos n) in *.
  assert (Hq : (2 ^ 52 - 1) * Zpos m <= 2 ^ 52 * (q * N)) by lia.
  apply (Z.mul_le_mono_nonneg_r _ _ P) in Hq; [|lia].
  lia.
Qed.

Lemma round_nearest_even_ge (m : Z) (l : location) : m <= round_nearest_even m l.
Proof. destruct l as [|[| |]]; cbn [round_nearest_even]; try lia. destruct (Z.even m); lia. Qed.

(** rounding a positive number [m * 2^e] with [e] not below the least
    exponent: the result is an infinity or a finite number that is at least
    the number, less two parts in [2^52] *)
Lemma binary_round_aux_lower (s : bool) (m : positive) (e : Z) (l : location) :
  -1074 <= e ->
  match binary_round_aux prec emax s (Zpos m) e l with
  | S754_infinity s' => s' = s
  | S754_finite s' m' e' =>
    s' = s /\ e <= e'
    /\ (2 ^ 52 - 1) * (2 ^ 52 - 1) * (Zpos m * 2 ^ (e + 1074))
       <= 2 ^ 104 * (Zpos m' * 2 ^ (e' + 1074))
  | _ => False
  end.
Proof.
  intros He. unfold binary_round_aux.
  destruct (shr_fexp_lower m e l He) as (He1 & Hm1 & Hb1).
  destruct (shr_fexp prec emax (Zpos m) e l) as [mrs1 e1]. cbn [fst snd] in *.
  pose proof (round_nearest_even_ge (shr_m mrs1) (loc_of_shr_record mrs1)) as Hr.
  remember (round_nearest_even (shr_m mrs1) (loc_of_shr_record mrs1)) as m2 eqn:Hm2.
  clear Hm2.
  assert (Hp : 0 < 2 ^ (e + 1074)) by (apply Z.pow_pos_nonneg; lia).
  assert (Hp1 : 0 < 2 ^ (e1 + 1074)) by (apply Z.pow_pos_nonneg; lia).
  assert (Hm1pos : 0 < shr_m mrs1).
  { destruct (Z.eq_dec (shr_m mrs1) 0) as [H0|]; [|lia]. rewrite H0 in Hb1.
    assert (0 < (2 ^ 52 - 1) * (Zpos m * 2 ^ (e + 1074))); [|lia].
    apply Z.mul_pos_pos; [reflexivity|]. apply Z.mul_pos_pos; lia. }
  destruct m2 as [|p2|p2]; try lia.
  destruct (shr_fexp_lower p2 e1 loc_Exact ltac:(lia)) as (He2 & Hm3 & Hb2).
  destruct (shr_fexp prec emax (Zpos p2) e1 loc_Exact) as [mrs2 e2]. cbn [fst snd] in *.
  assert (Hp2 : 0 < 2 ^ (e2 + 1074)) by (apply Z.pow_pos_nonneg; lia).
  assert (Hchain : (2 ^ 52 - 1) * (2 ^ 52 - 1) * (Zpos m * 2 ^ (e + 1074))
                   <= 2 ^ 104 * (shr_m mrs2 * 2 ^ (e2 + 1074))).
  { assert (H12 : shr_m mrs1 * 2 ^ (e1 + 1074) <= Zpos p2 * 2 ^ (e1 + 1074))
      by (apply Z.mul_le_mono_nonneg_r; lia).
    change (2 ^ 104) with (2 ^ 52 * 2 ^ 52).
    set (A := Zpos m * 2 ^ (e + 1074)) in *.
    set (B := shr_m mrs1 * 2 ^ (e1 + 1074)) in *.
    set (C := Zpos p2 * 2 ^ (e1 + 1074)) in *.
    set (D := shr_m mrs2 * 2 ^ (e2 + 1074)) in *.
    lia. }
  destruct (shr_m mrs2) as [|m3|m3] eqn:Hm3'; [exfalso| |lia].
  - assert (0 < (2 ^ 52 - 1) * (2 ^ 52 - 1) * (Zpos m * 2 ^ (e + 1074))); [|lia].
    apply Z.mul_pos_pos; [reflexivity|]. apply Z.mul_pos_pos; lia.
  - destruct (e2 <=? emax - prec); [|reflexivity].
    split; [reflexivity|]. split; [lia|exact Hchain].
Qed.

Lemma iter_xO (p : positive) (d : positive) : Zpos (Pos.iter xO p d) = Zpos p * 2 ^ Zpos d.
Proof.
  induction d as [|d IH] using Pos.peano_ind.
  - cbn [Pos.iter]. rewrite (Pos2Z.inj_xO p). change (2 ^ 1) with 2. lia.
  - rewrite Pos.iter_succ, (Pos2Z.inj_xO (Pos.iter xO p d)), IH, Pos2Z.inj_succ.
    rewrite Z.pow_succ_r by lia. ring.
Qed.

(** a positive int as a float: a finite positive number, the int less at
    most two parts in [2^52] *)
Lemma float_of_int_lower (E : positive) (x : spec_float) :
  float_of_int (Zpos E) = inr x ->
  exists m e,
    x = S754_finite false m e /\ -52 <= e
    /\ (2 ^ 52 - 1) * (2 ^ 52 - 1) * (Zpos E * 2 ^ 1074) <= 2 ^ 104 * (Zpos m * 2 ^ (e + 1074)).
Proof.
  unfold float_of_int, binary_normalize, binary_round, shl_align.
  pose proof (digits2_pos_bound E) as Hd.
  assert (Hfexp : fexp prec emax (Zpos (digits2_pos E) + 0) = Zpos (digits2_pos E) - 53)
    by (unfold fexp, emin, prec, emax; lia).
  rewrite Hfexp. set (d := Zpos (digits2_pos E)) in *.
  assert (Hsplit : exists mz ez,
            match d - 53 - 0 with
            | Zneg k => (Pos.iter xO E k, d - 53)
            | _ => (E, 0)
            end = (mz, ez)
            /\ -52 <= ez /\ Zpos mz * 2 ^ (ez + 1074) = Zpos E * 2 ^ 1074).
  { destruct (d - 53 - 0) as [|k|k] eqn:Hk.
    - exists E, 0. repeat split; lia.
    - exists E, 0. repeat split; lia.
    - exists (Pos.iter xO E k), (d - 53). split; [reflexivity|]. split; [lia|].
      rewrite iter_xO. replace 1074 with (Zpos k + (d - 53 + 1074)) at 2 by lia.
      rewrite (Z.pow_add_r 2 (Zpos k)) by lia. ring. }
  destruct Hsplit as (mz & ez & -> & Hez & Hval).
  pose proof (binary_round_aux_lower false mz ez loc_Exact ltac:(lia)) as Hround.
  destruct (binary_round_aux prec emax false (Zpos mz) ez loc_Exact) as [s|s| |s m e];
    try contradiction; [discriminate|].
  destruct Hround as (-> & He & Hb). intros [= <-]. exists m, e.
  split; [reflexivity|]. split; [lia|]. now rewrite <- Hval.
Qed.

(** the product by the literal [1.05] *)
Lemma mul_1_05_lower (m : positive) (e : Z) :
  -52 <= e ->
  match SFmul prec emax (S754_finite false m e) float_1_05 with
  | S754_infinity s' => s' = false
  | S754_finite s' m' e' =>
    s' = false /\ -104 <= e'
    /\ (2 ^ 52 - 1) * (2 ^ 52 - 1) * (4728779608739021 * (Zpos m * 2 ^ (e + 1074)))
       <= 2 ^ 156 * (Zpos m' * 2 ^ (e' + 1074))
  | _ => False
  end.
Proof.
  intros He. unfold SFmul, float_1_05. cbn [xorb].
  pose proof (binary_round_aux_lower false (m * 4728779608739021) (e + -52) loc_Exact
                ltac:(lia)) as Hround.
  destruct (binary_round_aux prec emax false (Zpos (m * 4728779608739021)) (e + -52) loc_Exact)
    as [s|s| |s m' e']; try exact Hround.
  destruct Hround as (-> & He' & Hb). split; [reflexivity|]. split; [lia|].
  rewrite Pos2Z.inj_mul in Hb.
  replace (e + 1074) with (52 + (e + -52 + 1074)) by lia.
  rewrite (Z.pow_add_r 2 52) by lia.
  change (2 ^ 156) with (2 ^ 52 * 2 ^ 104).
  set (P := 2 ^ (e + -52 + 1074)) in *. set (Q := Zpos m' * 2 ^ (e' + 1074)) in *.
  assert (HP : 0 <= Zpos m * P) by (apply Z.mul_nonneg_nonneg; [lia|apply Z.pow_nonneg; lia]).
  lia.
Qed.

(** the quotient by the float [9999.0] *)
Lemma div_9999_lower (m : positive) (e : Z) :
  -104 <= e ->
  match SFdiv prec emax (S754_finite false m e) (S754_finite false 5497008383066112 (-39)) with
  | S754_infinity s' => s' = false
  | S754_finite s' m' e' =>
    s' = false /\ -1074 <= e'
    /\ (2 ^ 52 - 1) * (2 ^ 52 - 1) * (2 ^ 52 - 1) * (Zpos m * 2 ^ (e + 1074))
       <= 2 ^ 156 * 9999 * (Zpos m' * 2 ^ (e' + 1074))
  | _ => False
  end.
Proof.
  intros He. unfold SFdiv, SFdiv_core_binary. cbn [xorb].
  change (Zdigits2 (Zpos 5497008383066112)) with 53. cbn [Zdigits2].
  pose proof (digits2_pos_bound m) as Hd. set (d := Zpos (digits2_pos m)) in *.
  assert (Hdpos : 1 <= d) by (unfold d; lia).
  assert (Hfexp : fexp prec emax (d + e - (53 + -39)) = d + e - 67)
    by (unfold fexp, emin, prec, emax; lia).
  rewrite Hfexp.
  set (e0 := Z.min (d + e - 67) (e - -39)).
  assert (He0 : -1074 <= e0) by (unfold e0; lia).
  set (s := e - -39 - e0).
  assert (Hs : 106 - d <= s) by (unfold s, e0; lia).
  assert (Hs0 : 0 <= s) by (unfold s, e0; lia).
  set (m0 := match s with
             | 0 => Zpos m
             | Zpos _ => Z.shiftl (Zpos m) s
             | Zneg _ => 0
             end).
  assert (Hm0 : m0 = Zpos m * 2 ^ s).
  { unfold m0. destruct s as [|k|k] eqn:Hk; [cbn; lia| |lia].
    now rewrite Z.shiftl_mul_pow2 by lia. }
  assert (Hbig : 2 ^ 105 <= m0).
  { rewrite Hm0.
    assert (H2s : 0 < 2 ^ s) by (apply Z.pow_pos_nonneg; lia).
    destruct (Z.le_gt_cases d 106) as [Hle|Hgt].
    - assert (H105 : 2 ^ 105 = 2 ^ (d - 1) * 2 ^ (106 - d)).
      { rewrite <- Z.pow_add_r by lia. f_equal. lia. }
      assert (2 ^ (106 - d) <= 2 ^ s) by (apply Z.pow_le_mono_r; lia).
      assert (0 < 2 ^ (106 - d)) by (apply Z.pow_pos_nonneg; lia).
      assert (0 < 2 ^ (d - 1)) by (apply Z.pow_pos_nonneg; lia).
      rewrite H105. nia.
    - assert (2 ^ 105 <= 2 ^ (d - 1)) by (apply Z.pow_le_mono_r; lia). nia. }
  pose proof (Z_div_mod m0 (Zpos 5497008383066112) ltac:(lia)) as Hdiv.
  destruct (Z.div_eucl m0 (Zpos 5497008383066112)) as [q r]. destruct Hdiv as [Hqr Hr].
  assert (Hq : 2 ^ 52 <= q) by lia.
  destruct q as [|q|q]; try lia.
  pose proof (binary_round_aux_lower false q e0
                (new_location (Zpos 5497008383066112) r) He0) as Hround.
  destruct (binary_round_aux prec emax false (Zpos q) e0
              (new_location (Zpos 5497008383066112) r)) as [s'|s'| |s' m' e'];
    try exact Hround.
  destruct Hround as (-> & He' & Hb). split; [reflexivity|]. split; [lia|].
  assert (Hval : Zpos m * 2 ^ (e + 1074) * 2 ^ 39 = m0 * 2 ^ (e0 + 1074)).
  { rewrite Hm0, <- !Z.mul_assoc, <- !Z.pow_add_r by lia. do 2 f_equal. unfold s. lia. }
  assert (HP0 : 0 < 2 ^ (e0 + 1074)) by (apply Z.pow_pos_nonneg; lia).
  assert (Hquot : (2 ^ 52 - 1) * m0 <= 2 ^ 52 * (5497008383066112 * Zpos q)) by lia.
  apply (Z.mul_le_mono_nonneg_r _ _ (2 ^ (e0 + 1074))) in Hquot; [|lia].
  change (2 ^ 156) with (2 ^ 52 * 2 ^ 104).
  change 5497008383066112 with (9999 * 2 ^ 39) in Hquot.
  set (A := Zpos m * 2 ^ (e + 1074)) in *.
  set (Q := Zpos q * 2 ^ (e0 + 1074)) in *.
  set (R := Zpos m' * 2 ^ (e' + 1074)) in *.
  assert (Hquot' : (2 ^ 52 - 1) * (A * 2 ^ 39) <= 2 ^ 52 * (9999 * 2 ^ 39 * Q)).
  { rewrite Hval. unfold Q. lia. }
  assert (HA : 0 <= A) by (apply Z.mul_nonneg_nonneg; [lia|apply Z.pow_nonneg; lia]).
  lia.
Qed.

(** the quotient [E * 1.05 / 9999] as the floats compute it, for a
    positive int [E]: more than [1.0499 * E / 9999] *)
Lemma quotient_lower (E : positive) (e : spec_float) :
  float_of_int (Zpos E) = inr e ->
  match SFdiv prec emax (SFmul prec emax e float_1_05)
              (S754_finite false 5497008383066112 (-39)) with
  | S754_infinity s' => s' = false
  | S754_finite s' m' e' =>
    s' = false /\ -1074 <= e'
    /\ 10499 * (Zpos E * 2 ^ 1074) <= 10000 * 9999 * (Zpos m' * 2 ^ (e' + 1074))
  | _ => False
  end.
Proof.
  intros HE. destruct (float_of_int_lower E e HE) as (me & ee & -> & Hee & Hbe).
  pose proof (mul_1_05_lower me ee Hee) as Hmul.
  destruct (SFmul prec emax (S754_finite false me ee) float_1_05) as [s|s| |s mp ep];
    try contradiction.
  - subst s. reflexivity.
  - destruct Hmul as (-> & Hep & Hbp).
    pose proof (div_9999_lower mp ep Hep) as Hdiv.
    destruct (SFdiv prec emax (S754_finite false mp ep)
                (S754_finite false 5497008383066112 (-39))) as [s|s| |s mq eq];
      try exact Hdiv.
    destruct Hdiv as (-> & Heq & Hbq). split; [reflexivity|]. split; [exact Heq|].
    set (A := Zpos E * 2 ^ 1074) in *.
    set (B := Zpos me * 2 ^ (ee + 1074)) in *.
    set (C := Zpos mp * 2 ^ (ep + 1074)) in *.
    set (D := Zpos mq * 2 ^ (eq + 1074)) in *.
    assert (HA : 0 <= A) by (unfold A; lia).
    lia.
Qed.

Lemma int_of_float_upper (m : positive) (e c : Z) :
  -1074 <= e -> int_of_float (S754_finite false m e) = inr c ->
  Zpos m * 2 ^ (e + 1074) < (c + 1) * 2 ^ 1074.
Proof.
  intros He. cbn [int_of_float cond_Zopp]. intros Hc.
  assert (Hc' : c = if 0 <=? e then Zpos m * 2 ^ e else Zpos m / 2 ^ (- e)) by congruence.
  clear Hc. subst c.
  destruct (Z.leb_spec 0 e) as [H0|H0].
  - rewrite Z.pow_add_r by lia. rewrite Z.mul_assoc.
    apply Z.mul_lt_mono_pos_r; [reflexivity|lia].
  - assert (H2 : 0 < 2 ^ (- e)) by (apply Z.pow_pos_nonneg; lia).
    assert (HP : 0 < 2 ^ (e + 1074)) by (apply Z.pow_pos_nonneg; lia).
    assert (H1074 : 2 ^ 1074 = 2 ^ (- e) * 2 ^ (e + 1074)).
    { rewrite <- Z.pow_add_r by lia. f_equal. lia. }
    rewrite H1074.
    pose proof (Z.div_mod (Zpos m) (2 ^ (- e)) ltac:(lia)) as Hdm.
    pose proof (Z.mod_pos_bound (Zpos m) (2 ^ (- e)) H2) as Hr.
    assert (Hlt : Zpos m < (Zpos m / 2 ^ (- e) + 1) * 2 ^ (- e)) by lia.
    apply (Z.mul_lt_mono_pos_r (2 ^ (e + 1074))) in Hlt; [|exact HP]. lia.
Qed.

Lemma int_gt_float_upper (n : Z) (m : positive) (e : Z) :
  -1074 <= e -> int_gt_float n (S754_finite false m e) = true ->
  Zpos m * 2 ^ (e + 1074) < n * 2 ^ 1074.
Proof.
  intros He. cbn [int_gt_float cond_Zopp]. cbv zeta.
  destruct (Z.leb_spec 0 e) as [H0|H0]; intros Hlt; apply Z.ltb_lt in Hlt.
  - rewrite Z.pow_add_r by lia.
    apply (Z.mul_lt_mono_pos_r (2 ^ 1074)) in Hlt; [lia|reflexivity].
  - assert (HP : 0 < 2 ^ (e + 1074)) by (apply Z.pow_pos_nonneg; lia).
    assert (H1074 : 2 ^ 1074 = 2 ^ (- e) * 2 ^ (e + 1074)).
    { rewrite <- Z.pow_add_r by lia. f_equal. lia. }
    rewrite H1074. apply (Z.mul_lt_mono_pos_r (2 ^ (e + 1074))) in Hlt; [|exact HP]. lia.
Qed.

(** C7, as amended. Whenever [optimize_chunksize] returns (the estimate is
    not too large for a float), the chunk size is the truncation of
    [max(E * 1.05 / 9999, 10 MiB)] as binary64 arithmetic computes it:
    10 MiB itself when 10 MiB is greater than the quotient, and the integer
    part of the quotient otherwise. It is at least 10 MiB; 9999 chunks of that
    size hold at least [E] bytes, so that an input of the estimated size
    makes at most 9999 parts; and what is lost of the margin of 5 % is less
    than one chunk in 9999 and the rounding of the floats:
    [1.0499 * E < 9999 * (chunk + 1)]. The product of the chunk size by
    9999 is not promised to reach [1.05 * E]. *)
Theorem optimize_chunksize_truncated_max (E c : Z) :
  optimize_chunksize E = inr c ->
  10 * 1024 * 1024 <= c
  /\ E <= c * 9999
  /\ 10499 * E < 10000 * (9999 * (c + 1))
  /\ exists e parts q,
       float_of_int E = inr e
       /\ float_of_int 9999 = inr parts
       /\ q = SFdiv prec emax (SFmul prec emax e float_1_05) parts
       /\ if int_gt_float (10 * 1024 * 1024) q then c = 10 * 1024 * 1024
          else int_of_float q = inr c.
Proof.
  unfold optimize_chunksize.
  change (float_of_int 9999) with (@inr Exception _ (S754_finite false 5497008383066112 (-39))).
  destruct (float_of_int E) as [err|e] eqn:HE; [discriminate|].
  unfold max_float_int.
  set (q := SFdiv prec emax (SFmul prec emax e float_1_05) _).
  intros Hc.
  assert (Hmin : 10 * 1024 * 1024 <= c).
  { destruct (int_gt_float (10 * 1024 * 1024) q) eqn:Hgt; cbn [int_of_number] in Hc.
    - injection Hc as <-. lia.
    - eapply int_of_float_lower_bound; [|exact Hgt|exact Hc]. lia. }
  assert (Hparts : 10499 * E < 10000 * (9999 * (c + 1))).
  { destruct E as [|E|E]; [lia| |lia].
    pose proof (quotient_lower E e HE) as Hq. fold q in Hq.
    destruct q as [s|s| |s mq eq]; try contradiction.
    - subst s. cbn in Hc. discriminate.
    - destruct Hq as (-> & Heq & Hb).
      assert (Hup : Zpos mq * 2 ^ (eq + 1074) < (c + 1) * 2 ^ 1074).
      { destruct (int_gt_float (10 * 1024 * 1024) (S754_finite false mq eq)) eqn:Hgt;
          cbn [int_of_number] in Hc.
        - injection Hc as <-.
          pose proof (int_gt_float_upper _ mq eq Heq Hgt). lia.
        - now apply int_of_float_upper. }
      assert (H : 10499 * Zpos E * 2 ^ 1074 < 10000 * (9999 * (c + 1)) * 2 ^ 1074) by lia.
      apply Z.mul_lt_mono_pos_r in H; [exact H|reflexivity]. }
  split; [exact Hmin|]. split; [lia|]. split; [exact Hparts|].
  exists e, (S754_finite false 5497008383066112 (-39)), q.
  split; [reflexivity|]. split; [reflexivity|]. split; [reflexivity|].
  destruct (int_gt_float (10 * 1024 * 1024) q); cbn [int_of_number] in Hc; [|exact Hc].
  now injection Hc as <-.
Qed.

Lemma optimize_chunksize_truncated_max_witness :
  optimize_chunksize (10 ^ 12) = inr 105010501
  /\ 10 * 1024 * 1024 <= 105010501
  /\ 10 ^ 12 <= 105010501 * 9999.
Proof.
  split; [vm_compute; reflexivity|].
  destruct (optimize_chunksize_truncated_max (10 ^ 12) 105010501) as (H1 & H2 & _).
  - vm_compute. reflexivity.
  - split; [exact H1|exact H2].
Defined.

(** C7 as stated fails: for an estimate of [10^12] bytes the chunk size is
    105010501 bytes, and 9999 chunks of that size hold 1049999999499 bytes,
    less than [1.05 * 10^12]. *)
Lemma chunksize_times_parts_below_estimate :
  optimize_chunksize (10 ^ 12) = inr 105010501
  /\ 100 * (105010501 * 9999) < 105 * 10 ^ 12.
Proof. split; [vm_compute; reflexivity | lia]. Qed.

(** The three-part upload of the witness of C3, a run that returns: its
    complete request lists the parts 1, 2 and 3. *)
Lemma complete_lists_every_part_witness :
  let stream := ["a"; "b"; "c"; "d"; "e"]%byte in
  let schedule := [[]; []; [PartUploaded 2 "e2"]; [PartUploaded 3 "e3"; PartUploaded 1 "e1"]] in
  let run := main_loop MD5.digest 3 true schedule
               (UploadSupervisor_init (StreamHandler_init (mkInput stream [0%nat]) 2) "k") in
  forallb id (_workers (snd run)) = true
  /\ exists etags,
       length etags = length (slices (Z.to_nat 2) stream)
       /\ s3_calls (snd run)
          = [InitiateMultipartUpload "k";
             CompleteMultipartUpload (combine (seq 1 (length etags)) etags)].
Proof.
  apply (complete_lists_every_part MD5.digest 2 ["a"; "b"; "c"; "d"; "e"]%byte [0%nat] 3 true
           [[]; []; [PartUploaded 2 "e2"]; [PartUploaded 3 "e3"; PartUploaded 1 "e1"]]
           "k" "'b5d55eef9b6106b14530433c1a359920-3'").
  - lia.
  - vm_compute. reflexivity.
Defined.

(** The same stream with prompt workers. *)
Lemma prompt_workers_complete_upload_witness :
  let stream := ["a"; "b"; "c"; "d"; "e"]%byte in
  let run := main_loop MD5.digest 3 true (prompt_schedule ["e1"; "e2"; "e3"])
               (UploadSupervisor_init (StreamHandler_init (mkInput stream [0%nat]) 2) "k") in
  fst run = Returned (composite_etag MD5.digest (slices (Z.to_nat 2) stream))
  /\ s3_calls (snd run)
     = [InitiateMultipartUpload "k";
        CompleteMultipartUpload (combine (seq 1 (length ["e1"; "e2"; "e3"]))
                                         ["e1"; "e2"; "e3"])].
Proof.
  apply (prompt_workers_complete_upload MD5.digest 2 ["a"; "b"; "c"; "d"; "e"]%byte [0%nat] 3
           "k" ["e1"; "e2"; "e3"]).
  - lia.
  - discriminate.
  - lia.
  - reflexivity.
Defined.

(** One worker, one part in flight, and the worker dies on it. *)
Lemma dead_worker_stops_upload_witness :
  let sup := mkSupervisor (mkStreamHandler (mkInput [] []) 5 [] true) "k" []
                          [(1%nat, ["a"%byte])] (Some "k") [] 1 [true]
                          [InitiateMultipartUpload "k"] in
  let evs := [] ++ WorkerDied 1 :: [] in
  main_loop_while MD5.digest ([evs]) 1 sup
  = (Raised WorkerCrashed, workers_run MD5.digest evs sup)
  /\ s3_calls (workers_run MD5.digest evs sup) = s3_calls sup
  /\ results (workers_run MD5.digest evs sup) = results sup
  /\ stream_handler (workers_run MD5.digest evs sup) = stream_handler sup.
Proof.
  apply (dead_worker_stops_upload MD5.digest [] [] 1 ["a"%byte] [] 1
           (mkSupervisor (mkStreamHandler (mkInput [] []) 5 [] true) "k" []
                         [(1%nat, ["a"%byte])] (Some "k") [] 1 [true]
                         [InitiateMultipartUpload "k"])).
  - reflexivity.
  - reflexivity.
  - now left.
Defined.

(** ** The retry decorator and the worker threads *)

Section RetryProps.
Context {World E A : Type}.
Variable func : World -> (E + A) * World.

Lemma retry_loop_S (times : Z) (todo : nat) (attempt : Z) (w : World)
    (logged : list (Z * E)) :
  retry_loop func times (S todo) attempt w logged
  = match func w with
    | (inr v, w') => (inr (Some v), w', logged)
    | (inl e, w') =>
      if times <=? attempt then (inl e, w', logged)
      else retry_loop func times todo (attempt + 1) w' (logged ++ [(attempt, e)])
    end.
Proof. reflexivity. Qed.

Lemma retry_loop_spec (times : Z) (todo : nat) :
  forall (attempt : Z) (w : World) (logged : list (Z * E)),
    Z.of_nat (S todo) = times - attempt + 1 ->
    exists (k : nat) (failures : list E) (last : E + A),
      (1 <= k <= S todo)%nat
      /\ calls_of func k w
         = (map inl failures ++ [last],
            snd (fst (retry_loop func times (S todo) attempt w logged)))
      /\ snd (retry_loop func times (S todo) attempt w logged)
         = logged ++ combine (map (fun j => attempt + Z.of_nat j) (seq 0 (length failures)))
                             failures
      /\ match last with
         | inr v => fst (fst (retry_loop func times (S todo) attempt w logged)) = inr (Some v)
         | inl e => k = S todo
                    /\ fst (fst (retry_loop func times (S todo) attempt w logged)) = inl e
         end.
Proof.
  induction todo as [|todo IH]; intros attempt w logged Htodo;
    rewrite retry_loop_S; destruct (func w) as [[e|v] w'] eqn:Hf.
  - (* the only attempt failed *)
    destruct (Z.leb_spec times attempt) as [_|Hlt]; [|lia].
    exists 1%nat, [], (inl e). cbn [calls_of map app length seq combine fst snd].
    rewrite Hf, app_nil_r. repeat split; lia.
  - exists 1%nat, [], (inr v). cbn [calls_of map app length seq combine fst snd].
    rewrite Hf, app_nil_r. repeat split; lia.
  - (* a failed attempt that is not the last: logged, and the loop goes on *)
    destruct (Z.leb_spec times attempt) as [Hle|Hlt]; [lia|].
    destruct (IH (attempt + 1) w' (logged ++ [(attempt, e)]) ltac:(lia))
      as (k & failures & last & Hk & Hcalls & Hlog & Hlast).
    exists (S k), (e :: failures), last.
    split; [lia|]. split; [|split].
    + cbn [calls_of]. rewrite Hf, Hcalls. reflexivity.
    + rewrite Hlog, <- app_assoc. f_equal. cbn [length seq map combine app].
      rewrite Z.add_0_r. f_equal. rewrite <- seq_shift, map_map. f_equal.
      apply map_ext. intros j. lia.
    + destruct last as [e'|v']; [|exact Hlast]. destruct Hlast as [-> Hres]. now split.
  - exists 1%nat, [], (inr v). cbn [calls_of map app length seq combine fst snd].
    rewrite Hf, app_nil_r. repeat split; lia.
Qed.

(** X5. What [retry] makes of a function. With [times <= 0] the function
    is never called and the wrapper returns [None]. With [times >= 1] the
    function is called [k] times in a row, for some [k] between 1 and
    [times]; every call but the last raised, and each of these failures
    was logged with the number of its attempt; the last call either
    returned, and the wrapper returns that value, or it raised on attempt
    number [times], and the wrapper raises that exception. *)
Theorem retry_calls_until_success (times : Z) (w : World) :
  (times <= 0 -> retry func times w = (inr None, w, []))
  /\ (1 <= times ->
      exists (k : nat) (failures : list E) (last : E + A),
        (1 <= k <= Z.to_nat times)%nat
        /\ length failures = (k - 1)%nat
        /\ calls_of func k w = (map inl failures ++ [last], snd (fst (retry func times w)))
        /\ snd (retry func times w)
           = combine (map Z.of_nat (seq 1 (length failures))) failures
        /\ match last with
           | inr v => fst (fst (retry func times w)) = inr (Some v)
           | inl e => k = Z.to_nat times /\ fst (fst (retry func times w)) = inl e
           end).
Proof.
  split; intros Htimes; unfold retry.
  - replace (Z.to_nat times) with 0%nat by lia. reflexivity.
  - destruct (Z.to_nat times) as [|todo] eqn:Hn; [lia|].
    destruct (retry_loop_spec times todo 1 w [] ltac:(lia))
      as (k & failures & last & Hk & Hcalls & Hlog & Hlast).
    exists k, failures, last. split; [exact Hk|]. split; [|split; [exact Hcalls|split]].
    + assert (Hlen : length (fst (calls_of func k w)) = k).
      { clear. revert w. induction k as [|k IH]; intros w; [reflexivity|].
        cbn [calls_of]. destruct (func w) as [r w']. specialize (IH w').
        destruct (calls_of func k w') as [rs w'']. cbn [fst length] in *. now rewrite IH. }
      rewrite Hcalls in Hlen. cbn [fst] in Hlen.
      rewrite length_app, length_map in Hlen. cbn [length] in Hlen. lia.
    + rewrite Hlog. cbn [app]. f_equal. rewrite <- seq_shift, map_map.
      apply map_ext. intros j. lia.
    + exact Hlast.
Qed.

End RetryProps.

Section WorkerProps.

Variable hashlib_md5 : bytes -> bytes.
Variable store : nat -> UploadAnswer.

Local Abbreviation upload_part_once := (upload_part_once hashlib_md5 store).
Local Abbreviation worker_turn := (worker_turn hashlib_md5 store).

(** the request every attempt for a job makes *)
Local Abbreviation request_of job :=
  (mkUploadPartRequest (fst job) (snd job) (b64encode (hashlib_md5 (snd job)))).

(** after a failed attempt: what holds from the next attempt on holds from
    this one *)
Lemma upload_part_step (job : nat * bytes) (todo : nat) (sent : list UploadPartRequest)
    (r : (Exception + option (string * string)) * list UploadPartRequest
         * list (Z * Exception)) :
  accepted (store (length sent)) = None ->
  match r with
  | (inr (Some (digest, tag)), sent', _) =>
    digest = hexdigest hashlib_md5 (snd job)
    /\ exists k, (k <= todo)%nat
         /\ (forall j, (j < k)%nat ->
               accepted (store (length (sent ++ [request_of job]) + j)) = None)
         /\ accepted (store (length (sent ++ [request_of job]) + k)) = Some tag
         /\ sent' = (sent ++ [request_of job]) ++ repeat (request_of job) (S k)
  | (inr None, _, _) => False
  | (inl _, sent', _) =>
    (forall j, (j < S todo)%nat ->
       accepted (store (length (sent ++ [request_of job]) + j)) = None)
    /\ sent' = (sent ++ [request_of job]) ++ repeat (request_of job) (S todo)
  end ->
  match r with
  | (inr (Some (digest, tag)), sent', _) =>
    digest = hexdigest hashlib_md5 (snd job)
    /\ exists k, (k <= S todo)%nat
         /\ (forall j, (j < k)%nat -> accepted (store (length sent + j)) = None)
         /\ accepted (store (length sent + k)) = Some tag
         /\ sent' = sent ++ repeat (request_of job) (S k)
  | (inr None, _, _) => False
  | (inl _, sent', _) =>
    (forall j, (j < S (S todo))%nat -> accepted (store (length sent + j)) = None)
    /\ sent' = sent ++ repeat (request_of job) (S (S todo))
  end.
Proof.
  intros Hfail. rewrite length_app. cbn [length].
  assert (Hshift : forall n P,
    (forall j, (j < n)%nat -> accepted (store (length sent + 1 + j)) = None) ->
    P = S n ->
    forall j, (j < P)%nat -> accepted (store (length sent + j)) = None).
  { intros n P H -> [|j] Hj; [now rewrite Nat.add_0_r|].
    replace (length sent + S j)%nat with (length sent + 1 + j)%nat by lia.
    apply H. lia. }
  destruct r as [[[e|[[digest tag]|]] sent'] logged]; [| |exact (fun H => H)].
  - intros [Hall ->]. split; [now apply (Hshift (S todo))|].
    now rewrite <- app_assoc.
  - intros [Hd (k & Hk & Hall & Hok & ->)]. split; [exact Hd|].
    exists (S k). split; [lia|]. split; [now apply (Hshift k)|]. split.
    + replace (length sent + S k)%nat with (length sent + 1 + k)%nat by lia. exact Hok.
    + now rewrite <- app_assoc.
Qed.

Lemma upload_part_loop_spec (times : Z) (job : nat * bytes) (todo : nat) :
  forall (attempt : Z) (sent : list UploadPartRequest) (logged : list (Z * Exception)),
    Z.of_nat (S todo) = times - attempt + 1 ->
    match retry_loop (upload_part_once (fst job) (snd job)) times (S todo) attempt sent logged
    with
    | (inr (Some (digest, tag)), sent', _) =>
      digest = hexdigest hashlib_md5 (snd job)
      /\ exists k, (k <= todo)%nat
           /\ (forall j, (j < k)%nat -> accepted (store (length sent + j)) = None)
           /\ accepted (store (length sent + k)) = Some tag
           /\ sent' = sent ++ repeat (request_of job) (S k)
    | (inr None, _, _) => False
    | (inl _, sent', _) =>
      (forall j, (j < S todo)%nat -> accepted (store (length sent + j)) = None)
      /\ sent' = sent ++ repeat (request_of job) (S todo)
    end.
Proof.
  induction todo as [|todo IH]; intros attempt sent logged Htodo; rewrite retry_loop_S;
    unfold Pput.upload_part_once at 1;
    destruct (store (length sent)) as [code metadata tag|e] eqn:Hst.
  - destruct (Z.eqb_spec code 200) as [->|Hne]; cbn [negb].
    + split; [reflexivity|]. exists 0%nat. rewrite Nat.add_0_r, Hst.
      repeat split; [lia|intros j Hj; lia].
    + destruct (Z.leb_spec times attempt) as [_|Hlt]; [|lia].
      split; [|reflexivity]. intros j Hj. replace j with 0%nat by lia.
      rewrite Nat.add_0_r, Hst. cbn. now destruct (Z.eqb_spec code 200).
  - destruct (Z.leb_spec times attempt) as [_|Hlt]; [|lia].
    split; [|reflexivity]. intros j Hj. replace j with 0%nat by lia.
    now rewrite Nat.add_0_r, Hst.
  - destruct (Z.eqb_spec code 200) as [->|Hne]; cbn [negb].
    + split; [reflexivity|]. exists 0%nat. rewrite Nat.add_0_r, Hst.
      repeat split; [lia|intros j Hj; lia].
    + destruct (Z.leb_spec times attempt) as [Hle|Hlt]; [lia|].
      specialize (IH (attempt + 1) (sent ++ [request_of job])
                     (logged ++ [(attempt, UploadException metadata)]) ltac:(lia)).
      assert (Hfail : accepted (store (length sent)) = None)
        by (rewrite Hst; cbn; now destruct (Z.eqb_spec code 200)).
      revert IH. apply upload_part_step; assumption.
  - destruct (Z.leb_spec times attempt) as [Hle|Hlt]; [lia|].
    specialize (IH (attempt + 1) (sent ++ [request_of job])
                   (logged ++ [(attempt, e)]) ltac:(lia)).
    assert (Hfail : accepted (store (length sent)) = None) by now rewrite Hst.
    revert IH. apply upload_part_step; assumption.
Qed.

(** X6. One job in a worker thread. With [MAX_RETRIES <= 0] the thread
    ends without a request to the store. With [MAX_RETRIES >= 1] the thread
    repeats the same request (part number, body, base64 of the body's MD5)
    until the store answers with status 200, at most [MAX_RETRIES] times;
    on the first such answer it reports success with the hex MD5 of the
    chunk and the entity tag of that answer, which is the result the
    supervisor gets for the event [PartUploaded]; when none of the
    [MAX_RETRIES] answers has status 200 the thread ends without a
    result. *)
Theorem worker_uploads_or_dies (times : Z) (job : nat * bytes)
    (sent : list UploadPartRequest) :
  (times <= 0 -> worker_turn times job sent = (None, sent))
  /\ (1 <= times ->
      match worker_turn times job sent with
      | (Some r, sent') =>
        r = mkResult true None (fst job) (hexdigest hashlib_md5 (snd job)) (etag r)
        /\ (exists k, (k < Z.to_nat times)%nat
              /\ (forall j, (j < k)%nat -> accepted (store (length sent + j)) = None)
              /\ accepted (store (length sent + k)) = Some (etag r)
              /\ sent' = sent ++ repeat (request_of job) (S k))
        /\ forall sup rest,
             existsb id (_workers sup) = true ->
             take_job (fst job) (outbox sup) = Some (snd job, rest) ->
             worker_step hashlib_md5 (PartUploaded (fst job) (etag r)) sup
             = set_queues sup (inbox sup ++ [r]) rest
      | (None, sent') =>
        (forall j, (j < Z.to_nat times)%nat -> accepted (store (length sent + j)) = None)
        /\ sent' = sent ++ repeat (request_of job) (Z.to_nat times)
      end).
Proof.
  split; intros Htimes; unfold Pput.worker_turn, upload_part, retry.
  - replace (Z.to_nat times) with 0%nat by lia. reflexivity.
  - destruct (Z.to_nat times) as [|todo] eqn:Hn; [lia|].
    pose proof (upload_part_loop_spec times job todo 1 sent [] ltac:(lia)) as H.
    destruct (retry_loop _ _ _ _ _ _) as [[[e|[[digest tag]|]] sent'] logged];
      [exact H|destruct H as [-> (k & Hk & Hall & Hok & ->)]|destruct H].
    cbn [etag]. split; [reflexivity|]. split.
    + exists k. repeat split; try assumption. lia.
    + intros sup rest Hlive Htake. unfold Pput.worker_step. now rewrite Hlive, Htake.
Qed.

End WorkerProps.

(** ** Metadata given on the command line *)

Lemma split_key_value_None (meta : string) :
  split_key_value meta = None <-> ~ In "="%char (list_ascii_of_string meta).
Proof.
  induction meta as [|c meta IH]; cbn [split_key_value list_ascii_of_string].
  - split; [intros _ []|reflexivity].
  - destruct (Ascii.eqb_spec c "=") as [->|Hne].
    + split; [discriminate|]. intros H. exfalso. apply H. now left.
    + destruct (split_key_value meta) as [[k v]|].
      * split; [discriminate|]. intros H. exfalso.
        assert (Hn : ~ In "="%char (list_ascii_of_string meta)) by (intros Hin; apply H; now right).
        apply IH in Hn. discriminate.
      * split; [|reflexivity]. intros _ [Heq|Hin]; [congruence|].
        now apply (proj1 IH).
Qed.

Lemma split_key_value_first (key val : string) :
  ~ In "="%char (list_ascii_of_string key) ->
  split_key_value (key +:+ "=" +:+ val) = Some (key, val).
Proof.
  induction key as [|c key IH]; intros Hk.
  - reflexivity.
  - cbn [list_ascii_of_string] in Hk.
    change (String c key +:+ "=" +:+ val) with (String c (key +:+ "=" +:+ val)).
    cbn [split_key_value].
    destruct (Ascii.eqb_spec c "=") as [->|Hne]; [exfalso; apply Hk; now left|].
    rewrite IH; [reflexivity|]. intros Hin. apply Hk. now right.
Qed.

Lemma parse_metadata_loop_app (a b : list string) (headers : gmap string string) :
  parse_metadata_loop (a ++ b) headers
  = parse_metadata_loop a headers ≫= parse_metadata_loop b.
Proof.
  revert headers. induction a as [|m a IH]; intros headers; [reflexivity|].
  cbn [app parse_metadata_loop]. destruct (split_key_value m) as [[k v]|]; [apply IH|reflexivity].
Qed.

Lemma parse_metadata_loop_None (metadata : list string) (headers : gmap string string) :
  parse_metadata_loop metadata headers = None
  <-> Exists (fun meta => split_key_value meta = None) metadata.
Proof.
  revert headers. induction metadata as [|m metadata IH]; intros headers;
    cbn [parse_metadata_loop].
  - split; [discriminate|]. intros H. inversion H.
  - destruct (split_key_value m) as [[k v]|] eqn:Hm.
    + rewrite IH. split; [now right|]. intros H. inversion H; [congruence|assumption].
    + split; [now left|reflexivity].
Qed.

Lemma parse_metadata_loop_untouched (key : string) (metadata : list string)
    (headers headers' : gmap string string) :
  Forall (fun meta => forall val, split_key_value meta <> Some (key, val)) metadata ->
  parse_metadata_loop metadata headers = Some headers' ->
  headers' !! key = headers !! key.
Proof.
  revert headers. induction metadata as [|m metadata IH]; intros headers Hall Hloop.
  - cbn in Hloop. congruence.
  - cbn [parse_metadata_loop] in Hloop. apply List.Forall_cons_iff in Hall as [Hm Hall].
    destruct (split_key_value m) as [[k v]|]; [|discriminate].
    rewrite (IH _ Hall Hloop). apply lookup_insert_ne. intros ->. now apply (Hm v).
Qed.

(** X7. [parse_metadata] on the [--metadata] arguments. An entry is cut at
    its first [=]: the key is what is before it, the value all that is
    after it, further [=] included. The call ends the program
    ([sys.exit(1)]) exactly when some entry has no [=]. Otherwise, of the
    entries with the same key the last one gives the value. *)
Theorem parse_metadata_last_entry_wins (metadata : list string) :
  (forall key val, ~ In "="%char (list_ascii_of_string key) ->
     split_key_value (key +:+ "=" +:+ val) = Some (key, val))
  /\ (parse_metadata metadata = None
      <-> Exists (fun meta => ~ In "="%char (list_ascii_of_string meta)) metadata)
  /\ (forall front back key val headers,
        metadata = front ++ (key +:+ "=" +:+ val) :: back ->
        ~ In "="%char (list_ascii_of_string key) ->
        Forall (fun meta => forall val', split_key_value meta <> Some (key, val')) back ->
        parse_metadata metadata = Some headers ->
        headers !! key = Some val).
Proof.
  split; [exact split_key_value_first|]. split.
  - unfold parse_metadata. rewrite parse_metadata_loop_None.
    split; intros H; (eapply List.Exists_impl; [|exact H]); intros m Hm;
      now apply split_key_value_None.
  - intros front back key val headers -> Hkey Hback. unfold parse_metadata.
    rewrite parse_metadata_loop_app.
    destruct (parse_metadata_loop front ∅) as [h1|]; [|discriminate].
    cbn [mbind option_bind parse_metadata_loop]. rewrite split_key_value_first by exact Hkey.
    intros Hloop. rewrite (parse_metadata_loop_untouched key back _ _ Hback Hloop).
    apply lookup_insert_eq.
Qed.

(** ** Hex digests *)

Lemma hex_value_bound (c : ascii) (n : N) : hex_value c = Some n -> (n < 16)%N.
Proof.
  unfold hex_value. cbv zeta. intros H.
  repeat match type of H with
  | (if ?b then _ else _) = _ => destruct b eqn:?
  end; try discriminate; injection H as Hn; subst n;
  repeat match goal with
  | H : (_ && _)%bool = true |- _ => apply andb_prop in H as [? ?]
  | H : (_ <=? _)%N = true |- _ => apply N.leb_le in H
  end; lia.
Qed.

Lemma hex_value_ascii (c : ascii) (n : N) : hex_value c = Some n -> Text.is_ascii c = true.
Proof.
  unfold hex_value, Text.is_ascii. cbv zeta. intros H. apply N.ltb_lt.
  repeat match type of H with
  | (if ?b then _ else _) = _ => destruct b eqn:?
  end; try discriminate;
  repeat match goal with
  | H : (_ && _)%bool = true |- _ => apply andb_prop in H as [? ?]
  | H : (_ <=? _)%N = true |- _ => apply N.leb_le in H
  end; lia.
Qed.

Lemma a2b_hex_ascii_defined (s : string) :
  is_Some (a2b_hex_ascii s)
  <-> Nat.even (String.length s) = true
      /\ Forall (fun c => is_Some (hex_value c)) (list_ascii_of_string s).
Proof.
  revert s. fix IH 1. intros [|c1 [|c2 rest]].
  - cbn. split; [intros _; split; [reflexivity|constructor]|intros _; eauto].
  - cbn. split; [intros [? H]; discriminate|intros [H _]; discriminate].
  - cbn [a2b_hex_ascii String.length Nat.even list_ascii_of_string]. specialize (IH rest).
    destruct (hex_value c1) as [h|] eqn:H1.
    2:{ split; [intros [? H]; discriminate|].
        intros [_ H]. apply List.Forall_inv in H. destruct H. congruence. }
    destruct (hex_value c2) as [l|] eqn:H2.
    2:{ split; [intros [? H]; discriminate|].
        intros [_ H]. apply List.Forall_inv_tail, List.Forall_inv in H. destruct H.
        congruence. }
    pose proof (hex_value_bound _ _ H1). pose proof (hex_value_bound _ _ H2).
    destruct (Byte.of_N (16 * h + l)) as [b|] eqn:Hb.
    2:{ apply Byte.of_N_None_iff in Hb. lia. }
    destruct (a2b_hex_ascii rest) as [r|].
    + split; [|eauto]. intros _. destruct IH as [[He Hr] _]; [eauto|].
      split; [exact He|]. repeat constructor; eauto.
    + split; [intros [? H']; discriminate|]. intros [He Hr].
      apply List.Forall_inv_tail, List.Forall_inv_tail in Hr.
      destruct IH as [_ IH']. destruct (IH' (conj He Hr)). discriminate.
Qed.

Lemma hex_digits_ascii (s : string) :
  Forall (fun c => is_Some (hex_value c)) (list_ascii_of_string s) -> Text.all_ascii s = true.
Proof.
  induction s as [|c s IH]; [reflexivity|]. cbn [list_ascii_of_string Text.all_ascii].
  intros H. apply List.Forall_cons_iff in H as [[n Hc] H].
  now rewrite (hex_value_ascii c n Hc), (IH H).
Qed.

(** what [a2b_hex] answers: the bytes for hex text of even length, else
    [ValueError] for text that is not ASCII and [binascii.Error] for ASCII
    text *)
Lemma a2b_hex_cases (s : string) :
  let well_formed :=
    Nat.even (String.length s) = true
    /\ Forall (fun c => is_Some (hex_value c)) (list_ascii_of_string s) in
  (well_formed -> exists raw, a2b_hex s = inr raw)
  /\ (~ well_formed ->
      a2b_hex s = inl (if Text.all_ascii s then BinasciiError else ValueError)).
Proof.
  cbn zeta. unfold a2b_hex. split.
  - intros Hwf. rewrite (hex_digits_ascii s (proj2 Hwf)). cbn [negb].
    apply a2b_hex_ascii_defined in Hwf as [raw ->]. eauto.
  - intros Hnot. destruct (Text.all_ascii s); [|reflexivity]. cbn [negb].
    destruct (a2b_hex_ascii s) as [raw|] eqn:Hs; [|reflexivity].
    exfalso. apply Hnot, a2b_hex_ascii_defined. eauto.
Qed.

Section EtagProps.

Variable hashlib_md5 : bytes -> bytes.

Lemma multipart_etag_loop_spec (digests : list string) (acc : bytes) (n : nat) :
  match multipart_etag_loop digests acc n with
  | inr r =>
    exists raws, Forall2 (fun d raw => a2b_hex d = inr raw) digests raws
                 /\ r = (acc ++ concat raws, (n + length digests)%nat)
  | inl e =>
    exists good d rest,
      digests = good ++ d :: rest
      /\ Forall (fun d => exists raw, a2b_hex d = inr raw) good
      /\ a2b_hex d = inl e
  end.
Proof.
  revert acc n. induction digests as [|d digests IH]; intros acc n; cbn [multipart_etag_loop].
  - exists []. split; [constructor|]. cbn. now rewrite app_nil_r, Nat.add_0_r.
  - destruct (a2b_hex d) as [e|raw] eqn:Hd.
    { exists [], d, digests. split; [reflexivity|]. split; [constructor|exact Hd]. }
    specialize (IH (acc ++ raw) (S n)).
    destruct (multipart_etag_loop digests (acc ++ raw) (S n)) as [e|r].
    + destruct IH as (good & d' & rest & -> & Hgood & Hd').
      exists (d :: good), d', rest. split; [reflexivity|]. split; [|exact Hd'].
      constructor; eauto.
    + destruct IH as (raws & HF & ->). exists (raw :: raws). split; [now constructor|].
      cbn [concat length]. rewrite <- app_assoc. f_equal. lia.
Qed.

(** X8. [multipart_etag] takes hex digests in either case of letter: a
    digest is accepted when it has an even number of characters, all of
    them hex digits. When every digest is, the tag is the hex MD5 of the
    bytes the digests stand for, one after the other, then [-] and the
    number of digests, between single quotes. When one is not, the first
    such digest decides what is raised: a plain [ValueError] when it holds
    a character above 127, [binascii.Error] when it is ASCII text. *)
Theorem multipart_etag_needs_hex_digests (digests : list string) :
  let well_formed := fun d : string =>
    Nat.even (String.length d) = true
    /\ Forall (fun c => is_Some (hex_value c)) (list_ascii_of_string d) in
  (Forall well_formed digests ->
   exists raws,
     Forall2 (fun d raw => a2b_hex d = inr raw) digests raws
     /\ multipart_etag hashlib_md5 digests
        = inr ("'" +:+ hexlify (hashlib_md5 (concat raws)) +:+ "-"
               +:+ pretty (length digests) +:+ "'"))
  /\ (forall good d rest,
        digests = good ++ d :: rest -> Forall well_formed good -> ~ well_formed d ->
        multipart_etag hashlib_md5 digests
        = inl (if Text.all_ascii d then BinasciiError else ValueError)).
Proof.
  intros well_formed. unfold multipart_etag.
  pose proof (multipart_etag_loop_spec digests [] 0) as H.
  split.
  - intros Hall. destruct (multipart_etag_loop digests [] 0) as [e|[etag count]].
    + exfalso. destruct H as (good & d & rest & -> & _ & Hd).
      apply List.Forall_app in Hall as [_ Hall]. apply List.Forall_inv in Hall.
      destruct (proj1 (a2b_hex_cases d) Hall) as [raw Hraw]. congruence.
    + destruct H as (raws & HF & Heq). injection Heq as -> ->. exists raws.
      split; [exact HF|reflexivity].
  - intros good d rest -> Hgood Hbad.
    assert (Hloop : forall acc n,
              multipart_etag_loop (good ++ d :: rest) acc n
              = inl (if Text.all_ascii d then BinasciiError else ValueError)).
    { clear H. induction Hgood as [|g good Hg _ IH]; intros acc n.
      - cbn [app multipart_etag_loop]. now rewrite (proj2 (a2b_hex_cases d) Hbad).
      - cbn [app multipart_etag_loop].
        destruct (proj1 (a2b_hex_cases g) Hg) as [raw ->]. apply IH. }
    now rewrite Hloop.
Qed.

End EtagProps.

End PputProps.

(** ** Sizes on the command line *)

Module SizeProps.
Import Text TextProps Pput.
Local Open Scope string_scope.
Local Open Scope list_scope.

Lemma parse_size_suffix (n : Z) (c : ascii) :
  is_unicode_space c = false -> is_ascii c = true ->
  parse_size (SizeStr (pretty n +:+ String c ""))
  = Some (let U := upper_char c in
          if Ascii.eqb U "T" then inr (n * (1024 * 1024 * 1024 * 1024))%Z
          else if Ascii.eqb U "G" then inr (n * (1024 * 1024 * 1024))%Z
          else if Ascii.eqb U "M" then inr (n * (1024 * 1024))%Z
          else if Ascii.eqb U "K" then inr (n * 1024)%Z
          else match Text.int (pretty n +:+ String U "") with
               | Some m => inr m
               | None => inl Text.ValueError
               end).
Proof.
  intros Hsp Hascii.
  destruct (numeral n) as (Hint & _ & _ & Hfree & _ & Hall & Hup & _).
  unfold parse_size. rewrite all_ascii_append, Hall. cbn [all_ascii]. rewrite Hascii.
  cbn [andb negb]. rewrite strip_free.
  2:{ apply free_of_append. split; [exact Hfree|]. constructor; [exact Hsp|constructor]. }
  rewrite upper_append, Hup. cbn [upper]. rewrite last_char_snoc, Hint. reflexivity.
Qed.

(** X9. [parse_size] reads back the decimal numeral of any integer, which
    is how the size that [snap.py] writes after [--estimated] reaches
    [optimize_chunksize]; a numeral followed by one of the letters K, M,
    G, T, in either case, is that many units of 1024, 1024^2, 1024^3,
    1024^4 bytes; and on text that is empty or all whitespace the call
    raises [IndexError]. *)
Theorem parse_size_reads_units (n : Z) :
  parse_size (SizeStr (pretty n)) = Some (inr n)
  /\ (forall c, In c ["K"; "k"]%char ->
        parse_size (SizeStr (pretty n +:+ String c "")) = Some (inr (n * 1024)%Z))
  /\ (forall c, In c ["M"; "m"]%char ->
        parse_size (SizeStr (pretty n +:+ String c ""))
        = Some (inr (n * (1024 * 1024))%Z))
  /\ (forall c, In c ["G"; "g"]%char ->
        parse_size (SizeStr (pretty n +:+ String c ""))
        = Some (inr (n * (1024 * 1024 * 1024))%Z))
  /\ (forall c, In c ["T"; "t"]%char ->
        parse_size (SizeStr (pretty n +:+ String c ""))
        = Some (inr (n * (1024 * 1024 * 1024 * 1024))%Z))
  /\ (forall s, Forall (fun c => is_unicode_space c = true) (list_ascii_of_string s) ->
        parse_size (SizeStr s) = Some (inl Text.IndexError)).
Proof.
  split; [|split; [|split; [|split; [|split]]]].
  - destruct (numeral n) as (Hint & _ & _ & Hfree & _ & Hall & Hup & front & d & Hn & Hd).
    unfold parse_size. rewrite Hall. cbn [negb]. rewrite strip_free by exact Hfree.
    rewrite Hup. rewrite Hn at 1. rewrite last_char_snoc.
    rewrite !(digit_no_sign_or_unit d) by (exact Hd || (cbn; tauto)).
    now rewrite Hint.
  - intros c [<-|[<-|[]]]; now rewrite parse_size_suffix.
  - intros c [<-|[<-|[]]]; now rewrite parse_size_suffix.
  - intros c [<-|[<-|[]]]; now rewrite parse_size_suffix.
  - intros c [<-|[<-|[]]]; now rewrite parse_size_suffix.
  - intros s Hs. unfold parse_size.
    rewrite all_ascii_Forall.
    2:{ eapply List.Forall_impl; [|exact Hs]. intros c Hc. revert Hc.
        cbv beta delta [is_unicode_space is_space is_ascii] zeta.
        destruct (N.ltb_spec (N_of_ascii c) 128); [reflexivity|].
        repeat match goal with
        | |- context [(?a <=? ?b)%N] => destruct (N.leb_spec a b)
        | |- context [(?a =? ?b)%N] => destruct (N.eqb_spec a b)
        end; cbn; try discriminate; lia. }
    cbn [negb]. unfold strip. now rewrite rstrip_spaces.
Qed.

End SizeProps.

(** * Properties of snap.py *)

Module SnapProps.
Import Snap.

Local Open Scope string_scope.
Local Open Scope list_scope.

(** ** Lineage health, as the spec words it *)

Lemma s3_get_Some (st : Store) (name : option string) (p : string) :
  s3_get st name = Some p -> name = Some p /\ is_Some (st !! p).
Proof.
  destruct name as [n|]; [|discriminate]. cbn.
  destruct (st !! n) eqn:H; [|discriminate]. intros [= <-]. rewrite H. eauto.
Qed.

Lemma health_upto_mono (st : Store) (b : nat) (n : string) (V : gset string) (h : Health) :
  health_upto b st n V = Some h -> health_upto (S b) st n V = Some h.
Proof.
  revert n V h. induction b as [|b IH]; intros n V h; [discriminate|].
  intros H. cbn [health_upto] in H. remember (S b) as b' eqn:Hb. cbn [health_upto].
  destruct (st !! n) as [s|]; [|discriminate].
  destruct (is_full s); [exact H|].
  destruct (bool_decide (n ∈ V)); [exact H|].
  destruct (parent st s) as [p|]; [|exact H].
  destruct (health_upto b st p (V ∪ {[n]})) as [h'|] eqn:Hp; [|discriminate].
  subst b'. now rewrite (IH _ _ _ Hp).
Qed.

Lemma health_upto_le (st : Store) (b b' : nat) (n : string) (V : gset string) (h : Health) :
  (b <= b')%nat -> health_upto b st n V = Some h -> health_upto b' st n V = Some h.
Proof.
  induction 1 as [|b' _ IH]; [trivial|]. intros H. now apply health_upto_mono, IH.
Qed.

(** The walk ends within the bound: it never comes twice to the same
    snapshot without noticing. *)
Lemma health_upto_total (st : Store) (b : nat) (n : string) (V : gset string) :
  is_Some (st !! n) -> (base.size (dom st ∖ V) < b)%nat ->
  is_Some (health_upto b st n V).
Proof.
  revert n V. induction b as [|b IH]; intros n V [s Hs] Hb; [lia|].
  cbn [health_upto]. rewrite Hs.
  destruct (is_full s); [eauto|].
  destruct (bool_decide_reflect (n ∈ V)) as [|Hn]; [eauto|].
  destruct (parent st s) as [p|] eqn:Hp; [|eauto].
  apply s3_get_Some in Hp as [_ Hp].
  destruct (IH p (V ∪ {[n]}) Hp) as [h ->]; [|cbn; eauto].
  assert (dom st ∖ (V ∪ {[n]}) ⊂ dom st ∖ V).
  { apply elem_of_dom_2 in Hs. set_solver. }
  pose proof (subset_size _ _ H). lia.
Qed.

Lemma health_total (st : Store) (n : string) :
  is_Some (st !! n) -> is_Some (health st n).
Proof.
  intros Hn. apply health_upto_total; [exact Hn|].
  rewrite difference_empty_L, size_dom. lia.
Qed.

(** A verdict other than [cycle] does not depend on what was visited
    before: it is the same from a smaller [visited] set. *)
Lemma health_upto_shrink (st : Store) (b : nat) (n : string) (V V' : gset string) (h : Health) :
  V' ⊆ V -> health_upto b st n V = Some h -> h <> broken CYCLE ->
  health_upto b st n V' = Some h.
Proof.
  revert n V V' h. induction b as [|b IH]; intros n V V' h Hsub H Hh; [discriminate|].
  cbn [health_upto] in *. destruct (st !! n) as [s|]; [|discriminate].
  destruct (is_full s); [exact H|].
  destruct (bool_decide_reflect (n ∈ V)) as [|Hn]; [congruence|].
  destruct (bool_decide_reflect (n ∈ V')) as [Hn'|_]; [set_solver|].
  destruct (parent st s) as [p|]; [|exact H].
  destruct (health_upto b st p (V ∪ {[n]})) as [h'|] eqn:Hp; [|discriminate].
  injection H as <-.
  rewrite (IH p (V ∪ {[n]}) (V' ∪ {[n]}) h'); [reflexivity|set_solver|exact Hp|].
  intros ->. now apply Hh.
Qed.

(** Nor does it change when a child [c] of a snapshot on the way is added
    to [visited]: a walk that came to [c] would go on to its parent, which
    it has visited. *)
Lemma health_upto_grow (st : Store) (c p : string) (sc sp : S3Snapshot) :
  st !! c = Some sc -> is_full sc = false -> parent st sc = Some p ->
  st !! p = Some sp -> is_full sp = false -> c <> p ->
  forall b n V h,
    health_upto b st n V = Some h -> h <> broken CYCLE ->
    c ∉ V -> (p ∈ V \/ n = p) ->
    health_upto b st n (V ∪ {[c]}) = Some h.
Proof.
  intros Hc Hcf Hcp Hp Hpf Hne.
  induction b as [|b IH]; intros n V h H Hh HcV HpV; [discriminate|].
  cbn [health_upto] in *. destruct (st !! n) as [s|] eqn:Hs; [|discriminate].
  destruct (is_full s) eqn:Hf; [exact H|].
  destruct (bool_decide_reflect (n ∈ V)) as [|Hn]; [congruence|].
  destruct (decide (n = c)) as [->|Hnc].
  - (* the walk comes to [c]: its parent was visited *)
    exfalso. rewrite Hc in Hs. injection Hs as <-. rewrite Hcp in H.
    assert (HpV' : p ∈ V ∪ {[c]}) by (destruct HpV; [set_solver|congruence]).
    destruct b as [|b]; [discriminate|]. cbn [health_upto] in H.
    rewrite Hp, Hpf in H. rewrite bool_decide_eq_true_2 in H by exact HpV'.
    cbn in H. injection H as <-. now apply Hh.
  - destruct (bool_decide_reflect (n ∈ V ∪ {[c]})) as [|_]; [set_solver|].
    destruct (parent st s) as [q|]; [|exact H].
    destruct (health_upto b st q (V ∪ {[n]})) as [h'|] eqn:Hq; [|discriminate].
    injection H as <-.
    replace (V ∪ {[c]} ∪ {[n]}) with (V ∪ {[n]} ∪ {[c]}) by set_solver.
    rewrite (IH q (V ∪ {[n]}) h'); [reflexivity|exact Hq| | |].
    + intros ->. now apply Hh.
    + set_solver.
    + destruct HpV; [left; set_solver | left; set_solver].
Qed.

Lemma cycle_or_not (h : Health) : h = broken CYCLE \/ h <> broken CYCLE.
Proof. destruct h as [|[]]; (now left) || (now right). Qed.

(** The health of a snapshot that is not full and whose parent exists is
    what it inherits from the health of its parent. *)
Lemma health_child (st : Store) (c p : string) (sc : S3Snapshot) :
  st !! c = Some sc -> is_full sc = false -> parent st sc = Some p ->
  health st c = inherit <$> health st p.
Proof.
  intros Hc Hcf Hcp.
  destruct (s3_get_Some _ _ _ Hcp) as [_ [sp Hp]].
  unfold health at 1. cbn [health_upto]. rewrite Hc, Hcf, Hcp.
  rewrite bool_decide_eq_false_2 by set_solver.
  assert (Hsz : (base.size (dom st ∖ (∅ ∪ {[c]})) < base.size st)%nat).
  { rewrite <- size_dom. apply subset_size. apply elem_of_dom_2 in Hc. set_solver. }
  destruct (health_upto_total st (base.size st) p (∅ ∪ {[c]})) as [h1 H1]; [eauto|exact Hsz|].
  destruct (health_total st p) as [h0 H0]; [eauto|].
  rewrite H1, H0. cbn. do 2 f_equal.
  unfold health in H0.
  destruct (is_full sp) eqn:Hpf.
  - (* a full parent is healthy, visited or not *)
    cbn [health_upto] in H0. rewrite Hp, Hpf in H0.
    destruct (base.size st) as [|k]; [lia|]. cbn [health_upto] in H1.
    rewrite Hp, Hpf in H1. congruence.
  - destruct (cycle_or_not h1) as [->|Hh1].
    + destruct (cycle_or_not h0) as [->|Hh0]; [reflexivity|]. exfalso.
      destruct (decide (c = p)) as [->|Hne].
      * cbn [health_upto] in H0. rewrite Hc, Hcf, Hcp in H0.
        rewrite bool_decide_eq_false_2 in H0 by set_solver.
        rewrite H1 in H0. cbn in H0. congruence.
      * pose proof (health_upto_grow st c p sc sp Hc Hcf Hcp Hp Hpf Hne _ _ _ _ H0 Hh0
                      ltac:(set_solver) (or_intror eq_refl)) as Hg.
        apply health_upto_mono in H1. congruence.
    + pose proof (health_upto_shrink st (base.size st) p (∅ ∪ {[c]}) ∅ h1
                    ltac:(set_solver) H1 Hh1) as Hs.
      apply health_upto_mono in Hs. congruence.
Qed.

(** ** The resolver computes the health the spec words *)

Lemma same_catalog_refl (st : Store) : same_catalog st st.
Proof. now intros n. Qed.

Lemma same_catalog_set_reason (st st' : Store) (r : Reason) (n : string) :
  same_catalog st st' -> same_catalog st (alter (set_reason r) n st').
Proof.
  intros H k. rewrite (H k). destruct (decide (n = k)) as [->|Hne].
  - rewrite lookup_alter_eq. now destruct (st' !! k).
  - now rewrite lookup_alter_ne.
Qed.

Lemma same_catalog_is_Some (st st' : Store) (n : string) :
  same_catalog st st' -> is_Some (st !! n) -> is_Some (st' !! n).
Proof.
  intros H [s Hs]. specialize (H n). rewrite Hs in H.
  destruct (st' !! n); [eauto | discriminate].
Qed.

Lemma reason_after_set (st : Store) (r : Reason) (n : string) :
  is_Some (st !! n) -> alter (set_reason r) n st !! n ≫= _reason_broken = Some r.
Proof. intros [s Hs]. now rewrite lookup_alter_eq, Hs. Qed.

(** [_is_healthy] answers whether the health is [healthy], changes nothing
    in the catalog but [_reason_broken] fields, and when it answers [False]
    it leaves the reason of the health in [self._reason_broken]. It reaches
    its bound exactly when the walk of the spec does. *)
Lemma _is_healthy_refines (fuel : nat) (st : Store) (n : string) (V : gset string) :
  match _is_healthy fuel st n V with
  | None => health_upto fuel st n V = None
  | Some (v, st') =>
    same_catalog st st'
    /\ exists h, health_upto fuel st n V = Some h /\ v = is_ok h
                 /\ (v = false -> st' !! n ≫= _reason_broken = reason_of h)
  end.
Proof.
  revert n V. induction fuel as [|fuel IH]; intros n V; [reflexivity|].
  cbn [_is_healthy health_upto].
  destruct (st !! n) as [s|] eqn:Hs; [|reflexivity].
  destruct (is_full s).
  { split; [apply same_catalog_refl|]. exists healthy. repeat split. discriminate. }
  destruct (bool_decide (n ∈ V)).
  { split; [apply same_catalog_set_reason, same_catalog_refl|].
    exists (broken CYCLE). repeat split. intros _. apply reason_after_set. eauto. }
  destruct (parent st s) as [p|].
  2:{ split; [apply same_catalog_set_reason, same_catalog_refl|].
      exists (broken MISSING_PARENT). repeat split. intros _. apply reason_after_set. eauto. }
  specialize (IH p (V ∪ {[n]})).
  destruct (_is_healthy fuel st p (V ∪ {[n]})) as [[[|] st']|]; [| |now rewrite IH].
  - destruct IH as (Hsame & h & -> & Hv & _). destruct h; [|discriminate].
    split; [exact Hsame|]. exists healthy. repeat split. discriminate.
  - destruct IH as (Hsame & h & -> & Hv & Hr). destruct h as [|r]; [discriminate|].
    rewrite (Hr eq_refl). cbn [reason_of].
    assert (Hn : is_Some (st' !! n)) by (eapply same_catalog_is_Some; eauto).
    destruct r; (split; [now apply same_catalog_set_reason|]);
      eexists; (split; [reflexivity|]); split; try reflexivity;
      intros _; now apply reason_after_set.
Qed.

Lemma _is_healthy_total (st : Store) (n : string) :
  is_Some (st !! n) -> is_Some (_is_healthy (S (base.size st)) st n ∅).
Proof.
  intros Hn. pose proof (_is_healthy_refines (S (base.size st)) st n ∅) as H.
  destruct (_is_healthy _ st n ∅); [eauto|].
  destruct (health_total st n Hn) as [h Hh]. unfold health in Hh. congruence.
Qed.

Lemma fresh_load_snapshots (objects : gmap string (gmap string string * Z)) :
  fresh (load_snapshots objects).
Proof.
  intros n s. unfold load_snapshots. rewrite lookup_fmap.
  destruct (objects !! n); cbn; [|discriminate]. now intros [= <-].
Qed.

(** On a snapshot whose health was not asked for before, [reason_broken]
    reports the reason of its health. *)
Lemma reason_broken_uncached (st : Store) (n : string) (s : S3Snapshot) :
  st !! n = Some s -> is_healthy_cached_value s = None ->
  exists h, health st n = Some h /\ fst (reason_broken st n) = reason_of h.
Proof.
  intros Hs Hcache. unfold reason_broken, is_healthy. rewrite Hs, Hcache.
  pose proof (_is_healthy_refines (S (base.size st)) st n ∅) as H.
  destruct (_is_healthy_total st n) as [[v st'] Hrun]; [eauto|].
  rewrite Hrun in *. destruct H as (Hsame & h & Hh & -> & Hr).
  exists h. split; [exact Hh|].
  destruct h as [|r]; cbn [is_ok fst reason_of]; [reflexivity|].
  specialize (Hr eq_refl). cbn [reason_of] in Hr.
  rewrite lookup_alter_eq. destruct (st' !! n); cbn in *; [exact Hr|discriminate].
Qed.

(** A walk that comes back to a snapshot it has visited ends in [cycle]. *)
Lemma health_upto_cycle (st : Store) (n : string) (sn : S3Snapshot) :
  st !! n = Some sn -> is_full sn = false ->
  forall k m b V h,
    ancestor st k m = Some n -> n ∈ V ->
    health_upto b st m V = Some h -> h = broken CYCLE.
Proof.
  intros Hn Hnf. induction k as [|k IH]; intros m b V h Hanc HnV Hh.
  - injection Hanc as ->. destruct b as [|b]; [discriminate|].
    cbn [health_upto] in Hh. rewrite Hn, Hnf in Hh.
    rewrite bool_decide_eq_true_2 in Hh by exact HnV. congruence.
  - cbn [ancestor] in Hanc. destruct b as [|b]; [discriminate|].
    cbn [health_upto] in Hh. destruct (st !! m) as [s|]; [|discriminate].
    destruct (is_full s); [discriminate|].
    destruct (bool_decide (m ∈ V)); [congruence|].
    destruct (parent st s) as [q|]; [|discriminate]. cbn in Hanc.
    destruct (health_upto b st q (V ∪ {[m]})) as [h'|] eqn:Hq; [|discriminate].
    injection Hh as <-.
    rewrite (IH q b (V ∪ {[m]}) h' Hanc ltac:(set_solver) Hq). reflexivity.
Qed.

Lemma health_on_cycle (st : Store) (n : string) (k : nat) :
  ancestor st (S k) n = Some n -> health st n = Some (broken CYCLE).
Proof.
  intros Hanc. pose proof Hanc as Hanc'. cbn [ancestor] in Hanc.
  destruct (st !! n) as [s|] eqn:Hs; [|discriminate].
  destruct (is_full s) eqn:Hf; [discriminate|].
  destruct (health_total st n) as [h Hh]; [eauto|]. rewrite Hh. f_equal.
  unfold health in Hh. cbn [health_upto] in Hh. rewrite Hs, Hf in Hh.
  rewrite bool_decide_eq_false_2 in Hh by set_solver.
  destruct (parent st s) as [p|]; [|discriminate]. cbn in Hanc.
  destruct (health_upto _ st p _) as [h'|] eqn:Hp; [|discriminate].
  injection Hh as <-.
  assert (HnV : n ∈ (∅ ∪ {[n]} : gset string)) by set_solver.
  rewrite (health_upto_cycle st n s Hs Hf k p _ _ h' Hanc HnV Hp).
  reflexivity.
Qed.

(** C6. On a freshly loaded catalog, for every snapshot [n] of it:
    if [n] is full, it is healthy, whatever its parent links; if [n] is not
    full and its named parent is not in the catalog, it is [missing parent];
    if [n] is not full and its parent is in the catalog, [n] is healthy when
    the parent is, [cycle] when the parent is [cycle], and [parent broken]
    when the parent is broken for any other reason; and if the parent links
    from [n] come back to [n], it is [cycle]. *)
Theorem lineage_health_classification (st : Store) (n : string) (s : S3Snapshot) :
  fresh st -> st !! n = Some s ->
  (is_full s = true -> fst (reason_broken st n) = None)
  /\ (is_full s = false -> parent st s = None ->
      fst (reason_broken st n) = Some MISSING_PARENT)
  /\ (forall p, is_full s = false -> parent st s = Some p ->
        fst (reason_broken st n)
        = match fst (reason_broken st p) with
          | None => None
          | Some CYCLE => Some CYCLE
          | Some _ => Some PARENT_BROKEN
          end)
  /\ (forall k, ancestor st (S k) n = Some n -> fst (reason_broken st n) = Some CYCLE).
Proof.
  intros Hfresh Hs.
  destruct (reason_broken_uncached st n s Hs (proj2 (Hfresh n s Hs))) as (h & Hh & ->).
  repeat split.
  - intros Hf. unfold health in Hh. cbn [health_upto] in Hh. rewrite Hs, Hf in Hh.
    now injection Hh as <-.
  - intros Hf Hp. unfold health in Hh. cbn [health_upto] in Hh. rewrite Hs, Hf, Hp in Hh.
    rewrite bool_decide_eq_false_2 in Hh by set_solver. now injection Hh as <-.
  - intros p Hf Hp. destruct (s3_get_Some _ _ _ Hp) as [_ [sp Hsp]].
    destruct (reason_broken_uncached st p sp Hsp (proj2 (Hfresh p sp Hsp)))
      as (hp & Hhp & ->).
    rewrite (health_child st n p s Hs Hf Hp), Hhp in Hh. injection Hh as <-.
    now destruct hp as [|[]].
  - intros k Hanc. rewrite (health_on_cycle st n k Hanc) in Hh. now injection Hh as <-.
Qed.

(** ** The metadata of an upload *)

Ltac in_cases H :=
  repeat match type of H with
         | _ \/ _ => destruct H as [H|H]; [cbv [String.append] in H; try discriminate H|]
         | False => destruct H
         end.

Lemma meta_isfull (self : PairManager) (estimated : Z) (parent : option string) :
  In "isfull=true" (_pput_cmd_meta self estimated parent) <-> parent = None.
Proof.
  unfold _pput_cmd_meta.
  destruct parent as [p|], (compressor self) as [c|]; cbn [app In];
    (split; intros H; [in_cases H; reflexivity | solve [discriminate H | auto]]).
Qed.

Lemma meta_parent (self : PairManager) (estimated : Z) (parent : option string) (p : string) :
  In ("parent=" +:+ p) (_pput_cmd_meta self estimated parent) <-> parent = Some p.
Proof.
  unfold _pput_cmd_meta.
  destruct parent as [p'|], (compressor self) as [c|]; cbn [app In];
    (split; intros H;
     [in_cases H; congruence
     | solve [discriminate H | injection H as ->; auto]]).
Qed.

Lemma meta_compressor (self : PairManager) (estimated : Z) (parent : option string)
    (c : string) :
  In ("compressor=" +:+ c) (_pput_cmd_meta self estimated parent) <-> compressor self = Some c.
Proof.
  unfold _pput_cmd_meta.
  destruct parent as [p'|], (compressor self) as [c'|]; cbn [app In];
    (split; intros H;
     [in_cases H; congruence
     | solve [discriminate H | injection H as ->; auto 6]]).
Qed.

Lemma meta_parsed (self : PairManager) (estimated : Z) (parent : option string) :
  exists headers,
    Pput.parse_metadata (_pput_cmd_meta self estimated parent) = Some headers
    /\ headers !! "size" = Some (pretty estimated)
    /\ headers !! "parent" = parent
    /\ headers !! "isfull" = match parent with Some _ => None | None => Some "true" end
    /\ headers !! "is_full" = None
    /\ headers !! "compressor" = compressor self.
Proof.
  unfold _pput_cmd_meta, Pput.parse_metadata.
  destruct parent as [p|], (compressor self) as [c|]; cbn;
    eexists; (split; [reflexivity|]); repeat split; now simplify_map_eq.
Qed.

(** C9. Whatever the estimated size, the parent and the compressor, the
    metadata that [_pput_cmd] hands to the uploader, one [--meta] each, has
    [isfull=true] exactly when no parent is given and [parent=<name>]
    exactly when that parent is given, never both; it always has
    [size=<estimated>]; it has [compressor=<label>] exactly when that
    compressor is configured. What the uploader's [parse_metadata] makes of
    it is a snapshot that is full if and only if it has no parent. *)
Theorem upload_metadata_full_xor_parent (self : PairManager) (estimated : Z)
    (s3_prefix snap_name : string) (parent : option string) :
  let meta := _pput_cmd_meta self estimated parent in
  _pput_cmd self estimated s3_prefix snap_name parent
  = "pput --quiet --estimated " +:+ pretty estimated +:+ " "
    +:+ String.concat " " (map (fun m => "--meta " +:+ m) meta)
    +:+ " " +:+ s3_prefix +:+ snap_name
  /\ (In "isfull=true" meta <-> parent = None)
  /\ (forall p, In ("parent=" +:+ p) meta <-> parent = Some p)
  /\ ~ (In "isfull=true" meta /\ exists p, In ("parent=" +:+ p) meta)
  /\ In ("size=" +:+ pretty estimated) meta
  /\ (forall c, In ("compressor=" +:+ c) meta <-> compressor self = Some c)
  /\ exists headers,
       Pput.parse_metadata meta = Some headers
       /\ headers !! "size" = Some (pretty estimated)
       /\ headers !! "parent" = parent
       /\ headers !! "compressor" = compressor self
       /\ forall size reason cached,
            let snapshot := mkS3Snapshot headers size reason cached in
            parent_name snapshot = parent
            /\ (is_full snapshot = true <-> parent_name snapshot = None).
Proof.
  cbn zeta. split; [reflexivity|].
  split; [apply meta_isfull|]. split; [apply meta_parent|].
  split.
  { intros [H [p Hp]]. apply meta_isfull in H. apply meta_parent in Hp. congruence. }
  split; [unfold _pput_cmd_meta; cbn [app In]; auto|].
  split; [apply meta_compressor|].
  destruct (meta_parsed self estimated parent) as (headers & Hparse & Hsize & Hp & Hf & Hf' & Hc).
  exists headers. repeat split; try assumption.
  - unfold is_full, parent_name. cbn [_metadata]. rewrite Hf, Hf', Hp.
    destruct parent; cbn; [discriminate | reflexivity].
  - unfold is_full, parent_name. cbn [_metadata]. rewrite Hf, Hf', Hp.
    intros ->. reflexivity.
Qed.

(** ** [is_healthy], with its cache *)

Lemma same_catalog_metadata (st st' : Store) : same_catalog st st' -> same_metadata st st'.
Proof.
  intros H n. specialize (H n). destruct (st !! n), (st' !! n); cbn in *; congruence.
Qed.

Lemma same_metadata_refl (st : Store) : same_metadata st st.
Proof. now intros n. Qed.

Lemma same_metadata_trans (st1 st2 st3 : Store) :
  same_metadata st1 st2 -> same_metadata st2 st3 -> same_metadata st1 st3.
Proof. intros H1 H2 n. now rewrite (H1 n). Qed.

Lemma same_metadata_sym (st st' : Store) : same_metadata st st' -> same_metadata st' st.
Proof. intros H n. now rewrite (H n). Qed.

Lemma same_metadata_lookup (st st' : Store) (n : string) (s : S3Snapshot) :
  same_metadata st st' -> st !! n = Some s ->
  exists s', st' !! n = Some s' /\ _metadata s' = _metadata s /\ size s' = size s.
Proof.
  intros H Hs. specialize (H n). rewrite Hs in H.
  destruct (st' !! n) as [s'|]; [|discriminate]. cbn in H.
  exists s'. split; [reflexivity|]. split; congruence.
Qed.

Lemma same_metadata_None (st st' : Store) (n : string) :
  same_metadata st st' -> st !! n = None -> st' !! n = None.
Proof.
  intros H Hs. specialize (H n). rewrite Hs in H. now destruct (st' !! n).
Qed.

Lemma same_metadata_s3_get (st st' : Store) (name : option string) :
  same_metadata st st' -> s3_get st name = s3_get st' name.
Proof.
  intros H. destruct name as [n|]; [|reflexivity]. cbn.
  destruct (st !! n) as [s|] eqn:Hs.
  - destruct (same_metadata_lookup _ _ _ _ H Hs) as (s' & -> & _). reflexivity.
  - now rewrite (same_metadata_None _ _ _ H Hs).
Qed.

Lemma same_metadata_size (st st' : Store) : same_metadata st st' -> base.size st = base.size st'.
Proof.
  intros H. rewrite <- !size_dom. f_equal. apply set_eq. intros n.
  rewrite !elem_of_dom. specialize (H n).
  destruct (st !! n), (st' !! n); cbn in H; try discriminate; split; eauto;
    intros [? ?]; discriminate.
Qed.

(** The health of the spec depends on the metadata only. *)
Lemma health_upto_ext (st st' : Store) (b : nat) (n : string) (V : gset string) :
  same_metadata st st' -> health_upto b st n V = health_upto b st' n V.
Proof.
  intros H. revert n V. induction b as [|b IH]; intros n V; [reflexivity|].
  cbn [health_upto]. destruct (st !! n) as [s|] eqn:Hs.
  - destruct (same_metadata_lookup _ _ _ _ H Hs) as (s' & -> & Hm & _).
    unfold is_full, parent, parent_name. rewrite Hm, (same_metadata_s3_get _ _ _ H).
    destruct (_ || _); [reflexivity|]. destruct (bool_decide _); [reflexivity|].
    destruct (s3_get st' _); [|reflexivity]. now rewrite IH.
  - now rewrite (same_metadata_None _ _ _ H Hs).
Qed.

Lemma health_ext (st st' : Store) (n : string) :
  same_metadata st st' -> health st n = health st' n.
Proof.
  intros H. unfold health. rewrite (same_metadata_size _ _ H). now apply health_upto_ext.
Qed.

(** [is_healthy] answers whether the health is [healthy], from its cache
    or from the walk, and leaves a catalog with the same metadata and a
    sound cache. *)
Lemma is_healthy_spec (st : Store) (n : string) (s : S3Snapshot) :
  cache_sound st -> st !! n = Some s ->
  exists h,
    health st n = Some h
    /\ fst (is_healthy st n) = is_ok h
    /\ same_metadata st (snd (is_healthy st n))
    /\ cache_sound (snd (is_healthy st n)).
Proof.
  intros Hsound Hs. unfold is_healthy. rewrite Hs.
  destruct (is_healthy_cached_value s) as [v|] eqn:Hcache.
  - destruct (Hsound n s v Hs Hcache) as (h & Hh & ->). exists h. cbn [fst snd].
    split; [assumption|]. split; [reflexivity|].
    split; [apply same_metadata_refl|assumption].
  - pose proof (_is_healthy_refines (S (base.size st)) st n ∅) as H.
    destruct (_is_healthy_total st n) as [[v st'] Hrun]; [eauto|].
    rewrite Hrun in *. destruct H as (Hsame & h & Hh & -> & _).
    exists h. cbn [fst snd].
    assert (Hmeta : same_metadata st (alter (set_cached (is_ok h)) n st')).
    { intros k. rewrite (same_catalog_metadata _ _ Hsame k).
      destruct (decide (n = k)) as [->|Hne].
      - rewrite lookup_alter_eq. now destruct (st' !! k).
      - now rewrite lookup_alter_ne. }
    split; [exact Hh|]. split; [reflexivity|]. split; [exact Hmeta|].
    intros k sk v Hk Hv. rewrite <- (health_ext _ _ k Hmeta).
    destruct (decide (n = k)) as [->|Hne].
    + rewrite lookup_alter_eq in Hk. destruct (st' !! k); [|discriminate].
      injection Hk as <-. cbn in Hv. injection Hv as <-. eauto.
    + rewrite lookup_alter_ne in Hk by exact Hne.
      specialize (Hsame k). rewrite Hk in Hsame.
      destruct (st !! k) as [sk0|] eqn:Hk0; [|discriminate]. cbn in Hsame.
      apply (Hsound k sk0 v Hk0). congruence.
Qed.

Lemma fresh_cache_sound (st : Store) : fresh st -> cache_sound st.
Proof. intros H n s v Hs Hv. destruct (H n s Hs) as [_ Hc]. congruence. Qed.

Lemma health_upto_agree (st : Store) (b1 b2 : nat) (n : string) (V : gset string)
    (h1 h2 : Health) :
  health_upto b1 st n V = Some h1 -> health_upto b2 st n V = Some h2 -> h1 = h2.
Proof.
  intros H1 H2. destruct (Nat.le_ge_cases b1 b2) as [Hle|Hle].
  - apply (health_upto_le _ _ _ _ _ _ Hle) in H1. congruence.
  - apply (health_upto_le _ _ _ _ _ _ Hle) in H2. congruence.
Qed.

(** ** Restore *)

Lemma is_chain_in_catalog (st : Store) (chain : list string) :
  is_chain st chain -> Forall (fun n => is_Some (st !! n)) chain.
Proof.
  induction chain as [|n [|p rest] IH]; cbn [is_chain]; [intros []| |].
  - intros (s & Hs & _). repeat constructor. eauto.
  - intros (s & Hs & _ & _ & Hrest). constructor; [eauto|]. now apply IH.
Qed.

Lemma is_chain_adjacent (st : Store) (chain front back : list string) (b a : string) :
  is_chain st chain -> chain = front ++ b :: a :: back ->
  exists s, st !! b = Some s /\ is_full s = false /\ parent_name s = Some a.
Proof.
  revert chain. induction front as [|x front IH]; intros chain Hc ->.
  - cbn in Hc. destruct Hc as (s & Hs & Hf & Hp & _). eauto.
  - cbn [app is_chain] in Hc. destruct Hc as (s & _ & Hrest).
    apply (IH (front ++ b :: a :: back)); [|reflexivity].
    destruct (front ++ b :: a :: back) as [|y l] eqn:Hl; [now destruct front|].
    now destruct Hrest as (_ & _ & Hrest).
Qed.

Lemma is_chain_root (st : Store) (chain : list string) :
  is_chain st chain ->
  exists front root s, chain = front ++ [root] /\ st !! root = Some s /\ is_full s = true.
Proof.
  induction chain as [|n [|p rest] IH]; cbn [is_chain]; [intros []| |].
  - intros (s & Hs & Hf). exists [], n, s. auto.
  - intros (s & _ & _ & _ & Hrest). destruct (IH Hrest) as (front & root & sr & -> & Hr).
    exists (n :: front), root, sr. auto.
Qed.

(** The loop of [restore] on a healthy snapshot, with no local snapshot
    in its way: it collects the chain from the snapshot back to its full
    root, within the bound. *)
Lemma restore_walk_healthy (send_self : PairManager) (st0 : Store) :
  zfs_snapshots (zfs_manager send_self) = [] ->
  forall b fuel st cur V acc,
    same_metadata st0 st -> cache_sound st ->
    health_upto b st0 cur V = Some healthy -> (b <= fuel)%nat ->
    exists chain,
      restore_walk send_self fuel st cur acc = Some (inr (acc ++ chain, None))
      /\ is_chain st0 chain /\ head chain = Some cur.
Proof.
  intros Hlocal. induction b as [|b IH]; intros fuel st cur V acc Hmeta Hsound Hh Hb;
    [discriminate|].
  destruct fuel as [|fuel]; [lia|]. cbn [restore_walk].
  unfold zfs_get. rewrite Hlocal. cbn [od_get].
  pose proof Hh as Hh'. cbn [health_upto] in Hh.
  destruct (st0 !! cur) as [s0|] eqn:Hs0; [|discriminate].
  destruct (same_metadata_lookup _ _ _ _ Hmeta Hs0) as (s & Hs & Hm & _).
  destruct (is_healthy_spec st cur s Hsound Hs) as (h & Hhealth & Hv & Hmeta1 & Hsound1).
  rewrite <- (health_ext _ _ cur Hmeta) in Hhealth.
  assert (h = healthy) as ->.
  { apply (health_upto_shrink _ _ _ _ ∅) in Hh'; [|set_solver|discriminate].
    symmetry. exact (health_upto_agree _ _ _ _ _ _ _ Hh' Hhealth). }
  destruct (is_healthy st cur) as [v st1]. cbn [fst snd is_ok] in *. subst v. cbn [negb].
  destruct (same_metadata_lookup _ _ _ _ Hmeta1 Hs) as (s1 & Hs1 & Hm1 & _).
  rewrite Hs1.
  assert (Hfull : is_full s1 = is_full s0) by (unfold is_full; now rewrite Hm1, Hm).
  rewrite Hfull.
  destruct (is_full s0) eqn:Hf0.
  - exists [cur]. split; [reflexivity|]. split; [|reflexivity]. cbn. eauto.
  - destruct (bool_decide (cur ∈ V)); [discriminate|].
    assert (Hparent : parent st1 s1 = parent st0 s0).
    { unfold parent, parent_name. rewrite Hm1, Hm. symmetry.
      apply same_metadata_s3_get. eapply same_metadata_trans; eassumption. }
    rewrite Hparent.
    destruct (parent st0 s0) as [p|] eqn:Hp; [|discriminate].
    destruct (health_upto b st0 p (V ∪ {[cur]})) as [[|r]|] eqn:Hhp; try discriminate.
    2:{ destruct r; discriminate. }
    destruct (IH fuel st1 p (V ∪ {[cur]}) (acc ++ [cur])) as (chain & -> & Hchain & Hhead);
      [eapply same_metadata_trans; eassumption|exact Hsound1|exact Hhp|lia|].
    exists (cur :: chain). rewrite <- app_assoc. split; [reflexivity|].
    split; [|reflexivity].
    cbn [is_chain]. exists s0. split; [exact Hs0|].
    destruct chain as [|q rest]; [discriminate|]. injection Hhead as ->.
    apply s3_get_Some in Hp as [Hp _]. auto.
Qed.

Lemma restore_pipes (self : PairManager) (st : Store) (dry_run force : bool)
    (order : list string) :
  Forall (fun n => is_Some (st !! n)) order ->
  Forall2 (fun n call => exists s, st !! n = Some s /\ call = restore_pipe self dry_run force n s)
          order
          (omap (fun n => restore_pipe self dry_run force n <$> st !! n) order).
Proof.
  induction 1 as [|n order [s Hs] _ IH]; [constructor|].
  change (omap ?f (n :: order)) with
    (match f n with Some y => y :: omap f order | None => omap f order end).
  cbn beta. rewrite Hs. cbn [fmap option_fmap option_map]. constructor; eauto.
Qed.

(** C5. With a healthy target in a freshly loaded catalog, a target
    dataset that does not exist locally and no local snapshot, [restore]
    runs one pipeline for each member of the chain of the target, the root
    first and the target last: the first one restored is a full snapshot,
    every other one is not full and names as its parent the one restored
    just before it, and the pipeline of a snapshot is the download of its
    object, then the decompressor that its own [compressor] metadata
    selects, if any, then [zfs recv] of its name. *)
Theorem restore_parent_first (self : PairManager) (target dataset tag : string)
    (sT : S3Snapshot) (dry_run force : bool) :
  let st := _snapshots (s3_manager self) in
  fresh st ->
  st !! target = Some sT ->
  fst (is_healthy st target) = true ->
  split "@" target = [dataset; tag] ->
  dataset_exists (zfs_manager self) dataset = false ->
  zfs_snapshots (zfs_manager self) = [] ->
  exists order calls,
    restore self target dry_run force = Some (mkRun calls (inr tt))
    /\ is_chain st (rev order)
    /\ (exists older, order = older ++ [target])
    /\ (exists root s younger, order = root :: younger /\ st !! root = Some s
                               /\ is_full s = true)
    /\ (forall before a b after, order = before ++ a :: b :: after ->
          exists s, st !! b = Some s /\ is_full s = false /\ parent_name s = Some a)
    /\ Forall2
         (fun n call =>
            exists s, st !! n = Some s
              /\ call = Pipe ("zfs3backup_get " +:+ os_path_join (s3_prefix (s3_manager self)) n)
                             (match COMPRESSORS_get (_metadata s !! "compressor") with
                              | Some c => decompress c +:+ " | " +:+ "zfs recv "
                                          +:+ (if force then "-F " else "") +:+ n
                              | None => "zfs recv " +:+ (if force then "-F " else "") +:+ n
                              end)
                             dry_run (size s))
         order calls.
Proof.
  cbn zeta. intros Hfresh HT Hhealthy Hsplit Hds Hlocal.
  set (st := _snapshots (s3_manager self)) in *.
  destruct (is_healthy_spec st target sT (fresh_cache_sound _ Hfresh) HT)
    as (h & Hh & Hv & _). rewrite Hhealthy in Hv. destruct h; [|discriminate].
  destruct (restore_walk_healthy self st Hlocal (S (base.size st)) (S (base.size st)) st target
              ∅ [] (same_metadata_refl _) (fresh_cache_sound _ Hfresh) Hh (le_n _))
    as (chain & Hwalk & Hchain & Hhead).
  exists (rev chain), (omap (fun n => restore_pipe self dry_run force n <$> st !! n) (rev chain)).
  split.
  { unfold restore. rewrite Hsplit, Hds, andb_false_r. fold st. cbn [s3_get].
    rewrite HT, Hwalk. reflexivity. }
  rewrite rev_involutive. split; [exact Hchain|].
  split.
  { destruct chain as [|n rest]; [discriminate|]. injection Hhead as ->.
    exists (rev rest). reflexivity. }
  split.
  { destruct (is_chain_root _ _ Hchain) as (front & root & s & -> & Hroot & Hfull).
    exists root, s, (rev front). rewrite rev_app_distr. auto. }
  split.
  { intros before a b after Horder.
    apply (is_chain_adjacent st chain (rev after) (rev before) b a Hchain).
    rewrite <- (rev_involutive chain), Horder, rev_app_distr. cbn [rev].
    now rewrite <- !app_assoc. }
  eapply List.Forall2_impl; [|apply restore_pipes].
  - intros n call (s & Hs & ->). exists s. split; [exact Hs|]. reflexivity.
  - apply List.Forall_rev. now apply is_chain_in_catalog.
Qed.

Lemma restore_parent_first_witness :
  let sT := mkS3Snapshot (list_to_map [("parent", "D@a"); ("compressor", "pigz1")]) 40
                         None None in
  let st := _snapshots (s3_manager restore_manager) in
  st !! "D@b" = Some sT
  /\ fst (is_healthy st "D@b") = true
  /\ restore restore_manager "D@b" false false
     = Some (mkRun [Pipe "zfs3backup_get zfs3backup/D@a" "pigz -d | zfs recv D@a" false 100;
                    Pipe "zfs3backup_get zfs3backup/D@b" "pigz -d | zfs recv D@b" false 40]
                   (inr tt))
  /\ exists order calls,
       restore restore_manager "D@b" false false = Some (mkRun calls (inr tt))
       /\ exists older, order = older ++ ["D@b"].
Proof.
  cbn zeta.
  assert (H1 : _snapshots (s3_manager restore_manager) !! "D@b"
               = Some (mkS3Snapshot (list_to_map [("parent", "D@a"); ("compressor", "pigz1")])
                                    40 None None))
    by (vm_compute; reflexivity).
  assert (H2 : fst (is_healthy (_snapshots (s3_manager restore_manager)) "D@b") = true)
    by (vm_compute; reflexivity).
  split; [exact H1|]. split; [exact H2|]. split; [vm_compute; reflexivity|].
  destruct (restore_parent_first restore_manager "D@b" "D" "b" _ false false
              (fresh_load_snapshots compressed_chain) H1 H2 eq_refl eq_refl eq_refl)
    as (order & calls & Hrun & _ & Hlast & _).
  exists order, calls. split; assumption.
Defined.

Lemma lineage_health_classification_witness :
  let st := load_snapshots mixed_catalog in
  let s := mkS3Snapshot (list_to_map [("parent", "D@d")]) 10 None None in
  st !! "D@e" = Some s
  /\ fst (reason_broken st "D@d") = Some MISSING_PARENT
  /\ fst (reason_broken st "D@e") = Some PARENT_BROKEN
  /\ fst (reason_broken st "D@z") = Some CYCLE.
Proof.
  cbn zeta.
  assert (H1 : load_snapshots mixed_catalog !! "D@e"
               = Some (mkS3Snapshot (list_to_map [("parent", "D@d")]) 10 None None))
    by (vm_compute; reflexivity).
  split; [exact H1|].
  assert (H2 : fst (reason_broken (load_snapshots mixed_catalog) "D@d") = Some MISSING_PARENT)
    by (vm_compute; reflexivity).
  split; [exact H2|]. split; [|vm_compute; reflexivity].
  destruct (lineage_health_classification (load_snapshots mixed_catalog) "D@e" _
              (fresh_load_snapshots mixed_catalog) H1) as (_ & _ & Hparent & _).
  rewrite (Hparent "D@d"); [now rewrite H2 | vm_compute; reflexivity | vm_compute; reflexivity].
Defined.

(** ** Incremental backup *)

Lemma ZFSSnapshot_chain_ind (P : ZFSSnapshot -> Prop) :
  (forall n, P (mkZFSSnapshot n None)) ->
  (forall n p, P p -> P (mkZFSSnapshot n (Some p))) ->
  forall z, P z.
Proof.
  intros Hroot Hchild. fix IH 1. intros [n [p|]]; [apply Hchild, IH | apply Hroot].
Qed.

(** The loop of [backup_incremental] collects the locals that are missing
    remotely, newest first, up to the first one that is there, which has
    to be healthy. *)
Lemma backup_walk_spec (st : Store) (z : ZFSSnapshot) (acc : list ZFSSnapshot) :
  backup_walk st z acc =
  match first_present st (zfs_lineage z) with
  | Some base =>
    if negb (fst (is_healthy st base))
    then inl (IntegrityError
                "Broken snapshot detected {s3_snap.name}, reason: '{s3_snap.reason_broken}'")
    else inr (acc ++ missing_remotely st (zfs_lineage z))
  | None => inr (acc ++ missing_remotely st (zfs_lineage z))
  end.
Proof.
  revert acc. induction z as [n|n p IH] using ZFSSnapshot_chain_ind; intros acc;
    cbn [backup_walk zfs_lineage first_present missing_remotely s3_get zfs_name];
    destruct (st !! n); try (now rewrite app_nil_r).
  - reflexivity.
  - rewrite IH. destruct (first_present st (zfs_lineage p));
      [destruct (negb _)|]; now rewrite <- ?app_assoc.
Qed.

Lemma zfs_lineage_root (z : ZFSSnapshot) :
  exists front root, zfs_lineage z = front ++ [root] /\ zfs_parent root = None.
Proof.
  induction z as [n|n p (front & root & Hl & Hroot)] using ZFSSnapshot_chain_ind.
  - exists [], (mkZFSSnapshot n None). auto.
  - exists (mkZFSSnapshot n (Some p) :: front), root. cbn [zfs_lineage]. rewrite Hl. auto.
Qed.

Lemma missing_remotely_all (st : Store) (path : list ZFSSnapshot) :
  first_present st path = None -> missing_remotely st path = path.
Proof.
  induction path as [|z path IH]; [reflexivity|]. cbn.
  destruct (st !! zfs_name z); [discriminate|]. intros H. now rewrite IH.
Qed.

(** Every local that is missing remotely, when some older one is there,
    has a parent. *)
Lemma missing_remotely_parents (st : Store) (z : ZFSSnapshot) (base : string) :
  first_present st (zfs_lineage z) = Some base ->
  Forall (fun u => is_Some (zfs_parent u)) (missing_remotely st (zfs_lineage z)).
Proof.
  induction z as [n|n p IH] using ZFSSnapshot_chain_ind;
    cbn [zfs_lineage first_present missing_remotely zfs_name]; destruct (st !! n);
    try discriminate; try constructor.
  - cbn. eauto.
  - now apply IH.
Qed.

Section Uploads.

Variable self : PairManager.
Variable estimate : string -> Z.
Variable dry_run : bool.

Local Abbreviation send_estimate := (fun cmd : string => @inr Exception Z (estimate cmd)).

(** The loop over the snapshots to upload, when each has a parent and
    every dry-run send parses: one incremental upload each, in the order of
    the list. *)
Lemma backup_uploads_spec (snaps : list ZFSSnapshot) (done : list Call)
    (uploaded_meta : list (string * Z)) :
  Forall (fun u => is_Some (zfs_parent u)) snaps ->
  backup_uploads send_estimate self dry_run snaps done uploaded_meta
  = mkRun (done ++ flat_map (incremental_upload self estimate dry_run) snaps)
          (inr (uploaded_meta ++ map (incremental_size estimate) snaps)).
Proof.
  intros H. revert done uploaded_meta.
  induction H as [|u snaps [p Hp] _ IH]; intros done uploaded_meta.
  - cbn. now rewrite !app_nil_r.
  - cbn [backup_uploads flat_map map]. unfold incremental_upload at 1, incremental_size at 1.
    rewrite Hp, IH. unfold incremental_probe. rewrite <- !app_assoc. reflexivity.
Qed.

(** The first part of C4, which the code does: when the first local on
    the way back from the target that is present remotely is healthy,
    [backup_incremental] uploads exactly the locals before it, the oldest
    first, each as an increment on its local parent. *)
Lemma backup_incremental_minimal (snap_name : option string) (z : ZFSSnapshot)
    (base : string) :
  let st := _snapshots (s3_manager self) in
  _snapshot_to_backup self snap_name = inr z ->
  first_present st (zfs_lineage z) = Some base ->
  fst (is_healthy st base) = true ->
  backup_incremental send_estimate self snap_name dry_run
  = mkRun (flat_map (incremental_upload self estimate dry_run)
                    (rev (missing_remotely st (zfs_lineage z))))
          (inr (map (incremental_size estimate) (rev (missing_remotely st (zfs_lineage z))))).
Proof.
  cbn zeta. intros Hz Hbase Hhealthy. unfold backup_incremental.
  rewrite Hz, backup_walk_spec, Hbase, Hhealthy. cbn [negb app].
  rewrite backup_uploads_spec; [reflexivity|].
  apply List.Forall_rev. eapply missing_remotely_parents, Hbase.
Qed.

(** The last part of C4, which the code does: when that first local
    present remotely is not healthy, [IntegrityError] is raised and nothing
    was run. *)
Lemma backup_incremental_unhealthy_base (send : string -> Exception + Z)
    (snap_name : option string) (z : ZFSSnapshot) (base : string) :
  let st := _snapshots (s3_manager self) in
  _snapshot_to_backup self snap_name = inr z ->
  first_present st (zfs_lineage z) = Some base ->
  fst (is_healthy st base) = false ->
  exists msg, backup_incremental send self snap_name dry_run = mkRun [] (inl (IntegrityError msg)).
Proof.
  cbn zeta. intros Hz Hbase Hhealthy. unfold backup_incremental.
  rewrite Hz, backup_walk_spec, Hbase, Hhealthy. cbn [negb]. eauto.
Qed.

(** C4, where the code departs from it. When no local on the way back
    from the target is present remotely, the oldest local is in the list to
    upload and is the first one the upload loop comes to; it has no parent,
    and the loop raises [AttributeError] on [z_snap.parent.name] after its
    two prints: no send is run and nothing is uploaded. *)
Theorem backup_incremental_without_remote_base (send : string -> Exception + Z)
    (snap_name : option string) (z : ZFSSnapshot) :
  let st := _snapshots (s3_manager self) in
  _snapshot_to_backup self snap_name = inr z ->
  first_present st (zfs_lineage z) = None ->
  exists root,
    last (zfs_lineage z) = Some root
    /\ zfs_parent root = None
    /\ backup_incremental send self snap_name dry_run
       = mkRun [Print "None"; Print (zfs_repr root)]
               (inl (AttributeError "'NoneType' object has no attribute 'name'")).
Proof.
  cbn zeta. intros Hz Hnone. unfold backup_incremental.
  rewrite Hz, backup_walk_spec, Hnone, (missing_remotely_all _ _ Hnone). cbn [app].
  destruct (zfs_lineage_root z) as (front & root & -> & Hroot).
  exists root. split; [apply last_snoc|]. split; [exact Hroot|].
  rewrite rev_app_distr. cbn [rev app backup_uploads].
  unfold repr_parent. rewrite Hroot. reflexivity.
Qed.

End Uploads.

Lemma backup_incremental_without_remote_base_witness :
  _snapshot_to_backup first_backup_manager (Some "D@b")
  = inr (mkZFSSnapshot "D@b" (Some (mkZFSSnapshot "D@a" None)))
  /\ backup_incremental estimate_42 first_backup_manager (Some "D@b") false
     = mkRun [Print "None"; Print "<Snapshot D@a []>"]
             (inl (AttributeError "'NoneType' object has no attribute 'name'")).
Proof.
  split; [vm_compute; reflexivity|].
  destruct (backup_incremental_without_remote_base first_backup_manager false estimate_42
              (Some "D@b") (mkZFSSnapshot "D@b" (Some (mkZFSSnapshot "D@a" None)))
              eq_refl eq_refl) as (root & Hlast & _ & ->).
  cbn in Hlast. injection Hlast as <-. reflexivity.
Defined.

(** ** The scenarios of the spec *)

(** An incremental backup on a healthy remote base: the two newer locals
    are uploaded, the older one first, each on its local parent. *)
Example backup_incremental_on_base :
  backup_incremental estimate_42 later_backup_manager None false
  = mkRun [Print "<Snapshot D@a []>"; Print "<Snapshot D@b [D@a]>";
           Shell "zfs send -nvP -i 'D@a' 'D@b'";
           Pipe "zfs send -i 'D@a' 'D@b'"
                ("pigz -1 --blocksize 4096 | pput --quiet --estimated 42 --meta size=42 "
                 +:+ "--meta parent=D@a --meta compressor=pigz1 zfs3backup/D@b")
                false 42;
           (Print "<Snapshot D@b [D@a]>"); (Print "<Snapshot D@c [D@b]>");
           Shell "zfs send -nvP -i 'D@b' 'D@c'";
           Pipe "zfs send -i 'D@b' 'D@c'"
                ("pigz -1 --blocksize 4096 | pput --quiet --estimated 42 --meta size=42 "
                 +:+ "--meta parent=D@b --meta compressor=pigz1 zfs3backup/D@c")
                false 42]
          (inr [("D@b", 42); ("D@c", 42)]).
Proof. vm_compute. reflexivity. Qed.

(** Lineage integrity failure during backup: the target is in the bucket
    with its parent missing; [IntegrityError], and no send is started. *)
Example backup_incremental_integrity_error :
  fst (reason_broken (_snapshots (s3_manager broken_backup_manager)) "D@c")
  = Some MISSING_PARENT
  /\ backup_incremental estimate_42 broken_backup_manager (Some "D@c") false
     = mkRun []
         (inl (IntegrityError
                 "Broken snapshot detected {s3_snap.name}, reason: '{s3_snap.reason_broken}'")).
Proof. split; vm_compute; reflexivity. Qed.

(** A full backup of the latest local snapshot. *)
Example backup_full_latest :
  backup_full estimate_42 later_backup_manager None true
  = mkRun [Shell "zfs send -nvP D@c";
           Pipe "zfs send 'D@c'"
                ("pigz -1 --blocksize 4096 | pput --quiet --estimated 42 --meta size=42 "
                 +:+ "--meta isfull=true --meta compressor=pigz1 zfs3backup/D@c")
                true 42]
          (inr [("D@c", 42)]).
Proof. vm_compute. reflexivity. Qed.

End SnapProps.

(** ** Health, asked for in any order *)

Module HealthProps.
Import Snap SnapProps.
Local Open Scope string_scope.
Local Open Scope list_scope.

Lemma ancestor_step (st : Store) (k : nat) :
  forall (v n p : string) (s : S3Snapshot),
    ancestor st k v = Some n -> st !! n = Some s -> is_full s = false ->
    parent st s = Some p -> ancestor st (S k) v = Some p.
Proof.
  induction k as [|k IH]; intros v n p s Hk Hn Hfull Hp.
  - cbn in Hk. injection Hk as ->. cbn [ancestor]. rewrite Hn, Hfull, Hp. reflexivity.
  - cbn [ancestor] in Hk. change (ancestor st (S (S k)) v)
      with (match st !! v with
            | Some s => if is_full s then None else parent st s ≫= ancestor st (S k)
            | None => None
            end).
    destruct (st !! v) as [sv|]; [|discriminate]. destruct (is_full sv); [discriminate|].
    destruct (parent st sv) as [q|]; [|discriminate]. cbn [mbind option_bind] in Hk |- *.
    now apply (IH q n p s).
Qed.

Lemma health_full (st : Store) (n : string) (s : S3Snapshot) :
  st !! n = Some s -> is_full s = true -> health st n = Some healthy.
Proof. intros Hn Hf. unfold health. cbn [health_upto]. now rewrite Hn, Hf. Qed.

Lemma health_missing_parent (st : Store) (n : string) (s : S3Snapshot) :
  st !! n = Some s -> is_full s = false -> parent st s = None ->
  health st n = Some (broken MISSING_PARENT).
Proof.
  intros Hn Hf Hp. unfold health. cbn [health_upto]. rewrite Hn, Hf, Hp.
  now rewrite bool_decide_eq_false_2 by set_solver.
Qed.

Lemma same_metadata_node (st0 st : Store) (n : string) (s : S3Snapshot) :
  same_metadata st0 st -> st !! n = Some s ->
  exists s0, st0 !! n = Some s0 /\ is_full s0 = is_full s /\ parent st0 s0 = parent st s.
Proof.
  intros Hsame Hn.
  destruct (same_metadata_lookup st st0 n s (same_metadata_sym _ _ Hsame) Hn)
    as (s0 & Hn0 & Hmeta & _).
  exists s0. split; [exact Hn0|]. unfold is_full, parent, parent_name. rewrite Hmeta.
  split; [reflexivity|]. apply same_metadata_s3_get. exact Hsame.
Qed.

Lemma reasons_sound_set (st0 st : Store) (n : string) (r : Reason) :
  reasons_sound st0 st -> health st0 n = Some (broken r) ->
  reasons_sound st0 (alter (set_reason r) n st).
Proof.
  intros Hs Hh m s' r' Hm Hr. destruct (decide (n = m)) as [->|Hne].
  - rewrite lookup_alter_eq in Hm. destruct (st !! m); [|discriminate].
    injection Hm as <-. cbn in Hr. congruence.
  - rewrite lookup_alter_ne in Hm by exact Hne. eauto.
Qed.

Lemma reason_kept_set (st : Store) (n m : string) (r : Reason) :
  is_Some (st !! m ≫= _reason_broken) ->
  is_Some (alter (set_reason r) n st !! m ≫= _reason_broken).
Proof.
  intros H. destruct (decide (n = m)) as [->|Hne].
  - rewrite lookup_alter_eq. destruct (st !! m); [cbn; eauto|exact H].
  - now rewrite lookup_alter_ne.
Qed.

(** What [_is_healthy] records on its way. Called on a snapshot [n] with,
    in [visited], snapshots that all have [n] above them, it answers
    whether [n] is healthy in the catalog as it was loaded; and every
    reason it writes, on [n] or above, is the reason of the health of the
    snapshot it is written on. *)
Lemma _is_healthy_sound (st0 : Store) (fuel : nat) :
  forall (st : Store) (n : string) (V : gset string),
    same_metadata st0 st -> reasons_sound st0 st ->
    (forall v, v ∈ V -> exists j, ancestor st0 (S j) v = Some n) ->
    match _is_healthy fuel st n V with
    | None => True
    | Some (v, st') =>
      same_catalog st st' /\ reasons_sound st0 st'
      /\ (forall m, is_Some (st !! m ≫= _reason_broken) ->
                    is_Some (st' !! m ≫= _reason_broken))
      /\ exists h, health st0 n = Some h /\ v = is_ok h
                   /\ (v = false -> st' !! n ≫= _reason_broken = reason_of h)
    end.
Proof.
  induction fuel as [|fuel IH]; intros st n V Hsame Hsound Hpath; [exact I|].
  cbn [_is_healthy].
  destruct (st !! n) as [s|] eqn:Hn; [|exact I].
  destruct (same_metadata_node st0 st n s Hsame Hn) as (s0 & Hn0 & Hfull & Hparent).
  destruct (is_full s) eqn:Hf.
  { split; [apply same_catalog_refl|]. split; [exact Hsound|]. split; [auto|].
    exists healthy. rewrite (health_full st0 n s0) by congruence. repeat split. discriminate. }
  destruct (bool_decide (n ∈ V)) eqn:HV.
  { apply bool_decide_eq_true in HV. destruct (Hpath n HV) as [j Hj].
    pose proof (health_on_cycle st0 n j Hj) as Hh.
    split; [apply same_catalog_set_reason, same_catalog_refl|].
    split; [now apply reasons_sound_set|]. split; [intros m; apply reason_kept_set|].
    exists (broken CYCLE). repeat split; [exact Hh|]. intros _. apply reason_after_set. eauto. }
  destruct (parent st s) as [p|] eqn:Hp.
  2:{ pose proof (health_missing_parent st0 n s0 Hn0 ltac:(congruence) Hparent) as Hh.
      split; [apply same_catalog_set_reason, same_catalog_refl|].
      split; [now apply reasons_sound_set|]. split; [intros m; apply reason_kept_set|].
      exists (broken MISSING_PARENT). repeat split; [exact Hh|].
      intros _. apply reason_after_set. eauto. }
  assert (Hf0 : is_full s0 = false) by congruence.
  pose proof (health_child st0 n p s0 Hn0 Hf0 Hparent) as Hchild.
  specialize (IH st p (V ∪ {[n]}) Hsame Hsound).
  destruct (_is_healthy fuel st p (V ∪ {[n]})) as [[v st']|]; [|exact I].
  destruct IH as (Hcat & Hsound' & Hkept & h & Hh & -> & Hr).
  { intros w Hw. apply elem_of_union in Hw as [Hw|Hw].
    - destruct (Hpath w Hw) as [j Hj]. exists (S j).
      now apply (ancestor_step st0 (S j) w n p s0).
    - apply elem_of_singleton in Hw as ->. exists 0%nat.
      cbn [ancestor]. rewrite Hn0, Hf0, Hparent. reflexivity. }
  rewrite Hh in Hchild. cbn [fmap option_fmap option_map] in Hchild.
  destruct h as [|r]; cbn [is_ok].
  - split; [exact Hcat|]. split; [exact Hsound'|]. split; [exact Hkept|].
    exists healthy. repeat split; [exact Hchild|]. discriminate.
  - rewrite (Hr eq_refl). cbn [reason_of].
    assert (Hn' : is_Some (st' !! n)) by (eapply same_catalog_is_Some; eauto).
    destruct r; cbn [inherit] in Hchild;
      (split; [now apply same_catalog_set_reason|]);
      (split; [now apply reasons_sound_set|]);
      (split; [intros m Hm; apply reason_kept_set; now apply Hkept|]);
      eexists; (split; [exact Hchild|]); split; try reflexivity;
      intros _; now apply reason_after_set.
Qed.


Lemma fresh_resolved (st : Store) : fresh st -> resolved st st.
Proof.
  intros Hfresh. split; [apply same_metadata_refl|]. split; [now apply fresh_cache_sound|].
  split.
  - intros n s r Hn Hr. destruct (Hfresh n s Hn) as [Hnone _]. congruence.
  - intros n s Hn Hc. destruct (Hfresh n s Hn) as [_ Hnone]. congruence.
Qed.

(** [is_healthy] on a catalog that was asked about before: the answer is
    that of the catalog as it was loaded, and what is recorded stays
    right. *)
Lemma is_healthy_resolved (st0 st : Store) (n : string) :
  resolved st0 st ->
  resolved st0 (snd (is_healthy st n))
  /\ fst (is_healthy st n) = match health st0 n with Some h => is_ok h | None => false end
  /\ (fst (is_healthy st n) = false ->
      snd (is_healthy st n) !! n ≫= _reason_broken = health st0 n ≫= reason_of).
Proof.
  intros (Hsame & Hcache & Hsound & Hset).
  rewrite (health_ext st0 st n Hsame).
  destruct (st !! n) as [s|] eqn:Hn.
  2:{ unfold is_healthy. rewrite Hn. cbn [fst snd].
      assert (Hnone : health st n = None) by (unfold health; cbn; now rewrite Hn).
      rewrite Hnone, Hn. repeat split; assumption. }
  destruct (is_healthy_spec st n s Hcache Hn) as (h & Hh & Hv & Hsame' & Hcache').
  rewrite Hh. split; [|split; [exact Hv|]].
  - (* what is recorded stays right *)
    split; [eapply same_metadata_trans; eassumption|]. split; [exact Hcache'|].
    unfold is_healthy in *. rewrite Hn in *.
    destruct (is_healthy_cached_value s) as [c|] eqn:Hc; [now split|].
    pose proof (_is_healthy_sound st0 (S (base.size st)) st n ∅ Hsame Hsound) as Hrun.
    destruct (_is_healthy_total st n) as [[v st'] Heq]; [eauto|]. rewrite Heq in *.
    destruct Hrun as (Hcat & Hsound' & Hkept & h' & Hh' & -> & Hr); [set_solver|].
    cbn [fst snd] in *. split.
    + intros m sm r Hm Hrm. destruct (decide (n = m)) as [->|Hne].
      * rewrite lookup_alter_eq in Hm. destruct (st' !! m) as [s'|] eqn:Hm'; [|discriminate].
        injection Hm as <-. cbn in Hrm. eauto.
      * rewrite lookup_alter_ne in Hm by exact Hne. eauto.
    + intros m sm Hm Hcm. destruct (decide (n = m)) as [->|Hne].
      * rewrite lookup_alter_eq in Hm. destruct (st' !! m) as [s'|] eqn:Hm'; [|discriminate].
        injection Hm as <-. cbn in Hcm. injection Hcm as Hok.
        specialize (Hr Hok). cbn in Hr |- *. rewrite Hr.
        destruct h'; [discriminate|cbn; eauto].
      * rewrite lookup_alter_ne in Hm by exact Hne.
        pose proof (Hcat m) as Hcm'. rewrite Hm in Hcm'.
        destruct (st !! m) as [sm0|] eqn:Hm0; [|discriminate].
        injection Hcm' as _ _ Hcv. rewrite Hcm in Hcv.
        pose proof (Hset m sm0 Hm0 Hcv) as Hsome.
        specialize (Hkept m). rewrite Hm0, Hm in Hkept. cbn in Hkept. now apply Hkept.
  - (* the reason that is read after the answer [False] *)
    intros Hfalse. rewrite Hv in Hfalse. destruct h as [|r]; [discriminate|].
    cbn [mbind option_bind reason_of].
    assert (Hres : resolved st0 (snd (is_healthy st n)) -> True) by auto.
    unfold is_healthy in *. rewrite Hn in *.
    destruct (is_healthy_cached_value s) as [c|] eqn:Hc.
    + cbn [fst snd] in *. rewrite Hn. cbn [mbind option_bind].
      subst c. destruct (Hset n s Hn Hc) as [r' Hr'].
      rewrite Hr'. pose proof (Hsound n s r' Hn Hr') as Hh0.
      rewrite (health_ext st0 st n Hsame) in Hh0. congruence.
    + pose proof (_is_healthy_sound st0 (S (base.size st)) st n ∅ Hsame Hsound) as Hrun.
      destruct (_is_healthy_total st n) as [[v st'] Heq]; [eauto|]. rewrite Heq in *.
      destruct Hrun as (Hcat & Hsound' & Hkept & h' & Hh' & -> & Hr); [set_solver|].
      cbn [fst snd] in *. rewrite (health_ext st0 st n Hsame) in Hh'.
      assert (h' = broken r) by congruence. subst h'.
      specialize (Hr eq_refl). rewrite lookup_alter_eq.
      destruct (st' !! n); cbn in *; [exact Hr|discriminate].
Qed.

Lemma reason_broken_resolved (st0 st : Store) (n : string) :
  resolved st0 st ->
  resolved st0 (snd (reason_broken st n))
  /\ fst (reason_broken st n) = health st0 n ≫= reason_of.
Proof.
  intros Hres. destruct (is_healthy_resolved st0 st n Hres) as (Hres' & Hv & Hr).
  unfold reason_broken. destruct (is_healthy st n) as [v st'] eqn:Hrun. cbn [fst snd] in *.
  destruct v; cbn [fst snd].
  - split; [exact Hres'|]. destruct (health st0 n) as [[|r]|]; try discriminate. reflexivity.
  - split; [exact Hres'|]. now apply Hr.
Qed.

(** X11. The health that the status listing shows does not depend on the
    order in which the snapshots are looked at. On a catalog as the manager
    loads it, [reason_broken] asked of any names one after the other, on
    objects that keep what earlier calls recorded, gives for each name the
    reason of its lineage health in the catalog: [None] when it is healthy
    (or no such snapshot), else [cycle detected], [missing parent] or
    [parent broken]. *)
Theorem reason_broken_any_order (st0 : Store) (names : list string) :
  fresh st0 ->
  fst (reason_broken_each st0 names) = map (fun n => health st0 n ≫= reason_of) names.
Proof.
  intros Hfresh. apply fresh_resolved in Hfresh.
  assert (Hgen : forall st, resolved st0 st ->
            fst (reason_broken_each st names)
            = map (fun n => health st0 n ≫= reason_of) names).
  { induction names as [|n names IH]; intros st Hres; [reflexivity|].
    cbn [reason_broken_each map].
    destruct (reason_broken_resolved st0 st n Hres) as [Hres' Hr].
    destruct (reason_broken st n) as [r st']. cbn [fst snd] in *.
    specialize (IH st' Hres'). destruct (reason_broken_each st' names) as [rs st''].
    cbn [fst] in *. now rewrite Hr, IH. }
  now apply Hgen.
Qed.

Lemma reason_broken_any_order_witness :
  fst (reason_broken_each (load_snapshots mixed_catalog)
                          ["D@z"; "D@e"; "D@a"; "D@x"; "D@d"; "D@b"; "D@q"])
  = map (fun n => health (load_snapshots mixed_catalog) n ≫= reason_of)
        ["D@z"; "D@e"; "D@a"; "D@x"; "D@d"; "D@b"; "D@q"].
Proof.
  apply (reason_broken_any_order (load_snapshots mixed_catalog)
           ["D@z"; "D@e"; "D@a"; "D@x"; "D@d"; "D@b"; "D@q"]).
  apply fresh_load_snapshots.
Defined.

End HealthProps.

(** ** Restore, with snapshots that are there locally *)

Module RestoreProps.
Import Snap SnapProps.
Local Open Scope string_scope.
Local Open Scope list_scope.

(** The walk of [restore] from a healthy snapshot: it ends at the first
    snapshot that is there locally, or at the full snapshot of the chain,
    and never on an error. *)
Lemma restore_walk_segment (self : PairManager) (st0 : Store) :
  forall b fuel st cur V acc,
    same_metadata st0 st -> cache_sound st ->
    health_upto b st0 cur V = Some healthy -> (b <= fuel)%nat ->
    exists seg stop,
      restore_walk self fuel st cur acc = Some (inr (acc ++ seg, stop))
      /\ is_segment st0 cur seg stop
      /\ Forall (fun n => zfs_get (zfs_manager self) n = None) seg
      /\ (forall l, stop = Some l -> is_Some (zfs_get (zfs_manager self) l)).
Proof.
  induction b as [|b IH]; intros fuel st cur V acc Hmeta Hsound Hh Hb; [discriminate|].
  destruct fuel as [|fuel]; [lia|]. cbn [restore_walk].
  destruct (zfs_get (zfs_manager self) cur) as [z|] eqn:Hlocal.
  { exists [], (Some cur). rewrite app_nil_r. split; [reflexivity|]. split; [reflexivity|].
    split; [constructor|]. intros l [= <-]. rewrite Hlocal. eauto. }
  pose proof Hh as Hh'. cbn [health_upto] in Hh.
  destruct (st0 !! cur) as [s0|] eqn:Hs0; [|discriminate].
  destruct (same_metadata_lookup _ _ _ _ Hmeta Hs0) as (s & Hs & Hm & _).
  destruct (is_healthy_spec st cur s Hsound Hs) as (h & Hhealth & Hv & Hmeta1 & Hsound1).
  rewrite <- (health_ext _ _ cur Hmeta) in Hhealth.
  assert (h = healthy) as ->.
  { apply (health_upto_shrink _ _ _ _ ∅) in Hh'; [|set_solver|discriminate].
    symmetry. exact (health_upto_agree _ _ _ _ _ _ _ Hh' Hhealth). }
  destruct (is_healthy st cur) as [v st1]. cbn [fst snd is_ok] in *. subst v. cbn [negb].
  destruct (same_metadata_lookup _ _ _ _ Hmeta1 Hs) as (s1 & Hs1 & Hm1 & _).
  rewrite Hs1.
  assert (Hfull : is_full s1 = is_full s0) by (unfold is_full; now rewrite Hm1, Hm).
  rewrite Hfull.
  destruct (is_full s0) eqn:Hf0.
  - exists [cur], None. split; [reflexivity|]. split.
    + cbn [is_segment]. split; [reflexivity|]. exists s0. rewrite Hf0. auto.
    + split; [now constructor|discriminate].
  - destruct (bool_decide (cur ∈ V)); [discriminate|].
    assert (Hparent : parent st1 s1 = parent st0 s0).
    { unfold parent, parent_name. rewrite Hm1, Hm. symmetry.
      apply same_metadata_s3_get. eapply same_metadata_trans; eassumption. }
    rewrite Hparent.
    destruct (parent st0 s0) as [p|] eqn:Hp; [|discriminate].
    destruct (health_upto b st0 p (V ∪ {[cur]})) as [[|r]|] eqn:Hhp; try discriminate.
    2:{ destruct r; discriminate. }
    destruct (IH fuel st1 p (V ∪ {[cur]}) (acc ++ [cur]))
      as (seg & stop & -> & Hseg & Hnot & Hstop);
      [eapply same_metadata_trans; eassumption|exact Hsound1|exact Hhp|lia|].
    exists (cur :: seg), stop. rewrite <- app_assoc. split; [reflexivity|]. split.
    + cbn [is_segment]. split; [reflexivity|]. exists s0. rewrite Hf0.
      split; [exact Hs0|]. exists p. split; [|exact Hseg].
      now apply s3_get_Some in Hp as [Hp _].
    + split; [now constructor|exact Hstop].
Qed.

Lemma is_segment_in_catalog (st : Store) (seg : list string) :
  forall cur stop, is_segment st cur seg stop -> Forall (fun n => is_Some (st !! n)) seg.
Proof.
  induction seg as [|n rest IH]; intros cur stop H; [constructor|].
  cbn [is_segment] in H. destruct H as (-> & s & Hs & H). constructor; [eauto|].
  destruct (is_full s).
  - destruct H as [-> _]. constructor.
  - destruct H as (p & _ & H). eapply IH, H.
Qed.

(** X12. [restore] on a catalog as the manager loads it always comes to
    an end, cycles among the remote snapshots included, and it runs nothing
    unless the whole way is clear. A target that is not in the bucket gives
    an exception and no call. A target that is not there locally and is
    not healthy gives [IntegrityError] and no call. Otherwise the walk goes
    from the target along the parent links up to the first snapshot that is
    there locally, for which the rollback hint is printed, or else up to the
    full snapshot; and one pipeline is run for each remote snapshot on the
    way, none of them there locally, the oldest first and the target
    last. *)
Theorem restore_newer_than_local (self : PairManager) (target dataset tag : string)
    (dry_run force : bool) :
  let st := _snapshots (s3_manager self) in
  fresh st ->
  split "@" target = [dataset; tag] ->
  negb force && dataset_exists (zfs_manager self) dataset = false ->
  match st !! target with
  | None =>
    restore self target dry_run force
    = Some (mkRun [] (inl (Error ("Sorry, no such snapshot: " +:+ target))))
  | Some _ =>
    match zfs_get (zfs_manager self) target, fst (is_healthy st target) with
    | None, false =>
      exists msg, restore self target dry_run force = Some (mkRun [] (inl (IntegrityError msg)))
    | _, _ =>
      exists order stop pipes,
        restore self target dry_run force
        = Some (mkRun (match stop with
                       | Some l => [Print ("Snapshot already exists locally. If you'd like to "
                                           +:+ "rollback to it you can run 'zfs rollback "
                                           +:+ l +:+ "'")]
                       | None => []
                       end ++ pipes)
                      (inr tt))
        /\ is_segment st target (rev order) stop
        /\ Forall (fun n => zfs_get (zfs_manager self) n = None) order
        /\ (forall l, stop = Some l -> is_Some (zfs_get (zfs_manager self) l))
        /\ Forall2 (fun n call => exists s, st !! n = Some s
                                  /\ call = restore_pipe self dry_run force n s)
                   order pipes
    end
  end.
Proof.
  cbn zeta. intros Hfresh Hsplit Hforce.
  set (st := _snapshots (s3_manager self)) in *.
  unfold restore. rewrite Hsplit, Hforce. fold st. cbn [s3_get].
  destruct (st !! target) as [sT|] eqn:HT; [|reflexivity].
  assert (Hsound := fresh_cache_sound _ Hfresh).
  destruct (zfs_get (zfs_manager self) target) as [z|] eqn:Hlocal.
  { (* the target is there locally: the hint and nothing else *)
    exists [], (Some target), []. cbn [restore_walk]. rewrite Hlocal. cbn [rev omap app].
    repeat split; try constructor. intros l [= <-]. rewrite Hlocal. eauto. }
  destruct (is_healthy_spec st target sT Hsound HT) as (h & Hh & Hv & _).
  destruct (fst (is_healthy st target)) eqn:Hok.
  - destruct h; [|discriminate].
    destruct (restore_walk_segment self st (S (base.size st)) (S (base.size st)) st target
                ∅ [] (same_metadata_refl _) Hsound Hh (le_n _))
      as (seg & stop & Hwalk & Hseg & Hnot & Hstop).
    rewrite Hwalk. cbn [app].
    exists (rev seg), stop,
      (omap (fun n => restore_pipe self dry_run force n <$> st !! n) (rev seg)).
    rewrite rev_involutive. split; [reflexivity|]. split; [exact Hseg|].
    split; [now apply List.Forall_rev|]. split; [exact Hstop|].
    apply restore_pipes. apply List.Forall_rev. eapply is_segment_in_catalog, Hseg.
  - cbn [restore_walk]. rewrite Hlocal.
    destruct (is_healthy st target) as [v st1]. cbn [fst] in Hok. subst v. cbn [negb]. eauto.
Qed.

Lemma restore_newer_than_local_witness :
  exists order stop pipes,
    restore partial_restore_manager "D@b" false false
    = Some (mkRun (match stop with
                   | Some l => [Print ("Snapshot already exists locally. If you'd like to "
                                       +:+ "rollback to it you can run 'zfs rollback "
                                       +:+ l +:+ "'")]
                   | None => []
                   end ++ pipes)
                  (inr tt))
    /\ is_segment (_snapshots (s3_manager partial_restore_manager)) "D@b" (rev order) stop
    /\ Forall (fun n => zfs_get (zfs_manager partial_restore_manager) n = None) order
    /\ (forall l, stop = Some l -> is_Some (zfs_get (zfs_manager partial_restore_manager) l))
    /\ Forall2 (fun n call =>
                  exists s, _snapshots (s3_manager partial_restore_manager) !! n = Some s
                            /\ call = restore_pipe partial_restore_manager false false n s)
               order pipes.
Proof.
  exact (restore_newer_than_local partial_restore_manager "D@b" "D" "b" false false
           (fresh_load_snapshots compressed_chain) eq_refl eq_refl).
Defined.

(** the run of the witness *)
Example restore_on_local_parent :
  restore partial_restore_manager "D@b" false false
  = Some (mkRun [Print ("Snapshot already exists locally. If you'd like to rollback to it "
                        +:+ "you can run 'zfs rollback D@a'");
                 Pipe "zfs3backup_get zfs3backup/D@b" "pigz -d | zfs recv D@b" false 40]
                (inr tt)).
Proof. vm_compute. reflexivity. Qed.

End RestoreProps.

(** ** What an incremental backup leaves in the bucket *)

Module BackupProps.
Import Snap SnapProps.
Local Open Scope string_scope.
Local Open Scope list_scope.

(** ** A catalog that grows *)

Lemma health_upto_extend (st st' : Store) (b : nat) :
  st ⊆ st' ->
  forall n V, health_upto b st n V = Some healthy -> health_upto b st' n V = Some healthy.
Proof.
  intros Hsub. induction b as [|b IH]; intros n V Hh; [discriminate|].
  cbn [health_upto] in Hh |- *.
  destruct (st !! n) as [s|] eqn:Hn; [|discriminate].
  rewrite (lookup_weaken _ _ _ _ Hn Hsub).
  destruct (is_full s); [reflexivity|].
  destruct (bool_decide (n ∈ V)); [discriminate|].
  destruct (parent st s) as [p|] eqn:Hp; [|discriminate].
  assert (Hp' : parent st' s = Some p).
  { apply s3_get_Some in Hp as [Hname [sp Hsp]]. unfold parent. rewrite Hname. cbn [s3_get].
    now rewrite (lookup_weaken _ _ _ _ Hsp Hsub). }
  rewrite Hp'.
  destruct (health_upto b st p (V ∪ {[n]})) as [[|r]|] eqn:Hhp; try discriminate.
  - now rewrite (IH _ _ Hhp).
  - destruct r; discriminate.
Qed.

Lemma health_extend (st st' : Store) (n : string) :
  st ⊆ st' -> health st n = Some healthy -> health st' n = Some healthy.
Proof.
  intros Hsub Hh. unfold health in *.
  apply (health_upto_le st' (S (base.size st))).
  - apply le_n_S. now apply map_subseteq_size.
  - now apply (health_upto_extend st st').
Qed.

(** ** One upload on a healthy parent *)

Lemma uploaded_on_parent (self : PairManager) (estimated : Z) (p : string) (len : Z) :
  exists s, uploaded_snapshot self estimated (Some p) len = Some s
            /\ is_full s = false /\ parent_name s = Some p.
Proof.
  destruct (meta_parsed self estimated (Some p))
    as (headers & Hparse & _ & Hparent & Hisfull & His_full & _).
  unfold uploaded_snapshot. rewrite Hparse. cbn [fmap option_fmap option_map].
  eexists. split; [reflexivity|]. unfold is_full, parent_name. cbn [_metadata].
  rewrite Hparent, Hisfull, His_full. split; [|reflexivity].
  rewrite !bool_decide_eq_false_2 by discriminate. reflexivity.
Qed.

Lemma healthy_after_upload (st : Store) (n p : string) (s : S3Snapshot) :
  st !! n = None -> health st p = Some healthy ->
  is_full s = false -> parent_name s = Some p ->
  health (<[n := s]> st) n = Some healthy.
Proof.
  intros Hfresh Hp Hfull Hparent.
  assert (Hsub : st ⊆ <[n := s]> st) by now apply insert_subseteq.
  assert (Hin : is_Some (st !! p)).
  { unfold health in Hp. cbn [health_upto] in Hp. destruct (st !! p); [eauto|discriminate]. }
  destruct Hin as [sp Hsp].
  rewrite (health_child (<[n := s]> st) n p s).
  - now rewrite (health_extend st _ p Hsub Hp).
  - apply lookup_insert_eq.
  - exact Hfull.
  - unfold parent. rewrite Hparent. cbn [s3_get].
    now rewrite (lookup_weaken _ _ _ _ Hsp Hsub).
Qed.

(** ** The uploads, one on the other *)

(** a list of local snapshots, each the parent of the next *)
Lemma lineage_adjacent (z : ZFSSnapshot) :
  forall front a b back, zfs_lineage z = front ++ a :: b :: back -> zfs_parent a = Some b.
Proof.
  induction z as [n|n p IH] using ZFSSnapshot_chain_ind; intros front a b back H.
  - cbn in H. destruct front as [|x [|y front]]; discriminate.
  - cbn [zfs_lineage] in H. destruct front as [|x front].
    + injection H as <- Hp. destruct p as [m [q|]]; cbn in Hp; injection Hp as <- _;
        reflexivity.
    + injection H as _ Hp. now apply (IH front a b back).
Qed.

Lemma missing_remotely_prefix (st : Store) (path : list ZFSSnapshot) (base : string) :
  first_present st path = Some base ->
  exists b rest, path = missing_remotely st path ++ b :: rest
                 /\ zfs_name b = base /\ is_Some (st !! base)
                 /\ Forall (fun u => st !! zfs_name u = None) (missing_remotely st path).
Proof.
  induction path as [|u path IH]; intros H; [discriminate|].
  cbn [first_present missing_remotely] in *.
  destruct (st !! zfs_name u) as [s|] eqn:Hu.
  - injection H as <-. exists u, path. rewrite Hu. repeat split; eauto.
  - destruct (IH H) as (b & rest & Hpath & Hb & Hin & Hall).
    exists b, rest. split; [cbn [app]; now f_equal|]. repeat split; try assumption.
    now constructor.
Qed.


Lemma on_each_other_app (base : string) (a b : list ZFSSnapshot) :
  on_each_other base (a ++ b)
  <-> on_each_other base a
      /\ on_each_other (match last a with Some u => zfs_name u | None => base end) b.
Proof.
  revert base. induction a as [|u a IH]; intros base.
  - cbn. tauto.
  - cbn [app on_each_other]. rewrite IH.
    assert (Hlast : match last (u :: a) with Some v => zfs_name v | None => base end
                    = match last a with Some v => zfs_name v | None => zfs_name u end).
    { rewrite last_cons. now destruct (last a). }
    rewrite Hlast. tauto.
Qed.

(** the snapshots that [backup_incremental] uploads, in the order it
    uploads them: the oldest on the remote base, each other one on the one
    before *)
Lemma uploads_on_each_other (st : Store) (z : ZFSSnapshot) (base : string) :
  first_present st (zfs_lineage z) = Some base ->
  on_each_other base (rev (missing_remotely st (zfs_lineage z))).
Proof.
  intros Hbase.
  destruct (missing_remotely_prefix st _ base Hbase) as (b & rest & Hpath & Hb & _ & _).
  pose proof (lineage_adjacent z) as Hadj. clear Hbase. revert Hpath Hadj.
  generalize (missing_remotely st (zfs_lineage z)) as M.
  generalize (zfs_lineage z) as path.
  intros path M. revert base b rest Hb path. clear.
  induction M as [|u M IH]; intros base b rest Hb path Hpath Hadj; [exact I|].
  cbn [rev]. apply on_each_other_app. split.
  - destruct M as [|v M'].
    + exact I.
    + apply (IH base b rest Hb (v :: M' ++ b :: rest) eq_refl).
      intros front x y back Hxy. apply (Hadj (u :: front) x y back).
      rewrite Hpath. cbn [app]. f_equal. exact Hxy.
  - cbn [on_each_other]. split; [|exact I].
    destruct M as [|v M'].
    + cbn [rev last]. exists b. split; [|exact Hb].
      apply (Hadj [] u b rest). now rewrite Hpath.
    + exists v. split.
      * apply (Hadj [] u v (M' ++ b :: rest)). now rewrite Hpath.
      * cbn [rev]. now rewrite last_snoc.
Qed.


(** ** The catalog after the uploads *)

Section Catalog.

Variable self : PairManager.
Variable estimate : string -> Z.
Variable content_length : string -> Z.

Lemma uploads_keep_healthy (uploads : list ZFSSnapshot) :
  forall (st : Store) (base : string),
    health st base = Some healthy ->
    on_each_other base uploads ->
    NoDup (map zfs_name uploads) ->
    Forall (fun u => st !! zfs_name u = None) uploads ->
    st ⊆ catalog_after_uploads self estimate content_length st uploads
    /\ Forall (fun u => health (catalog_after_uploads self estimate content_length st uploads)
                               (zfs_name u) = Some healthy) uploads.
Proof.
  induction uploads as [|u rest IH]; intros st base Hbase Hchain Hnodup Hfresh.
  - split; [reflexivity|constructor].
  - destruct Hchain as [(p & Hp & Hname) Hchain]. cbn [map] in Hnodup.
    apply NoDup_cons in Hnodup as [Hnotin Hnodup].
    apply Forall_cons in Hfresh as [Hu Hfresh].
    cbn [catalog_after_uploads]. rewrite Hp.
    destruct (uploaded_on_parent self (estimate (incremental_probe u p)) (zfs_name p)
                (content_length (zfs_name u))) as (s & -> & Hfull & Hparent).
    rewrite Hname in Hparent.
    pose proof (healthy_after_upload st (zfs_name u) base s Hu Hbase Hfull Hparent) as Hhu.
    assert (Hfresh' : Forall (fun v => <[zfs_name u := s]> st !! zfs_name v = None) rest).
    { rewrite Forall_forall in Hfresh |- *. intros v Hv.
      rewrite lookup_insert_ne; [now apply Hfresh|].
      intros Heq. apply Hnotin. rewrite Heq.
      apply list_elem_of_In, in_map, list_elem_of_In, Hv. }
    destruct (IH (<[zfs_name u := s]> st) (zfs_name u) Hhu Hchain Hnodup Hfresh')
      as [Hsub Hall].
    split.
    + etrans; [|exact Hsub]. now apply insert_subseteq.
    + constructor; [|exact Hall]. now apply (health_extend (<[zfs_name u := s]> st)).
Qed.


Lemma zfs_lineage_head (z : ZFSSnapshot) : exists rest, zfs_lineage z = z :: rest.
Proof. destruct z as [n [p|]]; cbn [zfs_lineage]; eauto. Qed.

Local Abbreviation send_estimate := (fun cmd : string => @inr Exception Z (estimate cmd)).

(** X13. An incremental backup leaves the target restorable. When the
    first local snapshot on the way back from the target that is in the
    bucket is healthy there, [backup_incremental] runs the incremental
    uploads of the locals before it, the oldest first; and in the catalog
    that holds, for each of these uploads, the object that [pput] stores
    with the metadata [parse_metadata] makes of the [--meta] arguments of
    [_pput_cmd], every snapshot that was healthy still is, every uploaded
    snapshot is healthy, and so is the target. The local snapshot names are
    distinct. *)
Theorem backup_incremental_leaves_target_healthy (snap_name : option string)
    (z : ZFSSnapshot) (base : string) :
  let st := _snapshots (s3_manager self) in
  let uploads := rev (missing_remotely st (zfs_lineage z)) in
  let st' := catalog_after_uploads self estimate content_length st uploads in
  fresh st ->
  _snapshot_to_backup self snap_name = inr z ->
  NoDup (map zfs_name (zfs_lineage z)) ->
  first_present st (zfs_lineage z) = Some base ->
  fst (is_healthy st base) = true ->
  backup_incremental send_estimate self snap_name false
  = mkRun (flat_map (incremental_upload self estimate false) uploads)
          (inr (map (incremental_size estimate) uploads))
  /\ (forall n, health st n = Some healthy -> health st' n = Some healthy)
  /\ Forall (fun u => health st' (zfs_name u) = Some healthy) uploads
  /\ health st' (zfs_name z) = Some healthy.
Proof.
  cbn zeta. intros Hfresh Hz Hnodup Hbase Hhealthy.
  set (st := _snapshots (s3_manager self)) in *.
  split; [now apply (backup_incremental_minimal self estimate false snap_name z base)|].
  destruct (missing_remotely_prefix st _ base Hbase) as (b & rest & Hpath & Hb & [sb Hsb] & Hnew).
  assert (Hh : health st base = Some healthy).
  { destruct (is_healthy_spec st base sb (fresh_cache_sound st Hfresh) Hsb)
      as (h & Hh & Hok & _).
    rewrite Hhealthy in Hok. destruct h; [exact Hh|discriminate]. }
  assert (Hnodup' : NoDup (map zfs_name (rev (missing_remotely st (zfs_lineage z))))).
  { rewrite Hpath, map_app in Hnodup. apply NoDup_app in Hnodup as [Hnodup _].
    rewrite map_rev. now rewrite <- Permutation_rev. }
  assert (Hnew' : Forall (fun u => st !! zfs_name u = None)
                         (rev (missing_remotely st (zfs_lineage z)))).
  { now apply List.Forall_rev. }
  destruct (uploads_keep_healthy (rev (missing_remotely st (zfs_lineage z))) st base Hh
              (uploads_on_each_other st z base Hbase) Hnodup' Hnew') as [Hsub Hall].
  split; [intros n Hn; now apply (health_extend st)|]. split; [exact Hall|].
  destruct (zfs_lineage_head z) as [tail Htail].
  destruct (missing_remotely st (zfs_lineage z)) as [|u M] eqn:HM.
  - cbn [rev catalog_after_uploads]. cbn [app] in Hpath. rewrite Htail in Hpath.
    injection Hpath as -> _. now rewrite Hb.
  - rewrite Htail in Hpath. cbn [app] in Hpath. injection Hpath as -> _.
    rewrite Forall_forall in Hall. apply Hall. cbn [rev].
    apply list_elem_of_In, in_or_app. right. now left.
Qed.

End Catalog.

Lemma backup_incremental_leaves_target_healthy_witness :
  let st := _snapshots (s3_manager later_backup_manager) in
  let st' := catalog_after_uploads later_backup_manager (fun _ => 42) (fun _ => 7) st
               [mkZFSSnapshot "D@b" (Some (mkZFSSnapshot "D@a" None));
                mkZFSSnapshot "D@c"
                  (Some (mkZFSSnapshot "D@b" (Some (mkZFSSnapshot "D@a" None))))] in
  result (backup_incremental (fun _ => inr 42) later_backup_manager None false)
  = inr [("D@b", 42); ("D@c", 42)]
  /\ health st' "D@b" = Some healthy
  /\ health st' "D@c" = Some healthy.
Proof.
  cbn zeta.
  destruct (backup_incremental_leaves_target_healthy later_backup_manager (fun _ => 42)
              (fun _ => 7) None
              (mkZFSSnapshot "D@c"
                 (Some (mkZFSSnapshot "D@b" (Some (mkZFSSnapshot "D@a" None)))))
              "D@a")
    as (Hrun & _ & Hall & Htarget).
  - apply fresh_load_snapshots.
  - vm_compute. reflexivity.
  - apply (bool_decide_eq_true_1 (NoDup _)). vm_compute. reflexivity.
  - vm_compute. reflexivity.
  - vm_compute. reflexivity.
  - split; [rewrite Hrun; vm_compute; reflexivity|].
    split; [|exact Htarget].
    apply Forall_cons in Hall as [Hb _]. exact Hb.
Defined.

End BackupProps.

(** ** An incremental backup onto a broken lineage *)

Module BrokenBaseProps.
Import Snap SnapProps.
Local Open Scope string_scope.
Local Open Scope list_scope.

(** X14. An incremental backup onto a broken remote lineage uploads
    nothing. When the first local snapshot on the way back from the target
    that is in the bucket is not healthy there (its chain misses a parent
    or runs in a cycle), [backup_incremental] raises [IntegrityError] before
    any command is run or line printed, dry run or not; and the message is
    the text of the source as it stands, with its placeholders: it names
    neither the snapshot nor the reason. *)
Theorem backup_incremental_stops_on_broken_base (send : string -> Exception + Z)
    (self : PairManager) (snap_name : option string) (dry_run : bool)
    (z : ZFSSnapshot) (base : string) :
  let st := _snapshots (s3_manager self) in
  fresh st ->
  _snapshot_to_backup self snap_name = inr z ->
  first_present st (zfs_lineage z) = Some base ->
  health st base <> Some healthy ->
  backup_incremental send self snap_name dry_run
  = mkRun []
      (inl (IntegrityError
              "Broken snapshot detected {s3_snap.name}, reason: '{s3_snap.reason_broken}'")).
Proof.
  cbn zeta. intros Hfresh Hz Hbase Hbroken. unfold backup_incremental.
  rewrite Hz, backup_walk_spec, Hbase.
  assert (Hin : is_Some (_snapshots (s3_manager self) !! base)).
  { clear Hz Hbroken. revert Hbase. generalize (zfs_lineage z) as path.
    induction path as [|u path IH]; [discriminate|]. cbn [first_present].
    destruct (_snapshots (s3_manager self) !! zfs_name u) eqn:Hu; [|exact IH].
    intros [= <-]. rewrite Hu. eauto. }
  destruct Hin as [sb Hsb].
  destruct (is_healthy_spec _ base sb (fresh_cache_sound _ Hfresh) Hsb) as (h & Hh & -> & _).
  destruct h; [contradiction|reflexivity].
Qed.

Lemma backup_incremental_stops_on_broken_base_witness :
  health (_snapshots (s3_manager broken_backup_manager)) "D@c" = Some (broken MISSING_PARENT)
  /\ backup_incremental estimate_42 broken_backup_manager (Some "D@c") true
     = mkRun []
         (inl (IntegrityError
                 "Broken snapshot detected {s3_snap.name}, reason: '{s3_snap.reason_broken}'")).
Proof.
  split; [vm_compute; reflexivity|].
  apply (backup_incremental_stops_on_broken_base estimate_42 broken_backup_manager
           (Some "D@c") true
           (mkZFSSnapshot "D@c"
              (Some (mkZFSSnapshot "D@b" (Some (mkZFSSnapshot "D@a" None)))))
           "D@c").
  - apply fresh_load_snapshots.
  - vm_compute. reflexivity.
  - vm_compute. reflexivity.
  - vm_compute. discriminate.
Defined.

End BrokenBaseProps.

(** ** The keys of the bucket *)

Module BucketProps.
Import Snap SnapProps TextProps.
Local Open Scope string_scope.
Local Open Scope list_scope.

(** ** Keys and names *)

Lemma append_inj (a b c : string) : a +:+ b = a +:+ c -> b = c.
Proof.
  induction a as [|x a IH]; [exact (fun H => H)|].
  rewrite !append_cons. intros [= H]. now apply IH.
Qed.

Lemma prefix_nil (s : string) : String.prefix "" s = true.
Proof. now destruct s. Qed.

Lemma prefix_append_same (a b c : string) :
  String.prefix (a +:+ b) (a +:+ c) = String.prefix b c.
Proof.
  induction a as [|x a IH]; [reflexivity|].
  rewrite !append_cons. cbn [String.prefix].
  destruct (ascii_dec x x) as [_|Hne]; [exact IH|contradiction].
Qed.

Lemma prefix_split (a key : string) :
  String.prefix a key = true -> exists b, key = a +:+ b.
Proof.
  revert key. induction a as [|x a IH]; intros key H.
  - now exists key.
  - destruct key as [|y key]; [discriminate|]. cbn [String.prefix] in H.
    destruct (ascii_dec x y) as [->|_]; [|discriminate].
    destruct (IH key H) as [b ->]. exists b. now rewrite append_cons.
Qed.

Lemma drop_chars_append (a b : string) : drop_chars (String.length a) (a +:+ b) = b.
Proof.
  induction a as [|x a IH]; [now destruct b|].
  rewrite append_cons. cbn [String.length drop_chars]. exact IH.
Qed.

Lemma endswith_slash_append (s : string) : endswith_slash (s +:+ "/") = true.
Proof.
  induction s as [|x s IH]; [reflexivity|].
  rewrite append_cons. destruct s as [|y s]; [reflexivity|].
  rewrite append_cons in IH |- *. exact IH.
Qed.

(** [os.path.join] after a prefix that ends in a slash *)
Lemma os_path_join_slash (a b : string) :
  String.prefix "/" b = false -> os_path_join (a +:+ "/") b = (a +:+ "/") +:+ b.
Proof.
  intros Hb. unfold os_path_join. rewrite Hb, endswith_slash_append.
  now rewrite orb_true_r.
Qed.

(** ** The loop over the listed keys *)

Lemma NoDup_keys_filter (f : string * (gmap string string * Z) -> bool) (l : Bucket) :
  NoDup (map fst l) -> NoDup (map fst (List.filter f l)).
Proof.
  induction l as [|o l IH]; [trivial|]. cbn [map List.filter]. intros H.
  apply NoDup_cons in H as [Hnotin H].
  destruct (f o); [|now apply IH]. cbn [map]. apply NoDup_cons. split; [|now apply IH].
  intros Hin. apply Hnotin.
  apply list_elem_of_In, in_map_iff in Hin as (o' & Ho' & Hin).
  apply filter_In in Hin as [Hin _].
  apply list_elem_of_In, in_map_iff. eauto.
Qed.

Lemma _snapshots_loop_spec (pre : string) (keys : Bucket) :
  forall (snapshots : Store) (name : string) (s : S3Snapshot),
    NoDup (map fst keys) ->
    (forall o, o ∈ keys -> exists n, fst o = pre +:+ n) ->
    (_snapshots_loop (String.length pre) keys snapshots !! name = Some s
     <-> (exists metadata content_length,
            (pre +:+ name, (metadata, content_length)) ∈ keys
            /\ s = mkS3Snapshot metadata content_length None None)
         \/ ((forall o, (pre +:+ name, o) ∉ keys) /\ snapshots !! name = Some s)).
Proof.
  induction keys as [|[key [metadata content_length]] keys IH];
    intros snapshots name s Hnodup Hpre.
  - cbn [_snapshots_loop]. split.
    + intros H. right. split; [intros o Ho; inversion Ho|exact H].
    + intros [(m & c & Hin & _)|[_ H]]; [inversion Hin|exact H].
  - cbn [map] in Hnodup. apply NoDup_cons in Hnodup as [Hnotin Hnodup].
    destruct (Hpre (key, (metadata, content_length))) as [n Hn]; [left|].
    cbn [fst] in Hn. subst key. cbn [_snapshots_loop fst]. rewrite drop_chars_append.
    rewrite IH; [|exact Hnodup|intros o Ho; apply Hpre; now right].
    assert (Hfresh : forall o, (pre +:+ n, o) ∉ keys).
    { intros o Ho. apply Hnotin. apply list_elem_of_In, in_map_iff.
      exists (pre +:+ n, o). split; [reflexivity|]. now apply list_elem_of_In. }
    destruct (decide (n = name)) as [->|Hne].
    + rewrite lookup_insert_eq. split.
      * intros [(m & c & Hin & _)|[_ [= <-]]]; [now apply Hfresh in Hin|].
        left. exists metadata, content_length. split; [left|reflexivity].
      * intros [(m & c & Hin & ->)|[Hout _]].
        -- apply elem_of_cons in Hin as [[= <- <-]|Hin]; [|now apply Hfresh in Hin].
           right. split; [exact Hfresh|reflexivity].
        -- exfalso. apply (Hout (metadata, content_length)). left.
    + rewrite lookup_insert_ne by exact Hne.
      assert (Hkey : pre +:+ name <> pre +:+ n).
      { intros H. apply Hne. symmetry. now apply (append_inj pre). }
      split.
      * intros [(m & c & Hin & ->)|[Hout H]].
        -- left. exists m, c. split; [now right|reflexivity].
        -- right. split; [|exact H]. intros o Ho.
           apply elem_of_cons in Ho as [[= H1 _]|Ho]; [contradiction|now apply (Hout o)].
      * intros [(m & c & Hin & ->)|[Hout H]].
        -- left. exists m, c. split; [|reflexivity].
           apply elem_of_cons in Hin as [[= H1 _]|Hin]; [contradiction|exact Hin].
        -- right. split; [|exact H]. intros o Ho. apply (Hout o). now right.
Qed.

(** ** From the bucket to the catalog and back *)

(** X15. A snapshot goes by the same key when it is uploaded, listed and
    downloaded. For a manager made by [__init__] (its prefix ends in one
    slash) over a bucket, with a snapshot prefix that does not start with a
    slash: the catalog [_snapshots] holds a snapshot under a name exactly
    when the name starts with the snapshot prefix and the bucket has an
    object under the key "prefix of the manager, then the name", and the
    snapshot then carries the metadata and the length of that object. It is
    the key that the upload command of [_pput_cmd] ends with, and, for a
    name that does not start with a slash, the key that [restore] asks
    [zfs3backup_get] for. *)
Theorem snapshot_key_round_trip (prefix snapshot_prefix : string) (bucket : Bucket)
    (zfs : ZFSSnapshotManager) (comp : option string) :
  let mgr :=
    S3SnapshotManager_init prefix
      (_snapshots_of (rstrip_slash prefix +:+ "/") snapshot_prefix bucket) in
  let self := mkPairManager mgr zfs comp in
  String.prefix "/" snapshot_prefix = false ->
  NoDup (map fst bucket) ->
  (forall name s,
     _snapshots mgr !! name = Some s
     <-> String.prefix snapshot_prefix name = true
         /\ exists metadata content_length,
              (s3_prefix mgr +:+ name, (metadata, content_length)) ∈ bucket
              /\ s = mkS3Snapshot metadata content_length None None)
  /\ (forall name estimated parent,
        exists options,
          _pput_cmd self estimated (s3_prefix mgr) name parent
          = options +:+ " " +:+ s3_prefix mgr +:+ name)
  /\ (forall name s dry_run force,
        String.prefix "/" name = false ->
        exists recv,
          restore_pipe self dry_run force name s
          = Pipe ("zfs3backup_get " +:+ s3_prefix mgr +:+ name) recv dry_run (size s)).
Proof.
  intros mgr self Hsp Hnodup.
  assert (Hpre : s3_prefix mgr = rstrip_slash prefix +:+ "/") by reflexivity.
  assert (Hsnap : _snapshots mgr
                  = _snapshots_of (rstrip_slash prefix +:+ "/") snapshot_prefix bucket)
    by reflexivity.
  assert (Hself : s3_manager self = mgr) by reflexivity.
  rewrite Hpre, Hsnap. clearbody self mgr. set (pre := rstrip_slash prefix +:+ "/") in *.
  split; [|split].
  - intros name s. unfold _snapshots_of.
    rewrite (os_path_join_slash (rstrip_slash prefix) snapshot_prefix Hsp : os_path_join pre _ = _).
    cbv zeta.
    rewrite (_snapshots_loop_spec pre).
    + rewrite lookup_empty. split.
      * intros [(m & c & Hin & ->)|[_ H]]; [|discriminate].
        apply list_elem_of_In, filter_In in Hin as [Hin Hf]. cbn [fst] in Hf.
        rewrite prefix_append_same in Hf. split; [exact Hf|].
        exists m, c. split; [now apply list_elem_of_In|reflexivity].
      * intros (Hname & m & c & Hin & ->). left. exists m, c. split; [|reflexivity].
        apply list_elem_of_In, filter_In. split; [now apply list_elem_of_In|].
        cbn [fst]. now rewrite prefix_append_same.
    + now apply NoDup_keys_filter.
    + intros o Ho. apply list_elem_of_In, filter_In in Ho as [_ Hf].
      destruct (prefix_split _ _ Hf) as [b Hb]. exists (snapshot_prefix +:+ b).
      now rewrite Hb, append_assoc.
  - intros name estimated parent. unfold _pput_cmd.
    exists ("pput --quiet --estimated " +:+ pretty estimated +:+ " "
            +:+ String.concat " " (map (fun m => "--meta " +:+ m)
                                       (_pput_cmd_meta self estimated parent))).
    now rewrite !append_assoc.
  - intros name s dry_run force Hname. unfold restore_pipe. rewrite Hself, Hpre.
    rewrite (os_path_join_slash (rstrip_slash prefix) name Hname : os_path_join pre _ = _).
    eexists. reflexivity.
Qed.

Lemma snapshot_key_round_trip_witness :
  let bucket : Bucket :=
    [("backups/D@snap1", (list_to_map [("isfull", "true")], 100));
     ("backups/D@other", (∅, 5));
     ("backups/D@snap2", (list_to_map [("parent", "D@snap1")], 10));
     ("elsewhere/D@snap3", (∅, 7))] in
  let mgr :=
    S3SnapshotManager_init "backups//" (_snapshots_of "backups/" "D@snap" bucket) in
  _snapshots mgr !! "D@snap2"
  = Some (mkS3Snapshot (list_to_map [("parent", "D@snap1")]) 10 None None)
  /\ _snapshots mgr !! "D@other" = None.
Proof.
  cbn zeta.
  destruct (snapshot_key_round_trip "backups//" "D@snap"
              [("backups/D@snap1", (list_to_map [("isfull", "true")], 100));
               ("backups/D@other", (∅, 5));
               ("backups/D@snap2", (list_to_map [("parent", "D@snap1")], 10));
               ("elsewhere/D@snap3", (∅, 7))]
              (mkZFSSnapshotManager [] []) None)
    as (Hlist & _ & _).
  - reflexivity.
  - apply (bool_decide_eq_true_1 (NoDup _)). vm_compute. reflexivity.
  - split.
    + apply Hlist. split; [reflexivity|]. eexists _, _. split; [|reflexivity].
      apply list_elem_of_In. right. right. left. reflexivity.
    + destruct (_ !! "D@other") as [s|] eqn:Hs; [|reflexivity].
      apply Hlist in Hs as [Hs _]. discriminate Hs.
Defined.

End BucketProps.

(** ** The local snapshots, in the order of the volume manager *)

Module LocalProps.
Import Snap SnapProps TextProps BucketProps.
Local Open Scope string_scope.
Local Open Scope list_scope.

(** ** Ordered dictionaries *)

Lemma od_set_fresh {V : Type} (key : string) (value : V) (d : list (string * V)) :
  key ∉ map fst d -> od_set key value d = d ++ [(key, value)].
Proof.
  induction d as [|[k v] d IH]; [reflexivity|]. cbn [map fst od_set app]. intros Hk.
  apply not_elem_of_cons in Hk as [Hne Hk].
  destruct (String.eqb_spec k key) as [->|_]; [contradiction|]. now rewrite IH.
Qed.

Lemma od_get_app {V : Type} (key : string) (value : V) (d d' : list (string * V)) :
  od_get key d = Some value -> od_get key (d ++ d') = Some value.
Proof.
  induction d as [|[k v] d IH]; [discriminate|]. cbn [od_get app].
  destruct (String.eqb k key); [trivial|exact IH].
Qed.

Lemma od_get_fresh {V : Type} (key : string) (value : V) (d : list (string * V)) :
  key ∉ map fst d -> od_get key (d ++ [(key, value)]) = Some value.
Proof.
  induction d as [|[k v] d IH]; cbn [map fst od_get app]; intros Hk.
  - now rewrite String.eqb_refl.
  - apply not_elem_of_cons in Hk as [Hne Hk].
    destruct (String.eqb_spec k key) as [->|_]; [contradiction|]. now apply IH.
Qed.

Lemma NoDup_List_filter {A : Type} (f : A -> bool) (l : list A) :
  NoDup l -> NoDup (List.filter f l).
Proof.
  induction l as [|x l IH]; [trivial|]. cbn [List.filter]. intros H.
  apply NoDup_cons in H as [Hx H]. destruct (f x); [|now apply IH].
  apply NoDup_cons. split; [|now apply IH].
  intros Hin. apply Hx. apply list_elem_of_In, filter_In in Hin as [Hin _].
  now apply list_elem_of_In.
Qed.

(** ** The local snapshots, each on the one before *)

Section Build.

Variable fs_name snapshot_prefix : string.

Local Abbreviation full := (fun n : string => fs_name +:+ "@" +:+ n).
Local Abbreviation kept := (List.filter (String.prefix snapshot_prefix)).

Lemma full_inj (n m : string) : full n = full m -> n = m.
Proof. intros H. apply append_inj in H. now apply (append_inj "@") in H. Qed.

Lemma built_ok_nil : built_ok fs_name [] None [].
Proof.
  unfold built_ok. cbn. repeat split; try reflexivity.
  intros front n back H. destruct front; discriminate.
Qed.

Lemma built_ok_step (seen : list string) (parent : option ZFSSnapshot)
    (snapshots : list (string * ZFSSnapshot)) (n : string) :
  n ∉ seen ->
  built_ok fs_name seen parent snapshots ->
  built_ok fs_name (seen ++ [n]) (Some (mkZFSSnapshot (full n) parent))
    (od_set (full n) (mkZFSSnapshot (full n) parent) snapshots).
Proof.
  intros Hn (Hkeys & Hnames & Hlast & Hparent & Hall). unfold built_ok. cbv zeta.
  assert (Hfresh : full n ∉ map fst snapshots).
  { rewrite Hkeys. intros Hin. apply Hn.
    apply list_elem_of_In, in_map_iff in Hin as (m & Hm & Hin).
    apply full_inj in Hm. subst m. now apply list_elem_of_In. }
  rewrite (od_set_fresh _ _ _ Hfresh).
  assert (Hline : map zfs_name (zfs_lineage (mkZFSSnapshot (full n) parent))
                  = rev (map full (seen ++ [n]))).
  { rewrite map_app, rev_app_distr. cbn [map rev app].
    destruct parent as [z|].
    - cbn [zfs_lineage map zfs_name]. now rewrite Hparent.
    - subst seen. reflexivity. }
  split; [rewrite !map_app, Hkeys; reflexivity|].
  split; [rewrite !map_app, Hnames; reflexivity|].
  split; [rewrite map_app; apply last_snoc|]. split; [exact Hline|].
  intros front m back Heq.
  destruct back as [|b back _] using rev_ind.
  - apply app_inj_tail in Heq as [-> ->].
    exists (mkZFSSnapshot (full m) parent). split; [now apply od_get_fresh|exact Hline].
  - rewrite app_comm_cons, app_assoc in Heq. apply app_inj_tail in Heq as [-> ->].
    destruct (Hall front m back eq_refl) as (z & Hz & Hlz).
    exists z. split; [now apply od_get_app|exact Hlz].
Qed.

Lemma _build_snapshots_loop_ok (names : list string) :
  forall (seen : list string) (parent : option ZFSSnapshot)
         (snapshots : list (string * ZFSSnapshot)),
    NoDup (seen ++ kept names) ->
    built_ok fs_name seen parent snapshots ->
    exists parent',
      built_ok fs_name (seen ++ kept names) parent'
        (_build_snapshots_loop fs_name snapshot_prefix names parent snapshots).
Proof.
  induction names as [|n names IH]; intros seen parent snapshots Hnodup Hok.
  - cbn [List.filter _build_snapshots_loop]. rewrite app_nil_r. eauto.
  - cbn [List.filter _build_snapshots_loop] in *.
    destruct (String.prefix snapshot_prefix n); cbn [negb]; [|now apply IH].
    replace (seen ++ n :: kept names) with ((seen ++ [n]) ++ kept names) in *
      by (now rewrite <- app_assoc).
    apply IH; [exact Hnodup|]. apply built_ok_step; [|exact Hok].
    apply NoDup_app in Hnodup as [Hnodup _]. apply NoDup_app in Hnodup as (_ & Hdisj & _).
    intros Hin. apply (Hdisj n Hin). left.
Qed.

(** X16. The local snapshots are chained in the order [zfs list] gives
    them. Of the snapshot names of the filesystem, which are distinct,
    [_build_snapshots] keeps those that start with the snapshot prefix, in
    their order, each under its full name [fs@name]: these are what [list]
    gives; [get] of a kept name gives a snapshot whose way back along
    [parent] goes through exactly the kept snapshots before it, the nearest
    first, so that the first one kept has no parent; and [get_latest] is
    the last one kept, or [SoftError] when none is. *)
Theorem build_snapshots_lineage (fs_snaps : list string) (datasets : list string) :
  let mgr :=
    mkZFSSnapshotManager (_build_snapshots fs_name snapshot_prefix fs_snaps) datasets in
  NoDup fs_snaps ->
  map zfs_name (zfs_list mgr) = map full (kept fs_snaps)
  /\ (forall front n back,
        kept fs_snaps = front ++ n :: back ->
        exists z, zfs_get mgr (full n) = Some z
                  /\ map zfs_name (zfs_lineage z) = rev (map full (front ++ [n])))
  /\ match get_latest mgr with
     | inr z =>
       kept fs_snaps <> []
       /\ map zfs_name (zfs_lineage z) = rev (map full (kept fs_snaps))
     | inl e => kept fs_snaps = [] /\ e = SoftError "Nothing to backup"
     end.
Proof.
  intros mgr Hnodup. unfold mgr, zfs_list, zfs_get, get_latest. cbn [zfs_snapshots].
  unfold _build_snapshots.
  destruct (_build_snapshots_loop_ok fs_snaps [] None []) as (parent & Hok);
    [now apply NoDup_List_filter|apply built_ok_nil|].
  cbn [app] in Hok. destruct Hok as (Hkeys & Hnames & Hlast & Hparent & Hall).
  split; [now rewrite map_map|]. split; [exact Hall|].
  rewrite Hlast. destruct parent as [z|].
  - split; [|exact Hparent]. intros Hnil. rewrite Hnil in Hparent.
    destruct z as [n [p|]]; discriminate.
  - split; [exact Hparent|reflexivity].
Qed.

End Build.

Lemma build_snapshots_lineage_witness :
  let mgr := mkZFSSnapshotManager
               (_build_snapshots "D" "snap" ["snap1"; "other"; "snap2"; "snap3"]) [] in
  map zfs_name (zfs_list mgr) = ["D@snap1"; "D@snap2"; "D@snap3"]
  /\ match get_latest mgr with
     | inr z => map zfs_name (zfs_lineage z) = ["D@snap3"; "D@snap2"; "D@snap1"]
     | inl _ => False
     end.
Proof.
  cbn zeta.
  destruct (build_snapshots_lineage "D" "snap" ["snap1"; "other"; "snap2"; "snap3"] [])
    as (Hlist & _ & Hlatest).
  - apply (bool_decide_eq_true_1 (NoDup _)). vm_compute. reflexivity.
  - split; [exact Hlist|].
    destruct (get_latest _) as [e|z]; [destruct Hlatest; discriminate|].
    exact (proj2 Hlatest).
Defined.

End LocalProps.

(** ** The listing of the pairs *)

Module ListProps.
Import Snap SnapProps.
Local Open Scope string_scope.
Local Open Scope list_scope.

(** ** The order of names *)

Lemma string_leb_trans (s1 s2 s3 : string) :
  String.leb s1 s2 = true -> String.leb s2 s3 = true -> String.leb s1 s3 = true.
Proof.
  unfold String.leb. revert s2 s3.
  induction s1 as [|a1 s1 IH]; intros [|a2 s2] [|a3 s3]; cbn [String.compare];
    try reflexivity; try discriminate.
  unfold Ascii.compare.
  destruct (N.compare_spec (N_of_ascii a1) (N_of_ascii a2)) as [H12|H12|H12];
    destruct (N.compare_spec (N_of_ascii a2) (N_of_ascii a3)) as [H23|H23|H23];
    destruct (N.compare_spec (N_of_ascii a1) (N_of_ascii a3)) as [H13|H13|H13];
    try reflexivity; try discriminate; try lia.
  apply IH.
Qed.

Local Abbreviation name_le :=
  (fun a b : string * S3Snapshot => String.leb (fst a) (fst b) = true).

Lemma insert_by_name_perm {A : Type} (x : string * A) (l : list (string * A)) :
  Permutation (insert_by_name x l) (x :: l).
Proof.
  induction l as [|y l IH]; [reflexivity|]. cbn [insert_by_name].
  destruct (String.leb (fst x) (fst y)); [reflexivity|].
  rewrite IH. apply perm_swap.
Qed.

Lemma sorted_by_name_perm {A : Type} (l : list (string * A)) :
  Permutation (sorted_by_name l) l.
Proof.
  induction l as [|x l IH]; [reflexivity|]. unfold sorted_by_name in *. cbn [fold_right].
  rewrite insert_by_name_perm. now constructor.
Qed.

Lemma insert_by_name_sorted (x : string * S3Snapshot) (l : list (string * S3Snapshot)) :
  StronglySorted name_le l -> StronglySorted name_le (insert_by_name x l).
Proof.
  induction 1 as [|y l Hl IH Hy]; cbn [insert_by_name].
  - repeat constructor.
  - destruct (String.leb (fst x) (fst y)) eqn:Hxy.
    + constructor; [now constructor|]. constructor; [exact Hxy|].
      eapply List.Forall_impl; [|exact Hy]. intros z Hz. cbv beta in *.
      now apply (string_leb_trans _ (fst y)).
    + constructor; [exact IH|].
      apply (Permutation_Forall (x := x :: l)); [now rewrite insert_by_name_perm|].
      constructor; [|exact Hy]. cbv beta.
      destruct (String.leb_total (fst x) (fst y)) as [H|H]; [congruence|exact H].
Qed.

Lemma sorted_by_name_sorted (l : list (string * S3Snapshot)) :
  StronglySorted name_le (sorted_by_name l).
Proof.
  induction l as [|x l IH]; [constructor|]. unfold sorted_by_name in *. cbn [fold_right].
  now apply insert_by_name_sorted.
Qed.

Lemma filter_strongly_sorted {A : Type} (R : A -> A -> Prop) (f : A -> bool) (l : list A) :
  StronglySorted R l -> StronglySorted R (List.filter f l).
Proof.
  induction 1 as [|x l Hl IH Hx]; [constructor|]. cbn [List.filter].
  destruct (f x); [|exact IH]. constructor; [exact IH|].
  rewrite List.Forall_forall in Hx |- *. intros y Hy. apply Hx.
  now apply filter_In in Hy as [Hy _].
Qed.

(** ** The two loops *)

Lemma list_locals_spec (st : Store) (locals : list ZFSSnapshot) :
  forall (seen : gset string) (pairs : list Pair),
    list_locals st locals seen pairs
    = (seen ∪ list_to_set (map zfs_name locals),
       pairs ++ map (fun z => ((fun s => (zfs_name z, s)) <$> st !! zfs_name z, Some z)) locals).
Proof.
  induction locals as [|z locals IH]; intros seen pairs; cbn [list_locals map].
  - rewrite app_nil_r. f_equal. set_solver.
  - rewrite IH, <- app_assoc. f_equal. set_solver.
Qed.

Lemma list_remotes_spec (remotes : list (string * S3Snapshot)) (seen : gset string) :
  forall pairs : list Pair,
    list_remotes remotes seen pairs
    = pairs ++ map (fun s => (Some s, None))
                   (List.filter (fun s => bool_decide (fst s ∉ seen)) remotes).
Proof.
  induction remotes as [|s remotes IH]; intros pairs; cbn [list_remotes List.filter map].
  - now rewrite app_nil_r.
  - destruct (bool_decide (fst s ∉ seen)); rewrite IH; [|reflexivity].
    now rewrite <- app_assoc.
Qed.

(** ** Every snapshot on one line *)

(** X17. The listing of [PairManager.list] shows every snapshot once.
    First come the local snapshots, in the order of the local manager, each
    with the remote snapshot of the same name if the catalog has one; then
    the remote snapshots that no local one has the name of, each once, in
    ascending order of their names. So a name is listed exactly when a
    local or a remote snapshot has it, and when the names of the local
    snapshots are distinct no name is listed twice. *)
Theorem pair_list_every_snapshot_once (self : PairManager) :
  let st := _snapshots (s3_manager self) in
  let locals := zfs_list (zfs_manager self) in
  exists remote_only : list (string * S3Snapshot),
    pair_list self
    = map (fun z => ((fun s => (zfs_name z, s)) <$> st !! zfs_name z, Some z)) locals
      ++ map (fun s => (Some s, None)) remote_only
    /\ StronglySorted (fun a b => String.leb (fst a) (fst b) = true) remote_only
    /\ NoDup (map fst remote_only)
    /\ (forall n s, (n, s) ∈ remote_only <-> st !! n = Some s /\ n ∉ map zfs_name locals)
    /\ (forall n, Some n ∈ map pair_name (pair_list self)
                  <-> n ∈ map zfs_name locals \/ is_Some (st !! n))
    /\ (NoDup (map zfs_name locals) -> NoDup (map pair_name (pair_list self))).
Proof.
  intros st locals.
  set (seen := (∅ ∪ list_to_set (map zfs_name locals) : gset string)).
  assert (Hseen : forall n, n ∈ seen <-> n ∈ map zfs_name locals)
    by (intros n; unfold seen; set_solver).
  set (remote_only := List.filter (fun s => bool_decide (fst s ∉ seen))
                                  (s3_list (s3_manager self))).
  assert (Hperm : Permutation (s3_list (s3_manager self)) (map_to_list st))
    by apply sorted_by_name_perm.
  assert (Hin : forall n s, (n, s) ∈ remote_only
                            <-> st !! n = Some s /\ n ∉ map zfs_name locals).
  { intros n s. unfold remote_only. rewrite list_elem_of_In, filter_In, <- list_elem_of_In.
    rewrite Hperm, elem_of_map_to_list. cbn [fst]. rewrite bool_decide_eq_true, Hseen.
    reflexivity. }
  assert (Hnodup : NoDup (map fst remote_only)).
  { assert (Hall : NoDup (map fst (s3_list (s3_manager self)))).
    { rewrite Hperm. apply NoDup_fst_map_to_list. }
    unfold remote_only. revert Hall. generalize (s3_list (s3_manager self)) as l.
    induction l as [|x l IH]; [trivial|]. cbn [map List.filter]. intros H.
    apply NoDup_cons in H as [Hx H]. destruct (bool_decide _); [|now apply IH].
    cbn [map]. apply NoDup_cons. split; [|now apply IH].
    intros Hx'. apply Hx. apply list_elem_of_In, in_map_iff in Hx' as (y & Hy & Hy').
    apply filter_In in Hy' as [Hy' _]. apply list_elem_of_In, in_map_iff. eauto. }
  assert (Heq : pair_list self
                = map (fun z => ((fun s => (zfs_name z, s)) <$> st !! zfs_name z, Some z)) locals
                  ++ map (fun s => (Some s, None)) remote_only).
  { unfold pair_list. fold st locals. rewrite list_locals_spec, list_remotes_spec.
    reflexivity. }
  assert (Hnames : map pair_name (pair_list self)
                   = map Some (map zfs_name locals ++ map fst remote_only)).
  { rewrite Heq, !map_app. f_equal; rewrite !map_map; apply map_ext.
    - intros z. cbn [pair_name]. now destruct (st !! zfs_name z).
    - now intros [n s]. }
  exists remote_only. split; [exact Heq|].
  split; [apply filter_strongly_sorted, sorted_by_name_sorted|].
  split; [exact Hnodup|]. split; [exact Hin|]. rewrite Hnames. split.
  - intros n. rewrite list_elem_of_In, in_map_iff. split.
    + intros (m & [= ->] & Hm). apply in_app_or in Hm as [Hm|Hm].
      * left. now apply list_elem_of_In.
      * right. apply in_map_iff in Hm as ([m s] & <- & Hs).
        apply list_elem_of_In, Hin in Hs as [Hs _]. cbn [fst]. eauto.
    + intros H. exists n. split; [reflexivity|]. apply in_or_app.
      destruct (decide (n ∈ map zfs_name locals)) as [Hl|Hl];
        [left; now apply list_elem_of_In|].
      destruct H as [H|[s Hs]]; [contradiction|]. right.
      apply in_map_iff. exists (n, s). split; [reflexivity|].
      apply list_elem_of_In, Hin. auto.
  - intros Hlocals. apply (NoDup_fmap_2 Some). apply NoDup_app. split; [exact Hlocals|].
    split; [|exact Hnodup]. intros n Hn Hn'.
    apply list_elem_of_In, in_map_iff in Hn' as ([m s] & <- & Hs).
    apply list_elem_of_In, Hin in Hs as [_ Hs]. now apply Hs.
Qed.

End ListProps.

(** ** The size a dry-run send reports *)

Module EstimateProps.
Import Text TextProps LinesProps Snap.
Local Open Scope string_scope.
Local Open Scope list_scope.

Lemma last_line (before y : string) :
  before = "" \/ (exists b, before = b +:+ String "010" "") ->
  free_of is_break y -> y <> "" ->
  last (List.filter (fun line => negb (String.eqb line ""))
                    (splitlines (before +:+ y +:+ String "010" "")))
  = Some y.
Proof.
  intros Hb Hy Hne. unfold splitlines.
  assert (Hsplit : exists lines, splitlines_from (before +:+ y +:+ String "010" "") ""
                                 = lines ++ [y]).
  { destruct Hb as [->|(b & ->)].
    - exists []. change ("" +:+ y +:+ String "010" "") with (y +:+ String "010" "").
      rewrite splitlines_from_last by exact Hy. reflexivity.
    - exists (splitlines_from (b +:+ String "010" "") "").
      rewrite append_assoc.
      change (String "010" "" +:+ (y +:+ String "010" ""))
        with (String "010" (y +:+ String "010" "")).
      rewrite (splitlines_from_line_feed _ (String.length b)) by lia.
      rewrite (splitlines_from_last y Hy). reflexivity. }
  destruct Hsplit as (lines & ->). apply last_filter_snoc.
  now destruct (String.eqb_spec y "").
Qed.

(** X10. [_parse_estimated_size] goes by the last line of the output that
    is not empty. When that line is a word, a tab and the decimal numeral
    of an integer, as the last line [size <n>] of a dry-run send is, the
    result is that integer, whatever the lines before. When the line is
    one word only, the call raises [ValueError]; when the output has no
    line that is not empty, [IndexError]. *)
Theorem parse_estimated_size_last_line (before label : string) (n : Z) :
  before = "" \/ (exists b, before = b +:+ String "010" "") ->
  label <> "" -> free_of is_space label ->
  _parse_estimated_size (before +:+ (label +:+ String "009" (pretty n)) +:+ String "010" "")
  = inr n
  /\ _parse_estimated_size (before +:+ label +:+ String "010" "") = inl Text.ValueError
  /\ forall blank, Forall (fun c => is_break c = true) (list_ascii_of_string blank) ->
       _parse_estimated_size blank = inl Text.IndexError.
Proof.
  intros Hb Hne Hfree.
  destruct (numeral n) as (Hint & Hnum & Hsp & _ & Hbr & _).
  assert (Hlabel : free_of is_break label).
  { eapply List.Forall_impl; [|exact Hfree]. exact not_space_not_break. }
  split; [|split].
  - unfold _parse_estimated_size. rewrite last_line; [|exact Hb| |].
    + rewrite split_two_words by (assumption || reflexivity). now rewrite Hint.
    + apply free_of_append. split; [exact Hlabel|]. constructor; [reflexivity|exact Hbr].
    + destruct label; [contradiction|discriminate].
  - unfold _parse_estimated_size. rewrite last_line by assumption.
    now rewrite split_one_word.
  - intros blank Hblank. unfold _parse_estimated_size, splitlines.
    pose proof (splitlines_from_breaks _ blank (Nat.le_refl _) Hblank) as Hlines.
    assert (Hnone : List.filter (fun line => negb (String.eqb line ""))
                                (splitlines_from blank "") = []).
    { induction Hlines as [|line lines -> _ IH]; [reflexivity|exact IH]. }
    now rewrite Hnone.
Qed.

(** The output of a dry-run send of a snapshot of 1234 bytes. *)
Lemma parse_estimated_size_last_line_witness :
  let before := "full" +:+ String "009" ("D@a" +:+ String "009" ("1234" +:+ String "010" "")) in
  _parse_estimated_size (before +:+ ("size" +:+ String "009" (pretty 1234%Z)) +:+ String "010" "")
  = inr 1234%Z
  /\ _parse_estimated_size (before +:+ "size" +:+ String "010" "") = inl Text.ValueError
  /\ forall blank, Forall (fun c => is_break c = true) (list_ascii_of_string blank) ->
       _parse_estimated_size blank = inl Text.IndexError.
Proof.
  apply (parse_estimated_size_last_line
           ("full" +:+ String "009" ("D@a" +:+ String "009" ("1234" +:+ String "010" "")))
           "size" 1234%Z).
  - right. exists ("full" +:+ String "009" ("D@a" +:+ String "009" "1234")). reflexivity.
  - discriminate.
  - repeat constructor.
Defined.

End EstimateProps.
